(** * Gibbs-ringing suppression (dipy/denoise/gibbs.py)

    Two shallow embeddings of the same source file:

    - [Value]: the numeric pipeline on nested lists of samples.  Floating
      point numbers are idealised as real numbers ([R]) and complex samples
      as pairs of reals; a NumPy array of shape (n0, n1) is a list of n0
      rows of n1 samples, and an array of shape (n0, n1, B) is a list of n0
      rows of n1 pixels, each pixel being the list of its B batch samples
      (NumPy's row-major order).
    - [Descr]: the same statements executed on array descriptors (dtype,
      shape, buffer identity) in a state-and-error monad: which exception
      NumPy raises, which dtype and shape every array has, which buffer every
      in-place statement writes to. *)

From Stdlib Require Import Reals Lra Lia ZArith.
From stdpp Require Import base option list.

(** ** Python slicing on lists *)

(** A slice bound as Python normalises it against a sequence of length
    [len]: negative bounds count from the end, and everything is clipped to
    [0, len]. *)
Definition py_bound (len : nat) (i : Z) : nat :=
  Z.to_nat (if (i <? 0)%Z then Z.max 0 (i + Z.of_nat len)
            else Z.min i (Z.of_nat len)).

(** [l[start:stop]]; [stop = None] is the open slice [l[start:]]. *)
Definition py_slice {A} (start : Z) (stop : option Z) (l : list A) : list A :=
  let a := py_bound (length l) start in
  let b := match stop with
           | Some e => py_bound (length l) e
           | None => length l
           end in
  take (b - a) (drop a l).

(** [xs[:, start:stop, ...]]: the same slice of every row. *)
Definition cols {A} (start : Z) (stop : option Z) (xs : list (list A))
  : list (list A) :=
  py_slice start stop <$> xs.

(** Length of axis 1 of a nested list (the length of its first row). *)
Definition ncols {A} (x : list (list A)) : nat :=
  match x with
  | [] => 0
  | row :: _ => length row
  end.

(** [x.transpose((1, 0) + tuple(range(2, x.ndim)))]: swap the first two
    axes, whatever the elements are. *)
Definition transpose {A} (x : list (list A)) : list (list A) :=
  (λ j, omap (λ row : list A, row !! j) x) <$> seq 0 (ncols x).

(** [range(a, b)] for naturals. *)
Definition py_range (a b : nat) : list nat := seq a (b - a).

(** Left-to-right sum of [f 0], ..., [f (n-1)]. *)
Fixpoint sum_upto (f : nat → R) (n : nat) : R :=
  match n with
  | 0 => 0%R
  | S k => (sum_upto f k + f k)%R
  end.

(** Index [z] wrapped into a periodic axis of length [len]. *)
Definition wrap (len : nat) (z : Z) : nat := Z.to_nat (z mod Z.of_nat len).

(** ** Rank polymorphism

    Every function of the source accepts a 2D image or a batch of 2D images
    stacked along a third axis; the trailing axis is carried along by
    NumPy's ellipsis and broadcasting.  A pixel is therefore [F A] for a
    container [F]: a bare sample for a 2D image, the list of its batch
    samples for a 3D array. *)
Class Batch (F : Type → Type) := {
  bmap : ∀ {A B}, (A → B) → F A → F B;
  bzip : ∀ {A B C}, (A → B → C) → F A → F B → F C;
  bget : ∀ {A}, F A → nat → option A;
  blen : ∀ {A}, F A → nat;
(** apply a transform of 2D arrays to every 2D slice over axes (0, 1) *)
bslices : ∀ {A B}, A → B → (list (list A) → list (list B)) →
          list (list (F A)) → list (list (F B));
}.

Global Hint Mode Batch ! : typeclass_instances.

(** 2D image: a pixel is one sample. *)
Definition scalar (A : Type) : Type := A.

#[export] Instance scalar_batch : Batch scalar := {|
  bmap A B f p := f p;
  bzip A B C f p q := f p q;
  bget A p b := match b with 0 => Some p | S _ => None end;
  blen A p := 1;
  bslices A B _ _ f x := f x;
|}.

(** The 2D slice [x[:, :, b]] of a batch. *)
Definition slice3 {A} (d : A) (b : nat) (x : list (list (list A)))
  : list (list A) :=
  fmap (M:=list) (fmap (M:=list) (λ p : list A, default d (p !! b))) x.

(** Batch of 2D images: a pixel is the list of its samples along axis 2;
    a transform over axes (0, 1) acts on each slice [x[:, :, b]]. *)
#[export] Instance list_batch : Batch list := {|
  bmap A B f p := f <$> p;
  bzip A B C f p q := zip_with f p q;
  bget A p b := p !! b;
  blen A p := length p;
  bslices A B da db f x :=
    imap (λ i row,
      imap (λ j p,
        imap (λ b _, default db (f (slice3 da b x) !! i ≫= (.!! j))) p)
        row) x;
|}.

Section arrays.
Context {F : Type → Type} `{Batch F}.

(** Element-wise unary and binary operations on arrays of pixels. *)
Definition amap {A B} (f : A → B) (x : list (list (F A)))
  : list (list (F B)) :=
  fmap (M:=list) (fmap (M:=list) (bmap f)) x.

Definition azip {A B C} (f : A → B → C)
    (x : list (list (F A))) (y : list (list (F B))) : list (list (F C)) :=
  zip_with (zip_with (bzip f)) x y.

(** The sample at row [i], column [j], batch index [b], if there is one. *)
Definition aget {A} (x : list (list (F A))) (i j b : nat) : option A :=
  match x !! i with
  | Some row => match row !! j with
                | Some p => bget p b
                | None => None
                end
  | None => None
  end.

(** The array has [n0] rows of [n1] pixels of batch size [nb]. *)
Definition has_shape {A} (n0 n1 nb : nat) (x : list (list (F A))) : Prop :=
  length x = n0 ∧
  Forall (λ row, length row = n1 ∧ Forall (λ p, blen p = nb) row) x.
End arrays.

(** ** The numeric pipeline on values *)

Module Value.

(** *** Complex samples *)

Definition C : Type := (R * R)%type.

Definition of_real (r : R) : C := (r, 0%R).
Definition Cadd (a b : C) : C := (a.1 + b.1, a.2 + b.2)%R.
Definition Cmul (a b : C) : C :=
  (a.1 * b.1 - a.2 * b.2, a.1 * b.2 + a.2 * b.1)%R.
Definition Cscale (a : C) (g : R) : C := (a.1 * g, a.2 * g)%R.
Definition Cdiv (a : C) (g : R) : C := (a.1 / g, a.2 / g)%R.
Definition Cconj (a : C) : C := (a.1, - a.2)%R.
Definition Cabs (a : C) : R := sqrt (a.1 * a.1 + a.2 * a.2).
Definition Cexp (a : C) : C := (exp a.1 * cos a.2, exp a.1 * sin a.2)%R.
Definition Csum (l : list C) : C := foldr Cadd (0%R, 0%R) l.

(** *** The spectral primitives (scipy.fft, standard semantics) *)

(** [np.linspace(start, stop, num)]. *)
Definition linspace (start stop : R) (num : nat) : list R :=
  (λ j, start + INR j * ((stop - start) / INR (num - 1)))%R <$> seq 0 num.

(** One output sample of the 2D discrete Fourier sum, [sgn] being the
    sign of the exponent. *)
Definition dft_sum (sgn : R) (x : list (list C)) (u v : nat) : C :=
  Csum (imap (λ m row,
    Csum (imap (λ n z,
      Cmul z (Cexp (0, sgn * 2 * PI *
                       (INR u * INR m / INR (length x)
                        + INR v * INR n / INR (ncols x)))%R)) row)) x).

Definition fft2 (x : list (list C)) : list (list C) :=
  imap (λ u row, imap (λ v _, dft_sum (-1) x u v) row) x.

Definition ifft2 (x : list (list C)) : list (list C) :=
  imap (λ u row,
    imap (λ v _, Cdiv (dft_sum 1 x u v)
                      (INR (length x) * INR (ncols x))) row) x.

(** [np.roll(l, s)] for [0 <= s <= len(l)]. *)
Definition roll {A} (s : nat) (l : list A) : list A :=
  drop (length l - s) l ++ take (length l - s) l.

(** [fftshift(x, axes=(0, 1))]: both axes rolled by half their length. *)
Definition fftshift {A} (x : list (list A)) : list (list A) :=
  roll (length x / 2) (roll (ncols x / 2) <$> x).

(** Boolean forms of the comparisons NumPy evaluates element-wise. *)
Definition Rgtb (a b : R) : bool := if Rgt_dec a b then true else false.
Definition Rnonzero (a : R) : bool := if Req_dec_T a 0 then false else true.

Section pipeline.
Context {F : Type → Type} `{Batch F}.

Definition fft2b : list (list (F C)) → list (list (F C)) :=
  bslices (0%R, 0%R) (0%R, 0%R) fft2.
Definition ifft2b : list (list (F C)) → list (list (F C)) :=
  bslices (0%R, 0%R) (0%R, 0%R) ifft2.

(** [dst[mask] = src[mask]] for arrays of one shape. *)
Definition mask_set (mask : list (list (F bool)))
    (src dst : list (list (F R))) : list (list (F R)) :=
  azip (λ (ms : bool * R) d, if ms.1 then ms.2 else d)
       (azip pair mask src) dst.

(** [dst[mask] = s] for a scalar [s]. *)
Definition mask_fill (mask : list (list (F bool))) (s : R)
    (dst : list (list (F R))) : list (list (F R)) :=
  azip (λ (m : bool) d, if m then s else d) mask dst.

(** [np.abs(a - b)] element-wise. *)
Definition abs_diff (a b : list (list (F R))) : list (list (F R)) :=
  azip (λ u v, Rabs (u - v)) a b.

(** One pass of the loop [for n in range(1, n_points)] of [_image_tv]. *)
Definition tv_step (n_points : nat) (xs : list (list (F R)))
    (acc : list (list (F R)) * list (list (F R))) (n : nat)
  : list (list (F R)) * list (list (F R)) :=
  let np := Z.of_nat n_points in
  let k := Z.of_nat n in
  (azip Rplus acc.1
     (abs_diff (cols (np + 1 + k)%Z (Some (- np - 1 + k)%Z) xs)
               (cols (np + 2 + k)%Z (Some (- np + k)%Z) xs)),
   azip Rplus acc.2
     (abs_diff (cols (np + 1 - k)%Z (Some (- np - 1 - k)%Z) xs)
               (cols (np - k)%Z (Some (- np - 2 - k)%Z) xs))).

Definition _image_tv (x : list (list (F R))) (axis : nat)
    (n_points : nat) : list (list (F R)) * list (list (F R)) :=
  let np := Z.of_nat n_points in
  let xs := match axis with 0 => transpose x | _ => x end in
  let xs := (λ row, py_slice (- np - 1)%Z None row ++ row
                    ++ py_slice 0 (Some (np + 1)%Z) row) <$> xs in
  let ptv := abs_diff (cols (np + 1)%Z (Some (- np - 1)%Z) xs)
                      (cols (np + 2)%Z (Some (- np)%Z) xs) in
  let ntv := abs_diff (cols (np + 1)%Z (Some (- np - 1)%Z) xs)
                      (cols np (Some (- np - 2)%Z) xs) in
  let r := foldl (tv_step n_points xs) (ptv, ntv)
                 (py_range 1 n_points) in
  match axis with
  | 0 => (transpose r.1, transpose r.2)
  | _ => r
  end.

(** The per-voxel search state of [_gibbs_removal_1d]. *)
Record search := Search {
  isp : list (list (F R)); sp : list (list (F R)); tvp : list (list (F R));
  isn : list (list (F R)); sn : list (list (F R)); tvn : list (list (F R));
}.

(** [ssamp = np.linspace(0.02, 0.9, num=45)]. *)
Definition ssamp : list R := linspace (2 / 100) (9 / 10) 45.

(** [k = (2.0j * np.pi * linspace(-N/2, N/2-1, N)) / N]. *)
Definition phase_ramp (N : nat) : list C :=
  (λ kj, Cdiv (Cmul (0, 2) (of_real (PI * kj))) (INR N))%R
    <$> linspace (- INR N / 2) (INR N / 2 - 1) N.

(** [c * eks] with [eks] broadcast along axis 1. *)
Definition mul_axis1 (c : list (list (F C))) (eks : list C)
  : list (list (F C)) :=
  (λ row : list (F C),
     zip_with (λ (p : F C) e, bmap (λ z, Cmul z e) p) row eks) <$> c.

(** [np.abs(ifft2(fftshift(c * eks)))]. *)
Definition shifted_image (c : list (list (F C))) (eks : list C)
  : list (list (F R)) :=
  amap Cabs (ifft2b (fftshift (mul_axis1 c eks))).

(** The body of [for s in ssamp]. *)
Definition search_step (n_points : nat) (c : list (list (F C)))
    (k : list C) (st : search) (s : R) : search :=
  let ks := (λ z, Cscale z s) <$> k in
  let eks := Cexp <$> ks in
  let img_p := shifted_image c eks in
  let tv := _image_tv img_p 1 n_points in
  let tvs_p := azip Rmin tv.1 tv.2 in
  let img_n := shifted_image c (Cconj <$> eks) in
  let tv := _image_tv img_n 1 n_points in
  let tvs_n := azip Rmin tv.1 tv.2 in
  let maskp := azip Rgtb (tvp st) tvs_p in
  let maskn := azip Rgtb (tvn st) tvs_n in
  {| isp := mask_set maskp img_p (isp st);
     sp := mask_fill maskp s (sp st);
     tvp := mask_set maskp tvs_p (tvp st);
     isn := mask_set maskn img_n (isn st);
     sn := mask_fill maskn s (sn st);
     tvn := mask_set maskn tvs_n (tvn st) |}.

(** The state before the first candidate: unshifted image, zero shifts,
    baseline TV. *)
Definition search_init (n_points : nat) (xs : list (list (F R)))
  : search :=
  let tv := _image_tv xs 1 n_points in
  let tvp := azip Rmin tv.1 tv.2 in
  {| isp := xs; sp := amap (λ _, 0%R) xs; tvp := tvp;
     isn := xs; sn := amap (λ _, 0%R) xs; tvn := tvp |}.

(** The state after the candidates [cands] (all of [ssamp] in the
    source). *)
Definition shift_search (n_points : nat) (xs : list (list (F R)))
    (cands : list R) : search :=
  let c := fftshift (fft2b (amap of_real xs)) in
  let k := phase_ramp (ncols xs) in
  foldl (search_step n_points c k) (search_init n_points xs) cands.

(** [idx = np.nonzero(sp + sn)] followed by
    [xs[idx] = (isp[idx] - isn[idx]) / (sp[idx] + sn[idx]) * sn[idx]
               + isn[idx]], in the order the source evaluates it. *)
Definition interpolate (st : search) (xs : list (list (F R)))
  : list (list (F R)) :=
  let idx := amap Rnonzero (azip Rplus (sp st) (sn st)) in
  let tmp := azip Rminus (isp st) (isn st) in
  let tmp := azip Rdiv tmp (azip Rplus (sp st) (sn st)) in
  let tmp := azip Rmult tmp (sn st) in
  let tmp := azip Rplus tmp (isn st) in
  mask_set idx tmp xs.

Definition _gibbs_removal_1d (x : list (list (F R))) (axis : nat)
    (n_points : nat) : list (list (F R)) :=
  let xs := match axis with 0 => transpose x | _ => x end in
  let st := shift_search n_points xs ssamp in
  let xs := interpolate st xs in
  match axis with
  | 0 => transpose xs
  | _ => xs
  end.

(** [spectrum * G] with the weights broadcast over the batch axis
    ([G[..., np.newaxis]] for a 3D array). *)
Definition mul_weights (spectrum : list (list (F C)))
    (G : list (list R)) : list (list (F C)) :=
  zip_with (zip_with (λ (p : F C) g, bmap (λ z, Cscale z g) p))
           spectrum G.
End pipeline.

(** *** Index expressions of a 2D assignment: [i] or [a:b] *)
Inductive index :=
| At (i : Z)
| Range (a b : Z).

(** Whether position [t] of an axis of length [len] is selected, and at
    which offset of the selection. *)
Definition selects (len : nat) (ix : index) (t : nat) : option nat :=
  match ix with
  | At i =>
      let p := if (i <? 0)%Z then (i + Z.of_nat len)%Z else i in
      if (Z.of_nat t =? p)%Z then Some 0 else None
  | Range a b =>
      if (py_bound len a <=? t) && (t <? py_bound len b)
      then Some (t - py_bound len a) else None
  end.

(** [dst[ix0, ix1] = src], [src i j] being the value for offset (i, j)
    of the selection. *)
Definition assign2 (ix0 ix1 : index) (src : nat → nat → R)
    (dst : list (list R)) : list (list R) :=
  imap (λ i row,
    match selects (length dst) ix0 i with
    | Some i' =>
        imap (λ j v,
          match selects (length row) ix1 j with
          | Some j' => src i' j'
          | None => v
          end) row
    | None => row
    end) dst.

Definition const2 (v : R) : nat → nat → R := λ _ _, v.
Definition from2 (a : list (list R)) : nat → nat → R :=
  λ i j, default 0%R (a !! i ≫= (.!! j)).

Definition zip2 (f : R → R → R) (a b : list (list R)) : list (list R) :=
  zip_with (zip_with f) a b.

Definition _weights (shape : nat * nat) : list (list R) * list (list R) :=
  let G0 := replicate shape.1 (replicate shape.2 0%R) in
  let G1 := replicate shape.1 (replicate shape.2 0%R) in
  let k0 := linspace (- PI) PI shape.1 in
  let k1 := linspace (- PI) PI shape.2 in
  (* Middle points *)
  let k1m := py_slice 1 (Some (-1)%Z) k1 in
  let k0m := py_slice 1 (Some (-1)%Z) k0 in
  let K1 := (λ _ : R, k1m) <$> k0m in
  let K0 := (λ v : R, (λ _ : R, v) <$> k1m) <$> k0m in
  let cosk0 := fmap (M:=list) (fmap (M:=list) (λ t, 1 + cos t)%R) K0 in
  let cosk1 := fmap (M:=list) (fmap (M:=list) (λ t, 1 + cos t)%R) K1 in
  let G1 := assign2 (Range 1 (-1)) (Range 1 (-1))
              (from2 (zip2 Rdiv cosk0 (zip2 Rplus cosk0 cosk1))) G1 in
  let G0 := assign2 (Range 1 (-1)) (Range 1 (-1))
              (from2 (zip2 Rdiv cosk1 (zip2 Rplus cosk0 cosk1))) G0 in
  (* Boundaries *)
  let G1 := assign2 (Range 1 (-1)) (At 0) (const2 1) G1 in
  let G1 := assign2 (Range 1 (-1)) (At (-1)) (const2 1) G1 in
  let G1 := assign2 (At 0) (At 0) (const2 (1 / 2)) G1 in
  let G1 := assign2 (At (-1)) (At (-1)) (const2 (1 / 2)) G1 in
  let G1 := assign2 (At 0) (At (-1)) (const2 (1 / 2)) G1 in
  let G1 := assign2 (At (-1)) (At 0) (const2 (1 / 2)) G1 in
  let G0 := assign2 (At 0) (Range 1 (-1)) (const2 1) G0 in
  let G0 := assign2 (At (-1)) (Range 1 (-1)) (const2 1) G0 in
  let G0 := assign2 (At 0) (At 0) (const2 (1 / 2)) G0 in
  let G0 := assign2 (At (-1)) (At (-1)) (const2 (1 / 2)) G0 in
  let G0 := assign2 (At 0) (At (-1)) (const2 (1 / 2)) G0 in
  let G0 := assign2 (At (-1)) (At 0) (const2 (1 / 2)) G0 in
  (G0, G1).

(** The magnitude that [np.abs(imagec, out=imagec)] leaves in [imagec];
    the dtype of that array is the subject of [Descr]. *)
Definition _gibbs_removal_2d {F : Type → Type} `{Batch F}
    (image : list (list (F R))) (n_points : nat)
    (G0 G1 : option (list (list R))) : list (list (F R)) :=
  let G := match G0, G1 with
           | Some g0, Some g1 => (g0, g1)
           | _, _ => _weights (length image, ncols image)
           end in
  let img_c1 := _gibbs_removal_1d image 1 n_points in
  let img_c0 := _gibbs_removal_1d image 0 n_points in
  let C1 := fft2b (amap of_real img_c1) in
  let C0 := fft2b (amap of_real img_c0) in
  let imagec := mul_weights (fftshift C1) G.2 in
  let imagec := azip Cadd imagec (mul_weights (fftshift C0) G.1) in
  let imagec := ifft2b imagec in
  amap Cabs imagec.

(** *** The volume driver *)

(** [np.swapaxes(vol, a, 2)] for [a] in {0, 1, 2} on an array of rank 3
    or more. *)
Definition swapaxes2 {A} (a : nat) (vol : list (list (list A)))
  : list (list (list A)) :=
  match a with
  | 0 => transpose (transpose <$> transpose vol)
  | 1 => transpose <$> vol
  | _ => vol
  end.

(** Lengths of axes 2 and 3, read off the first pixel. *)
Definition dim2 {A} (vol : list (list (list A))) : nat := ncols (mjoin vol).
Definition dim3 {A} (vol : list (list (list (list A)))) : nat :=
  ncols (mjoin (mjoin vol)).

(** [vol.reshape((s0, s1, s2 * s3))] of a rank-4 array. *)
Definition flatten_trailing {A} (vol : list (list (list (list A))))
  : list (list (list A)) :=
  fmap (M:=list) (fmap (M:=list) (λ p : list (list A), mjoin p)) vol.

(** [vol.reshape((s0, s1, s2, s3))] of a rank-3 array. *)
Definition split_trailing {A} (s2 s3 : nat) (vol : list (list (list A)))
  : list (list (list (list A))) :=
  fmap (M:=list) (fmap (M:=list)
    (λ p : list A, (λ z, take s3 (drop (z * s3) p)) <$> seq 0 s2)) vol.

Inductive volume :=
| Vol2 (a : list (list R))
| Vol3 (a : list (list (list R)))
| Vol4 (a : list (list (list (list R)))).

(** [None] is the [ValueError] for [slice_axis > 2]; the ranks that the
    source rejects are not inhabitants of [volume]. *)
Definition gibbs_removal (vol : volume) (slice_axis n_points : nat)
  : option volume :=
  if 2 <? slice_axis then None
  else match vol with
  | Vol2 a =>
      let G := _weights (length a, ncols a) in
      Some (Vol2 (_gibbs_removal_2d (F:=scalar) a n_points
                    (Some G.1) (Some G.2)))
  | Vol3 a =>
      let a := if slice_axis <? 2 then swapaxes2 slice_axis a else a in
      let G := _weights (length a, ncols a) in
      let r := _gibbs_removal_2d (F:=list) a n_points
                 (Some G.1) (Some G.2) in
      Some (Vol3 (if slice_axis <? 2 then swapaxes2 slice_axis r else r))
  | Vol4 a =>
      let a := if slice_axis <? 2 then swapaxes2 slice_axis a else a in
      let inishap := (dim2 a, dim3 a) in
      let a := flatten_trailing a in
      let G := _weights (length a, ncols a) in
      let r := _gibbs_removal_2d (F:=list) a n_points
                 (Some G.1) (Some G.2) in
      let r := split_trailing inishap.1 inishap.2 r in
      Some (Vol4 (if slice_axis <? 2 then swapaxes2 slice_axis r else r))
  end.

(** [vol[..., g]]: the rank-3 sub-volume of gradient direction [g]. *)
Definition subvolume (g : nat) (vol : list (list (list (list R))))
  : list (list (list R)) :=
  fmap (M:=list) (fmap (M:=list) (fmap (M:=list)
    (λ p : list R, default 0%R (p !! g)))) vol.

End Value.

(** ** The same statements on array descriptors *)

Module Descr.

(** *** NumPy dtypes and their promotion *)

Inductive dtype :=
| Bool
| UInt8 | UInt16 | UInt32 | UInt64
| Int8 | Int16 | Int32 | Int64
| Float16 | Float32 | Float64
| Complex64 | Complex128.

Inductive kind := KBool | KUInt | KInt | KFloat | KComplex.

Definition kind_of (d : dtype) : kind :=
  match d with
  | Bool => KBool
  | UInt8 | UInt16 | UInt32 | UInt64 => KUInt
  | Int8 | Int16 | Int32 | Int64 => KInt
  | Float16 | Float32 | Float64 => KFloat
  | Complex64 | Complex128 => KComplex
  end.

Definition bits_of (d : dtype) : nat :=
  match d with
  | Bool | UInt8 | Int8 => 8
  | UInt16 | Int16 | Float16 => 16
  | UInt32 | Int32 | Float32 => 32
  | UInt64 | Int64 | Float64 | Complex64 => 64
  | Complex128 => 128
  end.

Definition uint_of (bits : nat) : dtype :=
  match bits with 8 => UInt8 | 16 => UInt16 | 32 => UInt32 | _ => UInt64 end.
Definition int_of (bits : nat) : dtype :=
  match bits with 8 => Int8 | 16 => Int16 | 32 => Int32 | _ => Int64 end.
Definition float_of (bits : nat) : dtype :=
  match bits with 16 => Float16 | 32 => Float32 | _ => Float64 end.
Definition complex_of (bits : nat) : dtype :=
  match bits with 64 => Complex64 | _ => Complex128 end.

(** Width of the smallest float that holds every integer of a width. *)
Definition float_for (bits : nat) : nat :=
  match bits with 8 => 16 | 16 => 32 | _ => 64 end.

(** Unsigned of width [u] with signed of width [s]. *)
Definition promote_mixed (u s : nat) : dtype :=
  if u <? s then int_of s else if u <? 64 then int_of (2 * u) else Float64.

(** [np.promote_types]. *)
Definition promote_types (a b : dtype) : dtype :=
  match kind_of a, kind_of b with
  | KBool, _ => b
  | _, KBool => a
  | KUInt, KUInt => uint_of (bits_of a `max` bits_of b)
  | KInt, KInt => int_of (bits_of a `max` bits_of b)
  | KUInt, KInt => promote_mixed (bits_of a) (bits_of b)
  | KInt, KUInt => promote_mixed (bits_of b) (bits_of a)
  | (KUInt | KInt), KFloat => float_of (float_for (bits_of a) `max` bits_of b)
  | KFloat, (KUInt | KInt) => float_of (bits_of a `max` float_for (bits_of b))
  | KFloat, KFloat => float_of (bits_of a `max` bits_of b)
  | (KUInt | KInt), KComplex =>
      complex_of ((2 * float_for (bits_of a)) `max` bits_of b)
  | KComplex, (KUInt | KInt) =>
      complex_of (bits_of a `max` (2 * float_for (bits_of b)))
  | KFloat, KComplex => complex_of ((2 * bits_of a) `max` bits_of b)
  | KComplex, KFloat => complex_of (bits_of a `max` (2 * bits_of b))
  | KComplex, KComplex => complex_of (bits_of a `max` bits_of b)
  end.

Definition kind_rank (k : kind) : nat :=
  match k with KBool => 0 | KUInt => 1 | KInt => 2 | KFloat => 3 | KComplex => 4 end.

(** [np.can_cast(a, b, casting='same_kind')], the rule for the output of
    a ufunc: never down a kind (float to integer, complex to float). *)
Definition can_cast_same_kind (a b : dtype) : bool :=
  kind_rank (kind_of a) <=? kind_rank (kind_of b).

(** Result dtypes of the functions the source calls. *)
Definition abs_type (d : dtype) : dtype :=
  match d with Complex64 => Float32 | Complex128 => Float64 | _ => d end.

Definition float_func_type (d : dtype) : dtype :=
  match kind_of d with
  | KBool | KUInt | KInt => float_of (float_for (bits_of d))
  | _ => d
  end.

(** scipy.fft: half and single precision give complex64, everything else
    complex128. *)
Definition fft_type (d : dtype) : dtype :=
  match d with
  | Float16 | Float32 | Complex64 => Complex64
  | _ => Complex128
  end.

(** An array times a Python complex scalar. *)
Definition times_complex_scalar (d : dtype) : dtype :=
  match kind_of d with
  | KFloat => complex_of (2 * bits_of d)
  | KComplex => d
  | _ => Complex128
  end.

(** An array combined with a Python float scalar. *)
Definition with_float_scalar (d : dtype) : dtype :=
  match kind_of d with
  | KBool | KUInt | KInt => Float64
  | _ => d
  end.

(** *** Exceptions, descriptors, and the store *)

Inductive exn :=
| ValueError
| IndexError
| AxisError
| TypeError
| UFuncTypeError.

Inductive result (A : Type) :=
| Ok (a : A)
| Raise (e : exn).
Arguments Ok {A} a.
Arguments Raise {A} e.

(** What NumPy knows of an array without looking at its elements: dtype,
    shape, the buffer that holds the elements (a view shares the buffer of
    its base), and whether the elements lie contiguously in it. *)
Record ndarray := NDArray {
  dt : dtype;
  shape : list nat;
  buf : nat;
  contig : bool;
}.

Definition ndim (a : ndarray) : nat := length (shape a).

(** The store: the next free buffer, and the buffers written in place so
    far, latest first. *)
Record heap := Heap {
  next : nat;
  writes : list nat;
}.

Definition M (A : Type) : Type := heap → result A * heap.

Definition ret {A} (a : A) : M A := λ h, (Ok a, h).
Definition raise {A} (e : exn) : M A := λ h, (Raise e, h).
Definition bind {A B} (m : M A) (f : A → M B) : M B :=
  λ h, match m h with
       | (Ok a, h') => f a h'
       | (Raise e, h') => (Raise e, h')
       end.

Notation "x <- m ;; k" := (bind m (λ x, k))
  (at level 100, m at next level, right associativity).

Definition guard (c : bool) (e : exn) : M unit :=
  if c then ret tt else raise e.

Definition from_option {A} (o : option A) (e : exn) : M A :=
  match o with Some a => ret a | None => raise e end.

Definition from_result {A} (r : result A) : M A := λ h, (r, h).

(** A new array in a buffer of its own. *)
Definition alloc (d : dtype) (s : list nat) : M ndarray :=
  λ h, (Ok {| dt := d; shape := s; buf := next h; contig := true |},
        {| next := S (next h); writes := writes h |}).

(** An in-place update of the buffer behind [a]. *)
Definition write (a : ndarray) : M unit :=
  λ h, (Ok tt, {| next := next h; writes := buf a :: writes h |}).

(** [for x in l: body(x)]. *)
Fixpoint mfor {A} (l : list A) (body : A → M unit) : M unit :=
  match l with
  | [] => ret tt
  | x :: l' => _ <- body x ;; mfor l' body
  end.

(** *** Shapes *)

(** One axis of NumPy's broadcasting. *)
Definition broadcast_dim (x y : nat) : option nat :=
  if x =? y then Some x
  else if x =? 1 then Some y
  else if y =? 1 then Some x
  else None.

Fixpoint broadcast_aligned (s1 s2 : list nat) : option (list nat) :=
  match s1, s2 with
  | x :: s1', y :: s2' =>
      d ← broadcast_dim x y; s ← broadcast_aligned s1' s2'; Some (d :: s)
  | _, _ => Some []
  end.

(** The broadcast of two shapes, the shorter one padded with 1 on the
    left; [None] when they do not broadcast. *)
Definition broadcast (s1 s2 : list nat) : option (list nat) :=
  let n := length s1 `max` length s2 in
  broadcast_aligned (replicate (n - length s1) 1 ++ s1)
                    (replicate (n - length s2) 1 ++ s2).

Definition shape_eqb (s1 s2 : list nat) : bool := bool_decide (s1 = s2).

(** Length of [a:b] on an axis of length [len]. *)
Definition slice_len (len : nat) (start : Z) (stop : option Z) : nat :=
  match stop with
  | Some e => py_bound len e - py_bound len start
  | None => len - py_bound len start
  end.

(** A view: another descriptor on the same buffer. *)
Definition view (a : ndarray) (s : list nat) : ndarray :=
  {| dt := dt a; shape := s; buf := buf a; contig := false |}.

(** *** The NumPy and SciPy calls of the source *)

Definition copy (a : ndarray) : M ndarray := alloc (dt a) (shape a).

(** [x.transpose((1, 0) + tuple(range(2, x.ndim)))]. *)
Definition transpose10 (a : ndarray) : M ndarray :=
  match shape a with
  | s0 :: s1 :: rest => ret (view a (s1 :: s0 :: rest))
  | _ => raise ValueError
  end.

(** [a[:, start:stop, ...]]. *)
Definition slice1 (a : ndarray) (start : Z) (stop : option Z) : M ndarray :=
  match shape a with
  | s0 :: s1 :: rest => ret (view a (s0 :: slice_len s1 start stop :: rest))
  | _ => raise IndexError
  end.

(** [a[start:stop]] of a 1-D array. *)
Definition slice0 (a : ndarray) (start : Z) (stop : option Z) : M ndarray :=
  match shape a with
  | s0 :: rest => ret (view a (slice_len s0 start stop :: rest))
  | _ => raise IndexError
  end.

(** [np.concatenate((a, b, c), axis=1)]. *)
Definition concatenate1 (a b c : ndarray) : M ndarray :=
  match shape a, shape b, shape c with
  | a0 :: a1 :: ra, b0 :: b1 :: rb, c0 :: c1 :: rc =>
      _ <- guard (shape_eqb (a0 :: ra) (b0 :: rb)
                  && shape_eqb (a0 :: ra) (c0 :: rc)) ValueError ;;
      alloc (promote_types (promote_types (dt a) (dt b)) (dt c))
            (a0 :: (a1 + b1 + c1) :: ra)
  | _, _, _ => raise AxisError
  end.

(** A binary ufunc whose result dtype is [ty]. *)
Definition ufunc2 (ty : dtype → dtype → result dtype) (a b : ndarray)
  : M ndarray :=
  d <- from_result (ty (dt a) (dt b)) ;;
  s <- from_option (broadcast (shape a) (shape b)) ValueError ;;
  alloc d s.

(** The same with the result stored into the first operand
    ([a op= b], or [out=a]). *)
Definition ufunc2_inplace (ty : dtype → dtype → result dtype)
    (a b : ndarray) : M unit :=
  d <- from_result (ty (dt a) (dt b)) ;;
  _ <- guard (can_cast_same_kind d (dt a)) UFuncTypeError ;;
  s <- from_option (broadcast (shape a) (shape b)) ValueError ;;
  _ <- guard (shape_eqb s (shape a)) ValueError ;;
  write a.

Definition arith_type (a b : dtype) : result dtype := Ok (promote_types a b).

(** NumPy has no subtraction of booleans. *)
Definition subtract_type (a b : dtype) : result dtype :=
  match a, b with
  | Bool, Bool => Raise TypeError
  | _, _ => Ok (promote_types a b)
  end.

Definition divide_type (a b : dtype) : result dtype :=
  Ok (with_float_scalar (promote_types a b)).

Definition compare_type (a b : dtype) : result dtype := Ok Bool.

Definition subtract := ufunc2 subtract_type.
Definition add := ufunc2 arith_type.
Definition multiply := ufunc2 arith_type.
Definition minimum := ufunc2 arith_type.
Definition divide := ufunc2 divide_type.
Definition greater := ufunc2 compare_type.
Definition iadd := ufunc2_inplace arith_type.
Definition imul := ufunc2_inplace arith_type.
Definition idiv := ufunc2_inplace divide_type.

(** [np.abs(a)] and [np.abs(a, out=out)]. *)
Definition absolute (a : ndarray) : M ndarray :=
  alloc (abs_type (dt a)) (shape a).

Definition absolute_out (a out : ndarray) : M unit :=
  _ <- guard (can_cast_same_kind (abs_type (dt a)) (dt out)) UFuncTypeError ;;
  s <- from_option (broadcast (shape a) (shape out)) ValueError ;;
  _ <- guard (shape_eqb s (shape out)) ValueError ;;
  write out.

(** [np.cos], [np.exp], [np.conj]. *)
Definition float_func (a : ndarray) : M ndarray :=
  alloc (float_func_type (dt a)) (shape a).
Definition conj (a : ndarray) : M ndarray := alloc (dt a) (shape a).

(** An array combined with a Python or NumPy scalar. *)
Definition with_scalar (ty : dtype → dtype) (a : ndarray) : M ndarray :=
  alloc (ty (dt a)) (shape a).

(** [fft2(a, axes=(0, 1))] and [ifft2]: both axes must exist and hold at
    least one sample. *)
Definition fft2 (a : ndarray) : M ndarray :=
  match shape a with
  | s0 :: s1 :: rest =>
      _ <- guard ((0 <? s0) && (0 <? s1)) ValueError ;;
      alloc (fft_type (dt a)) (shape a)
  | _ => raise ValueError
  end.

Definition ifft2 (a : ndarray) : M ndarray := fft2 a.

(** [fftshift(a, axes=(0, 1))]. *)
Definition fftshift (a : ndarray) : M ndarray :=
  _ <- guard (2 <=? ndim a) AxisError ;;
  alloc (dt a) (shape a).

Definition linspace (num : nat) (d : dtype) : M ndarray := alloc d [num].
Definition zeros (s : list nat) (d : dtype) : M ndarray := alloc d s.

(** [dst[mask] = src[mask]] for a boolean [mask]: both sides must have the
    shape of the mask in their leading axes. *)
Definition mask_matches (mask a : ndarray) : bool :=
  shape_eqb (take (ndim mask) (shape a)) (shape mask)
  && (ndim mask <=? ndim a).

Section selection.
(** How many elements a boolean mask, or np.nonzero of an array, selects
    is a property of the elements; the descriptor semantics takes it from
    [selected], by the buffer of the mask. *)
Variable selected : nat → nat.

Definition mask_get (src mask : ndarray) : M ndarray :=
  _ <- guard (mask_matches mask src) IndexError ;;
  alloc (dt src) (selected (buf mask) :: drop (ndim mask) (shape src)).

Definition mask_set (dst mask : ndarray) (src : option ndarray) : M unit :=
  _ <- guard (mask_matches mask dst) IndexError ;;
  let target := selected (buf mask) :: drop (ndim mask) (shape dst) in
  _ <- match src with
       | Some v =>
           s <- from_option (broadcast target (shape v)) ValueError ;;
           guard (shape_eqb s target) ValueError
       | None => ret tt
       end ;;
  write dst.

(** [idx = np.nonzero(a)]: one index array per axis of [a]; kept as the
    number of axes and the number of hits. *)
Definition nonzero (a : ndarray) : M (nat * nat) :=
  _ <- alloc Int64 [ndim a; selected (buf a)] ;;
  ret (ndim a, selected (buf a)).

(** [a[idx]] and [a[idx] = v]. *)
Definition take_idx (a : ndarray) (idx : nat * nat) : M ndarray :=
  _ <- guard (idx.1 <=? ndim a) IndexError ;;
  alloc (dt a) (idx.2 :: drop idx.1 (shape a)).

Definition put_idx (a : ndarray) (idx : nat * nat) (v : ndarray) : M unit :=
  _ <- guard (idx.1 <=? ndim a) IndexError ;;
  let target := idx.2 :: drop idx.1 (shape a) in
  s <- from_option (broadcast target (shape v)) ValueError ;;
  _ <- guard (shape_eqb s target) ValueError ;;
  write a.

(** *** [_image_tv] *)

Definition tv_step (n_points : nat) (xs ptv ntv : ndarray) (n : nat)
  : M unit :=
  let np := Z.of_nat n_points in
  let k := Z.of_nat n in
  a <- slice1 xs (np + 1 + k)%Z (Some (- np - 1 + k)%Z) ;;
  b <- slice1 xs (np + 2 + k)%Z (Some (- np + k)%Z) ;;
  d <- subtract a b ;;
  t <- absolute d ;;
  _ <- iadd ptv t ;;
  a <- slice1 xs (np + 1 - k)%Z (Some (- np - 1 - k)%Z) ;;
  b <- slice1 xs (np - k)%Z (Some (- np - 2 - k)%Z) ;;
  d <- subtract a b ;;
  t <- absolute d ;;
  iadd ntv t.

Definition _image_tv (x : ndarray) (axis : nat) (n_points : nat)
  : M (ndarray * ndarray) :=
  let np := Z.of_nat n_points in
  xs <- match axis with 0 => transpose10 x | _ => ret x end ;;
  left <- slice1 xs (- np - 1)%Z None ;;
  right <- slice1 xs 0 (Some (np + 1)%Z) ;;
  xs <- concatenate1 left xs right ;;
  a <- slice1 xs (np + 1)%Z (Some (- np - 1)%Z) ;;
  b <- slice1 xs (np + 2)%Z (Some (- np)%Z) ;;
  d <- subtract a b ;;
  ptv <- absolute d ;;
  a <- slice1 xs (np + 1)%Z (Some (- np - 1)%Z) ;;
  b <- slice1 xs np (Some (- np - 2)%Z) ;;
  d <- subtract a b ;;
  ntv <- absolute d ;;
  _ <- mfor (py_range 1 n_points) (tv_step n_points xs ptv ntv) ;;
  match axis with
  | 0 =>
      ptv <- transpose10 ptv ;;
      ntv <- transpose10 ntv ;;
      ret (ptv, ntv)
  | _ => ret (ptv, ntv)
  end.

(** *** [_gibbs_removal_1d] *)

(** [np.abs(ifft2(fftshift(c * eks)))]. *)
Definition shifted_image (c eks : ndarray) : M ndarray :=
  img <- multiply c eks ;;
  img <- fftshift img ;;
  img <- ifft2 img ;;
  absolute img.

(** The body of [for s in ssamp]. *)
Definition search_step (n_points : nat) (c k : ndarray)
    (isp sp tvp isn sn tvn : ndarray) (s : nat) : M unit :=
  ks <- with_scalar (λ d, d) k ;;
  eks <- float_func ks ;;
  img_p <- shifted_image c eks ;;
  tvs <- _image_tv img_p 1 n_points ;;
  tvs_p <- minimum tvs.1 tvs.2 ;;
  ceks <- conj eks ;;
  img_n <- shifted_image c ceks ;;
  tvs <- _image_tv img_n 1 n_points ;;
  tvs_n <- minimum tvs.1 tvs.2 ;;
  maskp <- greater tvp tvs_p ;;
  maskn <- greater tvn tvs_n ;;
  v <- mask_get img_p maskp ;;
  _ <- mask_set isp maskp (Some v) ;;
  _ <- mask_set sp maskp None ;;
  v <- mask_get tvs_p maskp ;;
  _ <- mask_set tvp maskp (Some v) ;;
  v <- mask_get img_n maskn ;;
  _ <- mask_set isn maskn (Some v) ;;
  _ <- mask_set sn maskn None ;;
  v <- mask_get tvs_n maskn ;;
  mask_set tvn maskn (Some v).

Definition _gibbs_removal_1d (x : ndarray) (axis : nat) (n_points : nat)
  : M ndarray :=
  let float_dtype := promote_types (dt x) Float32 in
  ssamp <- linspace 45 float_dtype ;;
  xs <- match axis with
        | 0 => t <- transpose10 x ;; copy t
        | _ => copy x
        end ;;
  tv <- _image_tv xs 1 n_points ;;
  tvp <- minimum tv.1 tv.2 ;;
  tvn <- copy tvp ;;
  isp <- copy xs ;;
  isn <- copy xs ;;
  sp <- zeros (shape xs) float_dtype ;;
  sn <- zeros (shape xs) float_dtype ;;
  N <- from_option (shape xs !! 1) IndexError ;;
  c <- fft2 xs ;;
  c <- fftshift c ;;
  k <- linspace N float_dtype ;;
  k <- with_scalar times_complex_scalar k ;;
  k <- with_scalar (λ d, d) k ;;
  let k := if ndim xs =? 2 then view k [1; N]
           else if ndim xs =? 3 then view k [1; N; 1]
           else k in
  _ <- mfor (seq 0 45) (search_step n_points c k isp sp tvp isn sn tvn) ;;
  (* check non-zero sub-voxel shifts *)
  t <- add sp sn ;;
  idx <- nonzero t ;;
  sn_i <- take_idx sn idx ;;
  isn_i <- take_idx isn idx ;;
  isp_i <- take_idx isp idx ;;
  tmp <- subtract isp_i isn_i ;;
  sp_i <- take_idx sp idx ;;
  den <- add sp_i sn_i ;;
  _ <- idiv tmp den ;;
  _ <- imul tmp sn_i ;;
  _ <- iadd tmp isn_i ;;
  _ <- put_idx xs idx tmp ;;
  match axis with
  | 0 => transpose10 xs
  | _ => ret xs
  end.

(** *** [_weights] *)

(** The shape an index expression selects, or the IndexError of an
    integer index out of bounds. *)
Fixpoint selection (s : list nat) (ixs : list Value.index)
  : result (list nat) :=
  match ixs, s with
  | [], _ => Ok s
  | _ :: _, [] => Raise IndexError
  | Value.At i :: ixs', d :: s' =>
      if ((- Z.of_nat d <=? i) && (i <? Z.of_nat d))%Z
      then selection s' ixs' else Raise IndexError
  | Value.Range a b :: ixs', d :: s' =>
      match selection s' ixs' with
      | Ok r => Ok (slice_len d a (Some b) :: r)
      | Raise e => Raise e
      end
  end.

(** [a[ixs] = v]; [v = None] is a scalar. *)
Definition setitem (a : ndarray) (ixs : list Value.index)
    (v : option ndarray) : M unit :=
  target <- from_result (selection (shape a) ixs) ;;
  _ <- match v with
       | Some src =>
           s <- from_option (broadcast target (shape src)) ValueError ;;
           guard (shape_eqb s target) ValueError
       | None => ret tt
       end ;;
  write a.

Definition _weights (shape : list nat) (image_dtype : dtype)
  : M (ndarray * ndarray) :=
  let dtype := promote_types Float32 image_dtype in
  G0 <- zeros shape dtype ;;
  G1 <- zeros shape dtype ;;
  n0 <- from_option (shape !! 0) IndexError ;;
  k0 <- linspace n0 dtype ;;
  n1 <- from_option (shape !! 1) IndexError ;;
  k1 <- linspace n1 dtype ;;
  (* Middle points *)
  k1m <- slice0 k1 1 (Some (-1)%Z) ;;
  k0m <- slice0 k0 1 (Some (-1)%Z) ;;
  K1 <- alloc dtype (Descr.shape k0m ++ Descr.shape k1m) ;;
  K0 <- alloc dtype (Descr.shape k0m ++ Descr.shape k1m) ;;
  c <- float_func K0 ;;
  cosk0 <- with_scalar with_float_scalar c ;;
  c <- float_func K1 ;;
  cosk1 <- with_scalar with_float_scalar c ;;
  den <- add cosk0 cosk1 ;;
  q <- divide cosk0 den ;;
  _ <- setitem G1 [Value.Range 1 (-1); Value.Range 1 (-1)] (Some q) ;;
  den <- add cosk0 cosk1 ;;
  q <- divide cosk1 den ;;
  _ <- setitem G0 [Value.Range 1 (-1); Value.Range 1 (-1)] (Some q) ;;
  (* Boundaries *)
  _ <- setitem G1 [Value.Range 1 (-1); Value.At 0] None ;;
  _ <- setitem G1 [Value.Range 1 (-1); Value.At (-1)] None ;;
  _ <- setitem G1 [Value.At 0; Value.At 0] None ;;
  _ <- setitem G1 [Value.At (-1); Value.At (-1)] None ;;
  _ <- setitem G1 [Value.At 0; Value.At (-1)] None ;;
  _ <- setitem G1 [Value.At (-1); Value.At 0] None ;;
  _ <- setitem G0 [Value.At 0; Value.Range 1 (-1)] None ;;
  _ <- setitem G0 [Value.At (-1); Value.Range 1 (-1)] None ;;
  _ <- setitem G0 [Value.At 0; Value.At 0] None ;;
  _ <- setitem G0 [Value.At (-1); Value.At (-1)] None ;;
  _ <- setitem G0 [Value.At 0; Value.At (-1)] None ;;
  _ <- setitem G0 [Value.At (-1); Value.At 0] None ;;
  ret (G0, G1).

(** [G[..., np.newaxis]]. *)
Definition newaxis_last (a : ndarray) : ndarray := view a (shape a ++ [1]).

(** *** [_gibbs_removal_2d] *)

Definition _gibbs_removal_2d (image : ndarray) (n_points : nat)
    (G0 G1 : option ndarray) : M ndarray :=
  G <- match G0, G1 with
       | Some g0, Some g1 => ret (g0, g1)
       | _, _ =>
           G <- _weights (take 2 (shape image)) (dt image) ;;
           if 2 <? ndim image
           then ret (newaxis_last G.1, newaxis_last G.2)
           else ret G
       end ;;
  _ <- guard ((ndim image =? 2) || (ndim image =? 3)) ValueError ;;
  img_c1 <- _gibbs_removal_1d image 1 n_points ;;
  img_c0 <- _gibbs_removal_1d image 0 n_points ;;
  C1 <- fft2 img_c1 ;;
  C0 <- fft2 img_c0 ;;
  s <- fftshift C1 ;;
  imagec <- multiply s G.2 ;;
  s <- fftshift C0 ;;
  t <- multiply s G.1 ;;
  _ <- iadd imagec t ;;
  imagec <- ifft2 imagec ;;
  _ <- absolute_out imagec imagec ;;
  ret imagec.

(** *** [gibbs_removal] *)

(** An axis number as NumPy normalises it, or AxisError. *)
Definition normalize_axis (nd : nat) (ax : Z) : result nat :=
  if ((- Z.of_nat nd <=? ax) && (ax <? Z.of_nat nd))%Z
  then Ok (Z.to_nat (ax mod Z.of_nat nd))
  else Raise AxisError.

(** The shape with two axes exchanged. *)
Definition swap_shape (s : list nat) (ax1 ax2 : Z) : result (list nat) :=
  match normalize_axis (length s) ax1, normalize_axis (length s) ax2 with
  | Ok i, Ok j =>
      match s !! i, s !! j with
      | Some si, Some sj => Ok (<[i := sj]> (<[j := si]> s))
      | _, _ => Raise AxisError
      end
  | Raise e, _ => Raise e
  | _, Raise e => Raise e
  end.

(** [np.swapaxes(a, ax1, ax2)]: a view. *)
Definition swapaxes (a : ndarray) (ax1 ax2 : Z) : M ndarray :=
  s <- from_result (swap_shape (shape a) ax1 ax2) ;;
  ret (view a s).

Definition size (s : list nat) : nat := foldr Nat.mul 1 s.

(** [a.reshape(s)]: a view of a contiguous array.  A non-contiguous array
    (here the result of [np.swapaxes]) is copied by NumPy unless its
    strides happen to fit the new shape; the descriptor takes the copy. *)
Definition reshape (a : ndarray) (s : list nat) : M ndarray :=
  _ <- guard (size s =? size (shape a)) ValueError ;;
  if contig a
  then ret {| dt := dt a; shape := s; buf := buf a; contig := true |}
  else alloc (dt a) s.

Definition gibbs_removal (vol : ndarray) (slice_axis : Z) (n_points : nat)
  : M ndarray :=
  let nd := ndim vol in
  (* check the axis corresponding to different slices *)
  vol <- (if (2 <? slice_axis)%Z then raise ValueError
          else if (slice_axis <? 2)%Z && (2 <? nd)
               then swapaxes vol slice_axis 2
               else ret vol) ;;
  (* check matrix dimension *)
  let inishap := shape vol in
  vol <- (if nd =? 4
          then match inishap with
               | [s0; s1; s2; s3] => reshape vol [s0; s1; s2 * s3]
               | _ => raise IndexError
               end
          else if 4 <? nd then raise ValueError
          else if nd <? 2 then raise ValueError
          else ret vol) ;;
  (* Produce weigthing functions for 2D Gibbs removal *)
  let shap := shape vol in
  G <- _weights (take 2 shap) (dt vol) ;;
  (* Run Gibbs removal of 2D images *)
  let G0 := if 2 <? nd then newaxis_last G.1 else G.1 in
  let G1 := if 2 <? nd then newaxis_last G.2 else G.2 in
  vol <- _gibbs_removal_2d vol n_points (Some G0) (Some G1) ;;
  (* Reshape data to original format *)
  vol <- (if nd =? 4 then reshape vol inishap else ret vol) ;;
  if (slice_axis <? 2)%Z && (2 <? nd)
  then swapaxes vol slice_axis 2
  else ret vol.

End selection.

(** The store before a call: [n] buffers allocated, nothing written yet. *)
Definition fresh_heap (n : nat) : heap := {| next := n; writes := [] |}.

End Descr.

(** * Properties *)

(** A transform of 2D arrays that keeps the shape of its argument. *)
Definition keeps_shape {A B} (f : list (list A) → list (list B)) : Prop :=
  ∀ y m1, Forall (λ r, length r = m1) y →
    length (f y) = length y ∧ Forall (λ r, length r = m1) (f y).

(** What the two instances have to satisfy for the index-wise reasoning. *)
Class BatchLaws (F : Type → Type) `{Batch F} := {
  bget_bmap : ∀ A B (f : A → B) (p : F A) b,
    bget (bmap f p) b = f <$> bget p b;
  bget_bzip : ∀ A B C (f : A → B → C) (p : F A) (q : F B) b,
    bget (bzip f p q) b = bget p b ≫= λ u, bget q b ≫= λ v, Some (f u v);
  bget_lt : ∀ A (p : F A) b, is_Some (bget p b) ↔ b < blen p;
  blen_bmap : ∀ A B (f : A → B) (p : F A), blen (bmap f p) = blen p;
  blen_bzip : ∀ A B C (f : A → B → C) (p : F A) (q : F B),
    blen (bzip f p q) = blen p `min` blen q;
  bslices_shape : ∀ A B (da : A) (db : B) f (x : list (list (F A))) n0 n1 nb,
    keeps_shape f → has_shape n0 n1 nb x →
    has_shape n0 n1 nb (bslices da db f x);
}.

#[export] Instance scalar_laws : BatchLaws scalar.
Proof.
  split; simpl.
  - by intros A B f p [|b].
  - by intros A B C f p q [|b].
  - intros A p [|b]; split; intros Hb; try lia; try (by eexists).
    by destruct Hb.
  - done.
  - done.
  - intros A B _ _ f x n0 n1 nb Hf [Hl Hx].
    assert (Forall (λ r : list A, length r = n1) x) as Hrect
      by (eapply Forall_impl; [exact Hx|]; by intros ? [? _]).
    destruct (Hf x n1 Hrect) as [Hlen Hrows].
    unfold has_shape. simpl. unfold scalar in *.
    split; [by rewrite Hlen|].
    destruct x as [|row x]; simpl in *.
    { destruct (f []); [constructor|done]. }
    apply Forall_cons in Hx as [[Hrow Hpix] _].
    destruct row as [|p row]; simpl in *.
    + subst n1. eapply Forall_impl; [exact Hrows|]. simpl.
      intros r Hr. split; [done|].
      apply length_zero_iff_nil in Hr. subst r. constructor.
    + apply Forall_cons in Hpix as [Hnb _].
      eapply Forall_impl; [exact Hrows|]. simpl.
      intros r Hr. split; [done|]. by apply Forall_forall.
Qed.

#[export] Instance list_laws : BatchLaws list.
Proof.
  split; simpl.
  - intros. apply list_lookup_fmap.
  - intros. apply lookup_zip_with.
  - intros. apply lookup_lt_is_Some.
  - intros. apply length_fmap.
  - intros. apply length_zip_with.
  - intros A B da db f x n0 n1 nb _ [Hl Hx].
    split; [by rewrite length_imap|].
    apply Forall_lookup. intros i row. rewrite list_lookup_imap.
    destruct (x !! i) as [r|] eqn:Hi; simpl; [|done].
    intros [= <-]. rewrite Forall_lookup in Hx.
    destruct (Hx i r Hi) as [Hlen Hp].
    split; [by rewrite length_imap|].
    apply Forall_lookup. intros j p. rewrite list_lookup_imap.
    destruct (r !! j) as [q|] eqn:Hj; simpl; [|done].
    intros [= <-]. rewrite length_imap.
    rewrite Forall_lookup in Hp. eauto.
Qed.

(** ** Lists and Python slices *)

Lemma sum_upto_S f n : sum_upto f (S n) = (sum_upto f n + f n)%R.
Proof. done. Qed.

Lemma py_bound_nonneg len (i : Z) :
  (0 ≤ i)%Z → py_bound len i = Z.to_nat i `min` len.
Proof.
  intros Hi. unfold py_bound.
  destruct (Z.ltb_spec i 0); lia.
Qed.

Lemma py_bound_neg len (i : Z) :
  (i < 0)%Z → py_bound len i = len - Z.to_nat (- i).
Proof.
  intros Hi. unfold py_bound.
  destruct (Z.ltb_spec i 0); lia.
Qed.

Lemma py_bound_le len i : py_bound len i ≤ len.
Proof. unfold py_bound. destruct (Z.ltb_spec i 0); lia. Qed.

Lemma length_py_slice {A} (l : list A) s e :
  length (py_slice s (Some e) l) = py_bound (length l) e - py_bound (length l) s.
Proof.
  unfold py_slice. rewrite length_take, length_drop.
  pose proof (py_bound_le (length l) e). lia.
Qed.

Lemma lookup_py_slice {A} (l : list A) s e j :
  py_slice s (Some e) l !! j =
  if decide (j < py_bound (length l) e - py_bound (length l) s)
  then l !! (py_bound (length l) s + j) else None.
Proof.
  unfold py_slice. rewrite lookup_take. case_decide; [|done].
  by rewrite lookup_drop.
Qed.

Lemma lookup_py_slice_open {A} (l : list A) s j :
  py_slice s None l !! j = l !! (py_bound (length l) s + j).
Proof.
  unfold py_slice. rewrite lookup_take. case_decide as Hj.
  - by rewrite lookup_drop.
  - symmetry. apply lookup_ge_None. pose proof (py_bound_le (length l) s). lia.
Qed.

Lemma length_py_slice_open {A} (l : list A) s :
  length (py_slice s None l) = length l - py_bound (length l) s.
Proof. unfold py_slice. rewrite length_take, length_drop. lia. Qed.

Lemma wrap_lt len z : 0 < len → wrap len z < len.
Proof.
  intros Hl. unfold wrap.
  pose proof (Z.mod_pos_bound z (Z.of_nat len)). lia.
Qed.

Lemma wrap_small len z : (0 ≤ z < Z.of_nat len)%Z → wrap len z = Z.to_nat z.
Proof. intros Hz. unfold wrap. by rewrite Z.mod_small. Qed.

Lemma wrap_plus len z : 0 < len → wrap len (z + Z.of_nat len) = wrap len z.
Proof.
  intros Hl. unfold wrap. f_equal.
  rewrite <-(Z.mul_1_l (Z.of_nat len)) at 1.
  rewrite Z.mod_add; [done | lia].
Qed.

Lemma wrap_minus len z : 0 < len → wrap len (z - Z.of_nat len) = wrap len z.
Proof.
  intros Hl. rewrite <-(wrap_plus len (z - Z.of_nat len)) by done.
  f_equal. lia.
Qed.

(** The row that [_image_tv] builds by concatenation is the periodic
    extension of the original row. *)
Lemma lookup_padded {A} (row : list A) (n t : nat) :
  n + 1 ≤ length row →
  t < length row + 2 * (n + 1) →
  (py_slice (- Z.of_nat n - 1) None row ++ row
     ++ py_slice 0 (Some (Z.of_nat n + 1)%Z) row) !! t
  = row !! wrap (length row) (Z.of_nat t - (Z.of_nat n + 1)).
Proof.
  intros Hn Ht. set (len := length row).
  assert (py_bound len (- Z.of_nat n - 1) = len - (n + 1)) as Ha
    by (rewrite py_bound_neg; lia).
  assert (length (py_slice (- Z.of_nat n - 1) None row) = n + 1) as Hl1
    by (rewrite length_py_slice_open; fold len; lia).
  destruct (decide (t < n + 1)) as [H1|H1].
  - rewrite lookup_app_l by lia. rewrite lookup_py_slice_open. fold len.
    rewrite Ha. f_equal.
    rewrite <-wrap_plus by lia. rewrite wrap_small by lia. lia.
  - rewrite lookup_app_r by lia. rewrite Hl1.
    destruct (decide (t - (n + 1) < len)) as [H2|H2].
    + rewrite lookup_app_l by (fold len; lia). f_equal.
      rewrite wrap_small by lia. lia.
    + rewrite lookup_app_r by (fold len; lia). fold len.
      rewrite lookup_py_slice. fold len.
      rewrite !py_bound_nonneg by lia.
      rewrite decide_True by lia. f_equal.
      rewrite <-wrap_minus by lia. rewrite wrap_small by lia. lia.
Qed.

Lemma length_padded {A} (row : list A) (n : nat) :
  n + 1 ≤ length row →
  length (py_slice (- Z.of_nat n - 1) None row ++ row
            ++ py_slice 0 (Some (Z.of_nat n + 1)%Z) row)
  = length row + 2 * (n + 1).
Proof.
  intros Hn. rewrite !length_app, length_py_slice_open, length_py_slice.
  rewrite py_bound_neg by lia. rewrite !py_bound_nonneg by lia. lia.
Qed.

(** ** Arrays of pixels *)

Section array_facts.
Context {F : Type → Type} `{BatchLaws F}.

Lemma has_shape_lookup {A} n0 n1 nb (x : list (list (F A))) :
  has_shape n0 n1 nb x ↔
  length x = n0 ∧
  ∀ i row, x !! i = Some row →
    length row = n1 ∧ ∀ j p, row !! j = Some p → blen p = nb.
Proof.
  unfold has_shape. rewrite Forall_lookup.
  split; intros [Hl Hr]; (split; [done|]); intros i row Hi;
    destruct (Hr i row Hi) as [Hrow Hp]; (split; [done|]).
  - by apply Forall_lookup.
  - by apply Forall_lookup.
Qed.

Lemma aget_amap {A B} (f : A → B) (x : list (list (F A))) i j b :
  aget (amap f x) i j b = f <$> aget x i j b.
Proof.
  unfold aget, amap. rewrite list_lookup_fmap.
  destruct (x !! i) as [row|]; simpl; [|done].
  rewrite list_lookup_fmap. destruct (row !! j) as [p|]; simpl; [|done].
  apply bget_bmap.
Qed.

Lemma aget_azip {A B C} (f : A → B → C)
    (x : list (list (F A))) (y : list (list (F B))) i j b :
  aget (azip f x y) i j b =
  aget x i j b ≫= λ u, aget y i j b ≫= λ v, Some (f u v).
Proof.
  unfold aget, azip. rewrite lookup_zip_with.
  destruct (x !! i) as [r|]; simpl; [|done].
  destruct (y !! i) as [r'|]; simpl.
  - rewrite lookup_zip_with.
    destruct (r !! j) as [p|]; simpl; [|done].
    destruct (r' !! j) as [q|]; simpl.
    + apply bget_bzip.
    + by destruct (bget p b).
  - destruct (r !! j) as [p|]; simpl; [|done]. by destruct (bget p b).
Qed.

Lemma aget_cols {A} s e (xs : list (list (F A))) n0 m nb i j b :
  has_shape n0 m nb xs →
  aget (cols s (Some e) xs) i j b =
  if decide (j < py_bound m e - py_bound m s)
  then aget xs i (py_bound m s + j) b else None.
Proof.
  intros [_ Hs]%has_shape_lookup. unfold aget, cols.
  rewrite list_lookup_fmap.
  destruct (xs !! i) as [row|] eqn:Hi; simpl; [|by case_decide].
  destruct (Hs i row Hi) as [<- _].
  rewrite lookup_py_slice. by case_decide.
Qed.

Lemma aget_Some {A} n0 n1 nb (x : list (list (F A))) i j b :
  has_shape n0 n1 nb x → i < n0 → j < n1 → b < nb →
  is_Some (aget x i j b).
Proof.
  intros [Hl Hs]%has_shape_lookup Hi Hj Hb. unfold aget.
  destruct (lookup_lt_is_Some_2 x i) as [row Hrow]; [lia|].
  rewrite Hrow. destruct (Hs i row Hrow) as [Hlen Hp].
  destruct (lookup_lt_is_Some_2 row j) as [p Hpx]; [lia|].
  rewrite Hpx. apply bget_lt. by rewrite (Hp j p Hpx).
Qed.

Lemma has_shape_amap {A B} (f : A → B) n0 n1 nb (x : list (list (F A))) :
  has_shape n0 n1 nb x → has_shape n0 n1 nb (amap f x).
Proof.
  rewrite !has_shape_lookup. intros [Hl Hs]. unfold amap.
  split; [by rewrite length_fmap|].
  intros i row. rewrite list_lookup_fmap.
  destruct (x !! i) as [r|] eqn:Hi; simpl; [|done].
  intros [= <-]. destruct (Hs i r Hi) as [Hlen Hp].
  split; [by rewrite length_fmap|].
  intros j p. rewrite list_lookup_fmap.
  destruct (r !! j) as [q|] eqn:Hj; simpl; [|done].
  intros [= <-]. rewrite blen_bmap. eauto.
Qed.

Lemma has_shape_azip {A B C} (f : A → B → C) n0 n1 nb
    (x : list (list (F A))) (y : list (list (F B))) :
  has_shape n0 n1 nb x → has_shape n0 n1 nb y →
  has_shape n0 n1 nb (azip f x y).
Proof.
  rewrite !has_shape_lookup. intros [Hl Hs] [Hl' Hs']. unfold azip.
  split; [rewrite length_zip_with; lia|].
  intros i row. rewrite lookup_zip_with.
  destruct (x !! i) as [r|] eqn:Hi; simpl; [|done].
  destruct (y !! i) as [r'|] eqn:Hi'; simpl; [|done].
  intros [= <-]. destruct (Hs i r Hi) as [Hlen Hp].
  destruct (Hs' i r' Hi') as [Hlen' Hp'].
  split; [rewrite length_zip_with; lia|].
  intros j p. rewrite lookup_zip_with.
  destruct (r !! j) as [q|] eqn:Hj; simpl; [|done].
  destruct (r' !! j) as [q'|] eqn:Hj'; simpl; [|done].
  intros [= <-]. rewrite blen_bzip, (Hp j q Hj), (Hp' j q' Hj'). lia.
Qed.

Lemma has_shape_cols {A} s e n0 m nb (xs : list (list (F A))) :
  has_shape n0 m nb xs →
  has_shape n0 (py_bound m e - py_bound m s) nb (cols s (Some e) xs).
Proof.
  rewrite !has_shape_lookup. intros [Hl Hs]. unfold cols.
  split; [by rewrite length_fmap|].
  intros i row. rewrite list_lookup_fmap.
  destruct (xs !! i) as [r|] eqn:Hi; simpl; [|done].
  intros [= <-]. destruct (Hs i r Hi) as [Hlen Hp].
  split; [by rewrite length_py_slice, Hlen|].
  intros j p. rewrite lookup_py_slice. case_decide; [|done]. eauto.
Qed.

(** Equality of arrays of samples from equality of all their samples. *)
Lemma has_shape_length {A} n0 n1 nb (x : list (list (F A))) :
  has_shape n0 n1 nb x → length x = n0.
Proof. by intros [? _]. Qed.
End array_facts.

(** ** Transposition *)

Lemma lookup_omap_column {A} (x : list (list A)) n1 i j :
  Forall (λ row, length row = n1) x → j < n1 →
  omap (λ row : list A, row !! j) x !! i = x !! i ≫= (.!! j).
Proof.
  intros Hx Hj. revert i. induction Hx as [|row x Hrow Hx IH]; intros i.
  - done.
  - simpl. destruct (lookup_lt_is_Some_2 row j) as [v Hv]; [lia|].
    rewrite Hv. destruct i as [|i]; simpl; [done|]. apply IH.
Qed.

Lemma length_omap_column {A} (x : list (list A)) n1 j :
  Forall (λ row, length row = n1) x → j < n1 →
  length (omap (λ row : list A, row !! j) x) = length x.
Proof.
  intros Hx Hj. induction Hx as [|row x Hrow Hx IH]; [done|].
  simpl. destruct (lookup_lt_is_Some_2 row j) as [v Hv]; [lia|].
  rewrite Hv. simpl. f_equal. exact IH.
Qed.

Lemma ncols_rect {A} (x : list (list A)) n1 :
  Forall (λ row, length row = n1) x → 0 < length x → ncols x = n1.
Proof. intros Hx Hl. destruct Hx; simpl in *; [lia|done]. Qed.

Lemma lookup_transpose {A} (x : list (list A)) n1 j :
  Forall (λ row, length row = n1) x → 0 < length x → j < n1 →
  transpose x !! j = Some (omap (λ row : list A, row !! j) x).
Proof.
  intros Hx Hl Hj. unfold transpose. rewrite list_lookup_fmap.
  rewrite (ncols_rect x n1) by done.
  by rewrite lookup_seq_lt.
Qed.

Lemma length_transpose {A} (x : list (list A)) n1 :
  Forall (λ row, length row = n1) x → 0 < length x →
  length (transpose x) = n1.
Proof.
  intros Hx Hl. unfold transpose.
  by rewrite length_fmap, length_seq, (ncols_rect x n1).
Qed.

Section transpose_facts.
Context {F : Type → Type} `{BatchLaws F}.

Lemma has_shape_rect {A} n0 n1 nb (x : list (list (F A))) :
  has_shape n0 n1 nb x → Forall (λ row, length row = n1) x.
Proof. intros [_ Hs]. eapply Forall_impl; [exact Hs|]. by intros ? [? _]. Qed.

Lemma has_shape_transpose {A} n0 n1 nb (x : list (list (F A))) :
  has_shape n0 n1 nb x → 0 < n0 → has_shape n1 n0 nb (transpose x).
Proof.
  intros Hx Hn0. pose proof (has_shape_rect _ _ _ _ Hx) as Hrect.
  destruct (proj1 (has_shape_lookup _ _ _ _) Hx) as [Hl Hs].
  apply has_shape_lookup. split; [apply length_transpose; [done|lia]|].
  intros j col Hcol.
  assert (j < n1) as Hj.
  { apply lookup_lt_Some in Hcol.
    by rewrite (length_transpose x n1) in Hcol by (done || lia). }
  rewrite (lookup_transpose x n1) in Hcol by (done || lia).
  injection Hcol as <-.
  split; [rewrite (length_omap_column x n1) by done; lia|].
  intros i p. rewrite (lookup_omap_column x n1) by done.
  destruct (x !! i) as [row|] eqn:Hi; simpl; [|done].
  intros Hp. destruct (Hs i row Hi) as [_ Hb]. eauto.
Qed.

Lemma aget_transpose {A} n0 n1 nb (x : list (list (F A))) i j b :
  has_shape n0 n1 nb x → 0 < n0 →
  aget (transpose x) j i b = aget x i j b.
Proof.
  intros Hx Hn0. pose proof (has_shape_rect _ _ _ _ Hx) as Hrect.
  destruct (proj1 (has_shape_lookup _ _ _ _) Hx) as [Hl Hs].
  unfold aget. destruct (decide (j < n1)) as [Hj|Hj].
  - rewrite (lookup_transpose x n1) by (done || lia).
    rewrite (lookup_omap_column x n1) by done.
    by destruct (x !! i) as [row|].
  - rewrite (lookup_ge_None_2 (transpose x))
      by (rewrite (length_transpose x n1) by (done || lia); lia).
    destruct (x !! i) as [row|] eqn:Hi; [|done].
    destruct (Hs i row Hi) as [Hlen _].
    by rewrite (lookup_ge_None_2 row) by lia.
Qed.
End transpose_facts.

(** ** Local total variation (C4) *)

(** Forward and backward total variation of a periodic line [f] of length
    [len] at position [pos], over [n] neighbour differences. *)
Definition tv_forward (f : nat → R) (len pos n : nat) : R :=
  sum_upto (λ k, Rabs (f (wrap len (Z.of_nat pos + Z.of_nat k))
                       - f (wrap len (Z.of_nat pos + Z.of_nat k + 1)))) n.

Definition tv_backward (f : nat → R) (len pos n : nat) : R :=
  sum_upto (λ k, Rabs (f (wrap len (Z.of_nat pos - Z.of_nat k))
                       - f (wrap len (Z.of_nat pos - Z.of_nat k - 1)))) n.

Section image_tv_facts.
Context {F : Type → Type} `{BatchLaws F}.

(** The sample at (i, j, b), 0 where there is none. *)
Definition sample (x : list (list (F R))) (i j b : nat) : R :=
  default 0%R (aget x i j b).

Lemma aget_sample n0 n1 nb (x : list (list (F R))) i j b :
  has_shape n0 n1 nb x → i < n0 → j < n1 → b < nb →
  aget x i j b = Some (sample x i j b).
Proof.
  intros Hx Hi Hj Hb. unfold sample.
  by destruct (aget_Some n0 n1 nb x i j b) as [v ->].
Qed.

Definition padded (n : nat) (xs : list (list (F R))) : list (list (F R)) :=
  (λ row, py_slice (- Z.of_nat n - 1)%Z None row ++ row
          ++ py_slice 0 (Some (Z.of_nat n + 1)%Z) row) <$> xs.

Lemma has_shape_padded n n0 n1 nb (xs : list (list (F R))) :
  has_shape n0 n1 nb xs → n + 1 ≤ n1 →
  has_shape n0 (n1 + 2 * (n + 1)) nb (padded n xs).
Proof.
  rewrite !has_shape_lookup. intros [Hl Hs] Hn. unfold padded.
  split; [by rewrite length_fmap|].
  intros i row. rewrite list_lookup_fmap.
  destruct (xs !! i) as [r|] eqn:Hi; simpl; [|done].
  intros [= <-]. destruct (Hs i r Hi) as [Hlen Hp].
  split; [rewrite length_padded; lia|].
  intros j p Hj.
  assert (j < length r + 2 * (n + 1)) as Hlt.
  { apply lookup_lt_Some in Hj. rewrite length_padded in Hj; lia. }
  rewrite lookup_padded in Hj by lia. eauto.
Qed.

Lemma aget_padded n n0 n1 nb (xs : list (list (F R))) i t b :
  has_shape n0 n1 nb xs → n + 1 ≤ n1 → i < n0 → b < nb →
  t < n1 + 2 * (n + 1) →
  aget (padded n xs) i t b
  = Some (sample xs i (wrap n1 (Z.of_nat t - (Z.of_nat n + 1))) b).
Proof.
  intros Hx Hn Hi Hb Ht.
  rewrite <-(aget_sample n0 n1 nb) by (done || apply wrap_lt; lia).
  destruct (proj1 (has_shape_lookup _ _ _ _) Hx) as [Hl Hs].
  unfold aget at 1 2, padded. rewrite list_lookup_fmap.
  destruct (xs !! i) as [r|] eqn:Hr; simpl; [|done].
  destruct (Hs i r Hr) as [Hlen _].
  rewrite lookup_padded by lia. by rewrite Hlen.
Qed.

(** One difference image [np.abs(xs[:, a:b] - xs[:, c:d])] of the padded
    array, read at one voxel. *)
Lemma aget_abs_diff n n0 n1 nb (xs : list (list (F R)))
    (s1 e1 s2 e2 : Z) i j b :
  has_shape n0 n1 nb xs → n + 1 ≤ n1 → i < n0 → j < n1 → b < nb →
  (0 ≤ s1)%Z → (e1 < 0)%Z → (0 ≤ s2)%Z → (e2 < 0)%Z →
  (s1 - e1 = 2 * Z.of_nat n + 2)%Z → (s2 - e2 = 2 * Z.of_nat n + 2)%Z →
  aget (Value.abs_diff (cols s1 (Some e1) (padded n xs))
                       (cols s2 (Some e2) (padded n xs))) i j b
  = Some (Rabs (sample xs i (wrap n1 (Z.of_nat j + s1 - (Z.of_nat n + 1))) b
                - sample xs i
                    (wrap n1 (Z.of_nat j + s2 - (Z.of_nat n + 1))) b)).
Proof.
  intros Hx Hn Hi Hj Hb Hs1 He1 Hs2 He2 Hd1 Hd2.
  pose proof (has_shape_padded n _ _ _ _ Hx Hn) as Hp.
  unfold Value.abs_diff. rewrite aget_azip.
  rewrite !(aget_cols _ _ _ _ _ _ _ _ _ Hp).
  rewrite (py_bound_nonneg _ s1), (py_bound_nonneg _ s2) by lia.
  rewrite (py_bound_neg _ e1), (py_bound_neg _ e2) by lia.
  rewrite !decide_True by lia.
  rewrite !(aget_padded n n0 n1 nb) by (done || lia). simpl.
  do 3 f_equal; f_equal; f_equal; lia.
Qed.

Lemma has_shape_abs_diff n n0 n1 nb (xs : list (list (F R)))
    (s1 e1 s2 e2 : Z) :
  has_shape n0 n1 nb xs → n + 1 ≤ n1 →
  (0 ≤ s1)%Z → (e1 < 0)%Z → (0 ≤ s2)%Z → (e2 < 0)%Z →
  (s1 - e1 = 2 * Z.of_nat n + 2)%Z → (s2 - e2 = 2 * Z.of_nat n + 2)%Z →
  has_shape n0 n1 nb
    (Value.abs_diff (cols s1 (Some e1) (padded n xs))
                    (cols s2 (Some e2) (padded n xs))).
Proof.
  intros Hx Hn Hs1 He1 Hs2 He2 Hd1 Hd2.
  pose proof (has_shape_padded n _ _ _ _ Hx Hn) as Hp.
  unfold Value.abs_diff. apply has_shape_azip.
  - replace n1 with (py_bound (n1 + 2 * (n + 1)) e1
                     - py_bound (n1 + 2 * (n + 1)) s1) at 1.
    + by apply has_shape_cols.
    + rewrite (py_bound_nonneg _ s1), (py_bound_neg _ e1) by lia. lia.
  - replace n1 with (py_bound (n1 + 2 * (n + 1)) e2
                     - py_bound (n1 + 2 * (n + 1)) s2) at 1.
    + by apply has_shape_cols.
    + rewrite (py_bound_nonneg _ s2), (py_bound_neg _ e2) by lia. lia.
Qed.
End image_tv_facts.

Section image_tv_periodic.
Context {F : Type → Type} `{BatchLaws F}.

Lemma tv_fold_axis1 n n0 n1 nb (xs : list (list (F R))) m :
  has_shape n0 n1 nb xs → n + 1 ≤ n1 → m + 1 ≤ n →
  let np := Z.of_nat n in
  let r := foldl (Value.tv_step n (padded n xs))
             (Value.abs_diff (cols (np + 1)%Z (Some (- np - 1)%Z) (padded n xs))
                             (cols (np + 2)%Z (Some (- np)%Z) (padded n xs)),
              Value.abs_diff (cols (np + 1)%Z (Some (- np - 1)%Z) (padded n xs))
                             (cols np (Some (- np - 2)%Z) (padded n xs)))
             (seq 1 m) in
  has_shape n0 n1 nb r.1 ∧ has_shape n0 n1 nb r.2 ∧
  ∀ i j b, i < n0 → j < n1 → b < nb →
    aget r.1 i j b
      = Some (tv_forward (λ t, sample xs i t b) n1 j (S m)) ∧
    aget r.2 i j b
      = Some (tv_backward (λ t, sample xs i t b) n1 j (S m)).
Proof.
  intros Hx Hn Hm. cbv zeta. induction m as [|m IH].
  - simpl. split; [apply has_shape_abs_diff; (done || lia)|].
    split; [apply has_shape_abs_diff; (done || lia)|].
    intros i j b Hi Hj Hb.
    rewrite !(aget_abs_diff n n0 n1 nb) by (done || lia).
    unfold tv_forward, tv_backward. simpl. rewrite !Rplus_0_l.
    split; do 3 f_equal; f_equal; f_equal; lia.
  - rewrite seq_S, foldl_app. simpl.
    destruct IH as (Hs1 & Hs2 & IH); [lia|].
    set (r := foldl _ _ (seq 1 m)) in *.
    split; [apply has_shape_azip;
              [done|apply has_shape_abs_diff; (done || lia)]|].
    split; [apply has_shape_azip;
              [done|apply has_shape_abs_diff; (done || lia)]|].
    intros i j b Hi Hj Hb. destruct (IH i j b Hi Hj Hb) as [IHp IHn].
    rewrite !aget_azip, IHp, IHn.
    rewrite !(aget_abs_diff n n0 n1 nb) by (done || lia). simpl.
    unfold tv_forward, tv_backward.
    rewrite (sum_upto_S _ (S m)).
    rewrite (sum_upto_S _ (S m)).
    split; do 4 f_equal; f_equal; f_equal; lia.
Qed.
End image_tv_periodic.

Lemma sum_upto_ext f g n :
  (∀ k, k < n → f k = g k) → sum_upto f n = sum_upto g n.
Proof.
  induction n as [|n IH]; intros Hfg; simpl; [done|].
  rewrite IH, Hfg by (intros; apply Hfg || idtac; lia). done.
Qed.

Lemma tv_forward_ext f g len pos n :
  (∀ t, t < len → f t = g t) → 0 < len →
  tv_forward f len pos n = tv_forward g len pos n.
Proof.
  intros Hfg Hl. apply sum_upto_ext. intros k _.
  by rewrite !Hfg by (apply wrap_lt; lia).
Qed.

Lemma tv_backward_ext f g len pos n :
  (∀ t, t < len → f t = g t) → 0 < len →
  tv_backward f len pos n = tv_backward g len pos n.
Proof.
  intros Hfg Hl. apply sum_upto_ext. intros k _.
  by rewrite !Hfg by (apply wrap_lt; lia).
Qed.



(** ** Shapes through the spectral primitives *)

Lemma length_linspace a b num : length (Value.linspace a b num) = num.
Proof. unfold Value.linspace. by rewrite length_fmap, length_seq. Qed.

Lemma fft2_keeps_shape : keeps_shape Value.fft2.
Proof.
  intros y m1 Hy. unfold Value.fft2. split; [by rewrite length_imap|].
  apply Forall_lookup. intros i row. rewrite list_lookup_imap.
  destruct (y !! i) as [r|] eqn:Hi; simpl; [|done].
  intros [= <-]. rewrite length_imap.
  by apply (proj1 (Forall_lookup _ _) Hy i r).
Qed.

Lemma ifft2_keeps_shape : keeps_shape Value.ifft2.
Proof.
  intros y m1 Hy. unfold Value.ifft2. split; [by rewrite length_imap|].
  apply Forall_lookup. intros i row. rewrite list_lookup_imap.
  destruct (y !! i) as [r|] eqn:Hi; simpl; [|done].
  intros [= <-]. rewrite length_imap.
  by apply (proj1 (Forall_lookup _ _) Hy i r).
Qed.

Lemma length_roll {A} s (l : list A) : length (Value.roll s l) = length l.
Proof.
  unfold Value.roll. rewrite length_app, length_drop, length_take. lia.
Qed.

Lemma Forall_roll {A} (P : A → Prop) s (l : list A) :
  Forall P l → Forall P (Value.roll s l).
Proof.
  intros Hl. unfold Value.roll. apply Forall_app.
  split; [by apply Forall_drop|by apply Forall_take].
Qed.

Section search_shapes.
Context {F : Type → Type} `{BatchLaws F}.
Import Value.

Lemma has_shape_fftshift {A} n0 n1 nb (x : list (list (F A))) :
  has_shape n0 n1 nb x → has_shape n0 n1 nb (fftshift x).
Proof.
  intros [Hl Hx]. unfold fftshift.
  split; [by rewrite length_roll, length_fmap|].
  apply Forall_roll, Forall_fmap.
  eapply Forall_impl; [exact Hx|]. simpl. intros row [Hrow Hp].
  split; [by rewrite length_roll|by apply Forall_roll].
Qed.

Lemma has_shape_mul_axis1 n0 n1 nb (c : list (list (F C))) eks :
  has_shape n0 n1 nb c → length eks = n1 →
  has_shape n0 n1 nb (mul_axis1 c eks).
Proof.
  rewrite !has_shape_lookup. intros [Hl Hs] He. unfold mul_axis1.
  split; [by rewrite length_fmap|].
  intros i row. rewrite list_lookup_fmap.
  destruct (c !! i) as [r|] eqn:Hi; simpl; [|done].
  intros [= <-]. destruct (Hs i r Hi) as [Hlen Hp].
  split; [rewrite length_zip_with; lia|].
  intros j p. rewrite lookup_zip_with.
  destruct (r !! j) as [q|] eqn:Hj; simpl; [|done].
  destruct (eks !! j); simpl; [|done].
  intros [= <-]. rewrite blen_bmap. eauto.
Qed.

Lemma has_shape_ncols {A} n0 n1 nb (x : list (list (F A))) :
  has_shape n0 n1 nb x → 0 < n0 → ncols x = n1.
Proof.
  intros Hx Hn0. apply ncols_rect; [by eapply has_shape_rect|].
  destruct Hx as [-> _]. done.
Qed.

Lemma has_shape_spectrum n0 n1 nb (xs : list (list (F R))) :
  has_shape n0 n1 nb xs →
  has_shape n0 n1 nb (fftshift (fft2b (amap of_real xs))).
Proof.
  intros Hx. apply has_shape_fftshift. unfold fft2b.
  apply bslices_shape; [apply fft2_keeps_shape|].
  by apply has_shape_amap.
Qed.

Lemma has_shape_shifted_image n0 n1 nb (c : list (list (F C))) eks :
  has_shape n0 n1 nb c → length eks = n1 →
  has_shape n0 n1 nb (shifted_image c eks).
Proof.
  intros Hc He. unfold shifted_image. apply has_shape_amap.
  unfold ifft2b. apply bslices_shape; [apply ifft2_keeps_shape|].
  by apply has_shape_fftshift, has_shape_mul_axis1.
Qed.

(** [_image_tv] along axis 1, as the search uses it. *)
Lemma image_tv_axis1 n n0 n1 nb (xs : list (list (F R))) :
  has_shape n0 n1 nb xs → 1 ≤ n → n + 1 ≤ n1 →
  has_shape n0 n1 nb (_image_tv xs 1 n).1 ∧
  has_shape n0 n1 nb (_image_tv xs 1 n).2.
Proof.
  intros Hx Hn Hlen.
  destruct (tv_fold_axis1 n n0 n1 nb xs (n - 1) Hx) as (Hs1 & Hs2 & _);
    [lia..|].
  unfold _image_tv.
  replace (py_range 1 n) with (seq 1 (n - 1)) by done.
  fold (padded n xs). done.
Qed.

Lemma has_shape_tv_score n n0 n1 nb (xs : list (list (F R))) :
  has_shape n0 n1 nb xs → 1 ≤ n → n + 1 ≤ n1 →
  has_shape n0 n1 nb (azip Rmin (_image_tv xs 1 n).1 (_image_tv xs 1 n).2).
Proof.
  intros Hx Hn Hlen.
  destruct (image_tv_axis1 n n0 n1 nb xs) as [H1 H2]; [done..|].
  by apply has_shape_azip.
Qed.

Lemma has_shape_mask_set n0 n1 nb mask (src dst : list (list (F R))) :
  has_shape n0 n1 nb mask → has_shape n0 n1 nb src →
  has_shape n0 n1 nb dst → has_shape n0 n1 nb (mask_set mask src dst).
Proof. intros. unfold mask_set. by repeat apply has_shape_azip. Qed.

Lemma has_shape_mask_fill n0 n1 nb mask s (dst : list (list (F R))) :
  has_shape n0 n1 nb mask → has_shape n0 n1 nb dst →
  has_shape n0 n1 nb (mask_fill mask s dst).
Proof. intros. unfold mask_fill. by apply has_shape_azip. Qed.

(** All six arrays of the search state have the shape of the image. *)
Definition search_wf (n0 n1 nb : nat) (st : search (F:=F)) : Prop :=
  has_shape n0 n1 nb (isp st) ∧ has_shape n0 n1 nb (sp st) ∧
  has_shape n0 n1 nb (tvp st) ∧ has_shape n0 n1 nb (isn st) ∧
  has_shape n0 n1 nb (sn st) ∧ has_shape n0 n1 nb (tvn st).

Lemma search_init_wf n n0 n1 nb (xs : list (list (F R))) :
  has_shape n0 n1 nb xs → 1 ≤ n → n + 1 ≤ n1 →
  search_wf n0 n1 nb (search_init n xs).
Proof.
  intros Hx Hn Hlen. unfold search_wf, search_init.
  cbn [isp sp tvp isn sn tvn].
  pose proof (has_shape_tv_score n n0 n1 nb xs Hx Hn Hlen).
  pose proof (has_shape_amap (λ _ : R, 0%R) _ _ _ _ Hx).
  done.
Qed.

Lemma search_step_wf n n0 n1 nb (c : list (list (F C))) k st s :
  has_shape n0 n1 nb c → length k = n1 → 1 ≤ n → n + 1 ≤ n1 →
  search_wf n0 n1 nb st → search_wf n0 n1 nb (search_step n c k st s).
Proof.
  intros Hc Hk Hn Hlen (H1 & H2 & H3 & H4 & H5 & H6).
  assert (∀ eks, length eks = n1 →
            has_shape n0 n1 nb (shifted_image c eks)) as Himg
    by (intros; by apply has_shape_shifted_image).
  assert (∀ img : list (list (F R)), has_shape n0 n1 nb img →
            has_shape n0 n1 nb
              (azip Rmin (_image_tv img 1 n).1 (_image_tv img 1 n).2))
    as Htv by (intros; by apply has_shape_tv_score).
  assert (∀ (a b : list (list (F R))), has_shape n0 n1 nb a →
            has_shape n0 n1 nb b → has_shape n0 n1 nb (azip Rgtb a b))
    as Hgt by (intros; by apply has_shape_azip).
  unfold search_wf, search_step. cbn [isp sp tvp isn sn tvn].
  split_and!;
    (apply has_shape_mask_set || apply has_shape_mask_fill);
    repeat (done || apply Hgt || apply Htv || apply Himg
            || (rewrite !length_fmap; exact Hk)).
Qed.

Lemma shift_search_wf n n0 n1 nb (xs : list (list (F R))) cands :
  has_shape n0 n1 nb xs → 0 < n0 → 1 ≤ n → n + 1 ≤ n1 →
  search_wf n0 n1 nb (shift_search n xs cands).
Proof.
  intros Hx Hn0 Hn Hlen. unfold shift_search.
  pose proof (search_init_wf n n0 n1 nb xs Hx Hn Hlen) as Hinit.
  revert Hinit. generalize (search_init n xs).
  induction cands as [|s cands IH]; intros st Hst; simpl; [done|].
  apply IH, search_step_wf; try done.
  - by apply has_shape_spectrum.
  - unfold phase_ramp. rewrite length_fmap, length_linspace.
    by eapply has_shape_ncols.
Qed.
End search_shapes.

(** ** The shift search, voxel by voxel *)

Section search_voxel.
Context {F : Type → Type} `{BatchLaws F}.
Import Value.

Lemma sample_azip n0 n1 nb (f : R → R → R) (x y : list (list (F R))) i j b :
  has_shape n0 n1 nb x → has_shape n0 n1 nb y →
  i < n0 → j < n1 → b < nb →
  sample (azip f x y) i j b = f (sample x i j b) (sample y i j b).
Proof.
  intros Hx Hy Hi Hj Hb. unfold sample at 1. rewrite aget_azip.
  rewrite (aget_sample n0 n1 nb x), (aget_sample n0 n1 nb y) by done.
  done.
Qed.

Lemma sample_mask_set n0 n1 nb (a c src dst : list (list (F R))) i j b :
  has_shape n0 n1 nb a → has_shape n0 n1 nb c →
  has_shape n0 n1 nb src → has_shape n0 n1 nb dst →
  i < n0 → j < n1 → b < nb →
  sample (mask_set (azip Rgtb a c) src dst) i j b
  = if Rgtb (sample a i j b) (sample c i j b)
    then sample src i j b else sample dst i j b.
Proof.
  intros Ha Hc Hsrc Hdst Hi Hj Hb. unfold sample at 1, mask_set.
  rewrite !aget_azip.
  rewrite (aget_sample n0 n1 nb a), (aget_sample n0 n1 nb c),
    (aget_sample n0 n1 nb src), (aget_sample n0 n1 nb dst) by done.
  done.
Qed.

Lemma sample_mask_fill n0 n1 nb (a c dst : list (list (F R))) s i j b :
  has_shape n0 n1 nb a → has_shape n0 n1 nb c →
  has_shape n0 n1 nb dst →
  i < n0 → j < n1 → b < nb →
  sample (mask_fill (azip Rgtb a c) s dst) i j b
  = if Rgtb (sample a i j b) (sample c i j b)
    then s else sample dst i j b.
Proof.
  intros Ha Hc Hdst Hi Hj Hb. unfold sample at 1, mask_fill.
  rewrite !aget_azip.
  rewrite (aget_sample n0 n1 nb a), (aget_sample n0 n1 nb c),
    (aget_sample n0 n1 nb dst) by done.
  done.
Qed.

(** What one candidate does to one voxel: with [cp], [cn] the candidate's
    TV scores and [vp], [vn] its reconstructed values at that voxel, the
    positive (negative) triple is overwritten exactly when the stored
    score is strictly greater than the candidate's. *)
Lemma search_step_voxel n n0 n1 nb (c : list (list (F C))) k st s i j b :
  has_shape n0 n1 nb c → length k = n1 → 1 ≤ n → n + 1 ≤ n1 →
  search_wf n0 n1 nb st → i < n0 → j < n1 → b < nb →
  let st' := search_step n c k st s in
  ∃ cp vp cn vn : R,
    sample (tvp st') i j b
      = (if Rgtb (sample (tvp st) i j b) cp
         then cp else sample (tvp st) i j b) ∧
    sample (sp st') i j b
      = (if Rgtb (sample (tvp st) i j b) cp
         then s else sample (sp st) i j b) ∧
    sample (isp st') i j b
      = (if Rgtb (sample (tvp st) i j b) cp
         then vp else sample (isp st) i j b) ∧
    sample (tvn st') i j b
      = (if Rgtb (sample (tvn st) i j b) cn
         then cn else sample (tvn st) i j b) ∧
    sample (sn st') i j b
      = (if Rgtb (sample (tvn st) i j b) cn
         then s else sample (sn st) i j b) ∧
    sample (isn st') i j b
      = (if Rgtb (sample (tvn st) i j b) cn
         then vn else sample (isn st) i j b).
Proof.
  intros Hc Hk Hn Hlen (H1 & H2 & H3 & H4 & H5 & H6) Hi Hj Hb st'.
  set (eks := Cexp <$> ((λ z : C, Cscale z s) <$> k)).
  assert (length eks = n1) as Heks
    by (unfold eks; by rewrite !length_fmap).
  assert (length (Cconj <$> eks) = n1) as Heks'
    by (by rewrite length_fmap).
  pose proof (has_shape_shifted_image _ _ _ c eks Hc Heks) as Hip.
  pose proof (has_shape_shifted_image _ _ _ c _ Hc Heks') as Hin.
  pose proof (has_shape_tv_score n _ _ _ _ Hip Hn Hlen) as Htp.
  pose proof (has_shape_tv_score n _ _ _ _ Hin Hn Hlen) as Htn.
  eexists _, _, _, _. unfold st', search_step.
  cbn [isp sp tvp isn sn tvn]. fold eks.
  rewrite !(sample_mask_set n0 n1 nb), !(sample_mask_fill n0 n1 nb)
    by done.
  split_and!; reflexivity.
Qed.

Lemma Rgtb_true a b : Rgtb a b = true → (b < a)%R.
Proof. unfold Rgtb. destruct (Rgt_dec a b); [intros _; lra|done]. Qed.

Lemma shift_search_snoc n (xs : list (list (F R))) cands s :
  shift_search n xs (cands ++ [s])
  = search_step n (fftshift (fft2b (amap of_real xs)))
      (phase_ramp (ncols xs)) (shift_search n xs cands) s.
Proof. unfold shift_search. by rewrite foldl_app. Qed.

(** One more candidate leaves a stored score alone or lowers it. *)
Lemma shift_search_snoc_tv n n0 n1 nb (xs : list (list (F R))) cands s
    i j b :
  has_shape n0 n1 nb xs → 0 < n0 → 1 ≤ n → n + 1 ≤ n1 →
  i < n0 → j < n1 → b < nb →
  let before := shift_search n xs cands in
  let after := shift_search n xs (cands ++ [s]) in
  (sample (tvp after) i j b = sample (tvp before) i j b ∨
   (sample (tvp after) i j b < sample (tvp before) i j b)%R) ∧
  (sample (tvn after) i j b = sample (tvn before) i j b ∨
   (sample (tvn after) i j b < sample (tvn before) i j b)%R).
Proof.
  intros Hx Hn0 Hn Hlen Hi Hj Hb before after.
  unfold after. rewrite shift_search_snoc. fold before.
  destruct (search_step_voxel n n0 n1 nb
              (fftshift (fft2b (amap of_real xs))) (phase_ramp (ncols xs))
              before s i j b)
    as (cp & vp & cn & vn & Htp & _ & _ & Htn & _ & _); try done.
  - by apply has_shape_spectrum.
  - unfold phase_ramp. rewrite length_fmap, length_linspace.
    by eapply has_shape_ncols.
  - by apply shift_search_wf.
  - rewrite Htp, Htn. split.
    + destruct (Rgtb _ cp) eqn:Hg; [right; by apply Rgtb_true|by left].
    + destruct (Rgtb _ cn) eqn:Hg; [right; by apply Rgtb_true|by left].
Qed.

Lemma shift_search_tv_le n n0 n1 nb (xs : list (list (F R))) cands i j b :
  has_shape n0 n1 nb xs → 0 < n0 → 1 ≤ n → n + 1 ≤ n1 →
  i < n0 → j < n1 → b < nb →
  (sample (tvp (shift_search n xs cands)) i j b
     <= sample (tvp (search_init n xs)) i j b)%R ∧
  (sample (tvn (shift_search n xs cands)) i j b
     <= sample (tvn (search_init n xs)) i j b)%R.
Proof.
  intros Hx Hn0 Hn Hlen Hi Hj Hb.
  induction cands as [|s cands IH] using rev_ind.
  - unfold shift_search. simpl. lra.
  - destruct (shift_search_snoc_tv n n0 n1 nb xs cands s i j b)
      as [Hp Hm]; try done.
    cbv zeta in Hp, Hm. destruct IH as [IHp IHn].
    split; [destruct Hp as [->|Hp]|destruct Hm as [->|Hm]]; lra.
Qed.
End search_voxel.

(** C5.  Throughout the fold of [_gibbs_removal_1d] over the shift
    candidates, the stored positive and negative TV scores of every voxel
    are non-increasing: one more candidate leaves a score as it is or makes
    it strictly lower; hence after the 45 candidates of [ssamp] both scores
    are at most the baseline (zero-shift) score, the element-wise minimum of
    the two TV fields of the unshifted image. *)
Theorem search_tv_non_increasing {F : Type → Type} `{BatchLaws F}
    (xs : list (list (F R))) (n n0 n1 nb i j b : nat) :
  has_shape n0 n1 nb xs → 0 < n0 → 1 ≤ n → n + 1 ≤ n1 →
  i < n0 → j < n1 → b < nb →
  let baseline :=
    sample (azip Rmin (Value._image_tv xs 1 n).1 (Value._image_tv xs 1 n).2)
           i j b in
  let ptv cands := sample (Value.tvp (Value.shift_search n xs cands)) i j b in
  let ntv cands := sample (Value.tvn (Value.shift_search n xs cands)) i j b in
  ptv [] = baseline ∧ ntv [] = baseline ∧
  (∀ cands s,
     (ptv (cands ++ [s]) = ptv cands ∨ (ptv (cands ++ [s]) < ptv cands)%R) ∧
     (ntv (cands ++ [s]) = ntv cands ∨ (ntv (cands ++ [s]) < ntv cands)%R)) ∧
  (ptv Value.ssamp <= baseline)%R ∧ (ntv Value.ssamp <= baseline)%R ∧
  is_Some (aget (Value.tvp (Value.shift_search n xs Value.ssamp)) i j b) ∧
  is_Some (aget (Value.tvn (Value.shift_search n xs Value.ssamp)) i j b).
Proof.
  intros Hx Hn0 Hn Hlen Hi Hj Hb baseline ptv ntv.
  split; [done|]. split; [done|].
  split.
  { intros cands s.
    exact (shift_search_snoc_tv n n0 n1 nb xs cands s i j b
             Hx Hn0 Hn Hlen Hi Hj Hb). }
  destruct (shift_search_tv_le n n0 n1 nb xs Value.ssamp i j b) as [Hp Hm];
    try done.
  destruct (shift_search_wf n n0 n1 nb xs Value.ssamp)
    as (_ & _ & Hwp & _ & _ & Hwn); try done.
  split; [exact Hp|]. split; [exact Hm|].
  split; by eapply aget_Some.
Qed.

Lemma search_tv_non_increasing_witness :
  let xs : list (list (list R)) :=
    [[[1; 5]; [2; 7]; [4; 4]]; [[0; 1]; [3; 1]; [9; 2]]]%R in
  has_shape 2 3 2 xs ∧
  (sample (Value.tvp (Value.shift_search 2 xs Value.ssamp)) 1 2 0
   <= sample (azip Rmin (Value._image_tv xs 1 2).1 (Value._image_tv xs 1 2).2)
            1 2 0)%R.
Proof.
  intros xs.
  assert (has_shape 2 3 2 xs) as Hx.
  { split; [done|]. repeat constructor. }
  split; [exact Hx|].
  pose proof (search_tv_non_increasing xs 2 2 3 2 1 2 0 Hx) as Hw.
  cbv zeta in Hw.
  destruct Hw as (_ & _ & _ & Hp & _); [lia..|]. exact Hp.
Defined.

(** ** The final interpolation (C3) *)

Lemma ssamp_pos s : s ∈ Value.ssamp → (0 < s)%R.
Proof.
  unfold Value.ssamp, Value.linspace. intros (k & -> & _)%list_elem_of_fmap.
  pose proof (pos_INR k). change (INR (45 - 1)) with (INR 44).
  assert (INR 44 = 44%R) as -> by (simpl; lra).
  assert (0 <= INR k * ((9 / 10 - 2 / 100) / 44))%R; [|lra].
  apply Rmult_le_pos; lra.
Qed.

Section interpolation.
Context {F : Type → Type} `{BatchLaws F}.
Import Value.

(** A shift and its estimate at one voxel: never updated (shift 0,
    estimate still the unshifted sample) or updated to a positive
    candidate. *)
Definition shift_inv (orig shift est : R) : Prop :=
  (shift = 0%R ∧ est = orig) ∨ (0 < shift)%R.

Lemma shift_search_inv n n0 n1 nb (xs : list (list (F R))) cands i j b :
  has_shape n0 n1 nb xs → 0 < n0 → 1 ≤ n → n + 1 ≤ n1 →
  i < n0 → j < n1 → b < nb →
  Forall (λ s, 0 < s)%R cands →
  let st := shift_search n xs cands in
  shift_inv (sample xs i j b) (sample (sp st) i j b)
            (sample (isp st) i j b) ∧
  shift_inv (sample xs i j b) (sample (sn st) i j b)
            (sample (isn st) i j b).
Proof.
  intros Hx Hn0 Hn Hlen Hi Hj Hb Hpos. cbv zeta.
  induction cands as [|s cands IH] using rev_ind.
  - unfold shift_search, search_init. cbn [foldl isp sp isn sn].
    assert (sample (amap (λ _ : R, 0%R) xs) i j b = 0%R) as ->.
    { unfold sample. rewrite aget_amap.
      by rewrite (aget_sample n0 n1 nb xs) by done. }
    split; by left.
  - apply Forall_app in Hpos as [Hpos Hs].
    rewrite Forall_singleton in Hs.
    destruct (IH Hpos) as [IHp IHn]. clear IH.
    rewrite shift_search_snoc.
    destruct (search_step_voxel n n0 n1 nb
                (fftshift (fft2b (amap of_real xs)))
                (phase_ramp (ncols xs))
                (shift_search n xs cands) s i j b)
      as (cp & vp & cn & vn & _ & Hsp & Hip & _ & Hsn & Hin); try done.
    + by apply has_shape_spectrum.
    + unfold phase_ramp. rewrite length_fmap, length_linspace.
      by eapply has_shape_ncols.
    + by apply shift_search_wf.
    + rewrite Hsp, Hip, Hsn, Hin. split.
      * destruct (Rgtb _ cp); [right; exact Hs|done].
      * destruct (Rgtb _ cn); [right; exact Hs|done].
Qed.

Lemma aget_mask_set (mask : list (list (F bool)))
    (src dst : list (list (F R))) i j b :
  aget (mask_set mask src dst) i j b
  = aget mask i j b ≫= λ m : bool, aget src i j b ≫= λ s : R,
      aget dst i j b ≫= λ d : R, Some (if m then s else d).
Proof.
  unfold mask_set. rewrite !aget_azip.
  destruct (aget mask i j b); simpl; [|done].
  destruct (aget src i j b); simpl; [|done]. done.
Qed.

(** The value [interpolate] leaves at one voxel. *)
Lemma sample_interpolate n0 n1 nb st (xs : list (list (F R))) i j b :
  search_wf n0 n1 nb st → has_shape n0 n1 nb xs →
  i < n0 → j < n1 → b < nb →
  aget (interpolate st xs) i j b
  = Some (if Rnonzero (sample (sp st) i j b + sample (sn st) i j b)
          then ((sample (isp st) i j b - sample (isn st) i j b)
                / (sample (sp st) i j b + sample (sn st) i j b)
                * sample (sn st) i j b + sample (isn st) i j b)%R
          else sample xs i j b).
Proof.
  intros (H1 & H2 & H3 & H4 & H5 & H6) Hx Hi Hj Hb.
  unfold interpolate. rewrite aget_mask_set, aget_amap, !aget_azip.
  rewrite (aget_sample n0 n1 nb (sp st)), (aget_sample n0 n1 nb (sn st)),
    (aget_sample n0 n1 nb (isp st)), (aget_sample n0 n1 nb (isn st)),
    (aget_sample n0 n1 nb xs) by done.
  done.
Qed.

Lemma has_shape_interpolate n0 n1 nb st (xs : list (list (F R))) :
  search_wf n0 n1 nb st → has_shape n0 n1 nb xs →
  has_shape n0 n1 nb (interpolate st xs).
Proof.
  intros (H1 & H2 & H3 & H4 & H5 & H6) Hx. unfold interpolate.
  apply has_shape_mask_set; [|repeat apply has_shape_azip; done|done].
  apply has_shape_amap. by apply has_shape_azip.
Qed.

(** The arithmetic of the reconstruction at one voxel. *)
Lemma interpolate_cases (orig sp sn ep en : R) :
  shift_inv orig sp ep → shift_inv orig sn en →
  let out := if Rnonzero (sp + sn)
             then ((ep - en) / (sp + sn) * sn + en)%R else orig in
  (sp = 0%R → sn = 0%R → out = orig) ∧
  (¬ (sp = 0%R ∧ sn = 0%R) →
     out = (en + (ep - en) * sn / (sp + sn))%R) ∧
  (sp = 0%R → sn ≠ 0%R → out = ep) ∧
  (sn = 0%R → sp ≠ 0%R → out = en) ∧
  (sp = 0%R → ep = orig) ∧ (sn = 0%R → en = orig).
Proof.
  intros Hp Hm out.
  assert (0 <= sp)%R as Hsp by (destruct Hp as [[-> _]|?]; lra).
  assert (0 <= sn)%R as Hsn by (destruct Hm as [[-> _]|?]; lra).
  unfold out, Rnonzero. destruct (Req_dec_T (sp + sn) 0) as [Hz|Hnz].
  - assert (sp = 0%R) by lra. assert (sn = 0%R) by lra.
    split_and!.
    + done.
    + intros Hneg. by destruct Hneg.
    + intros _ Hneg. by destruct Hneg.
    + intros _ Hneg. by destruct Hneg.
    + intros _. destruct Hp as [[_ ->]|?]; [done|lra].
    + intros _. destruct Hm as [[_ ->]|?]; [done|lra].
  - split_and!.
    + intros -> ->. lra.
    + intros _. field. done.
    + intros -> Hn. field. lra.
    + intros -> Hn. field. lra.
    + intros ->. destruct Hp as [[_ ->]|?]; [done|lra].
    + intros ->. destruct Hm as [[_ ->]|?]; [done|lra].
Qed.
End interpolation.

(** C3.  After the search over the 45 candidates of [ssamp], the value
    [_gibbs_removal_1d] returns at a voxel is the original sample when the
    best positive and the best negative shift are both exactly zero, and
    otherwise negative_estimate + (positive_estimate - negative_estimate)
    * negative_shift / (positive_shift + negative_shift); when exactly one
    of the two shifts is nonzero this is the estimate of the other
    direction, which is then the unshifted sample.  (Samples are real
    numbers; the position is (j, i) in the transposed working copy when
    axis = 0.) *)
Theorem interpolation_formula {F : Type → Type} `{BatchLaws F}
    (x : list (list (F R))) (axis n n0 n1 nb i j b : nat) :
  has_shape n0 n1 nb x → 0 < n0 → 0 < n1 → axis ≤ 1 → 1 ≤ n →
  n + 1 ≤ match axis with 0 => n0 | _ => n1 end →
  i < n0 → j < n1 → b < nb →
  let xs := match axis with 0 => transpose x | _ => x end in
  let st := Value.shift_search n xs Value.ssamp in
  let i' := match axis with 0 => j | _ => i end in
  let j' := match axis with 0 => i | _ => j end in
  let s_pos := sample (Value.sp st) i' j' b in
  let s_neg := sample (Value.sn st) i' j' b in
  let e_pos := sample (Value.isp st) i' j' b in
  let e_neg := sample (Value.isn st) i' j' b in
  let orig := sample x i j b in
  ∃ out, aget (Value._gibbs_removal_1d x axis n) i j b = Some out ∧
    (s_pos = 0%R → s_neg = 0%R → out = orig) ∧
    (¬ (s_pos = 0%R ∧ s_neg = 0%R) →
       out = (e_neg + (e_pos - e_neg) * s_neg / (s_pos + s_neg))%R) ∧
    (s_pos = 0%R → s_neg ≠ 0%R → out = e_pos) ∧
    (s_neg = 0%R → s_pos ≠ 0%R → out = e_neg) ∧
    (s_pos = 0%R → e_pos = orig) ∧ (s_neg = 0%R → e_neg = orig).
Proof.
  intros Hx Hn0 Hn1 Hax Hn Hlen Hi Hj Hb.
  assert (Forall (λ s, 0 < s)%R Value.ssamp) as Hpos
    by (apply Forall_forall; intros s; apply ssamp_pos).
  destruct axis as [|[|axis]]; [| |lia]; cbv zeta.
  - pose proof (has_shape_transpose _ _ _ _ Hx Hn0) as Hxt.
    pose proof (shift_search_wf n n1 n0 nb (transpose x) Value.ssamp
                  Hxt Hn1 Hn Hlen) as Hwf.
    destruct (shift_search_inv n n1 n0 nb (transpose x) Value.ssamp j i b)
      as [Hp Hm]; try done.
    unfold Value._gibbs_removal_1d.
    rewrite (aget_transpose n1 n0 nb)
      by (done || by apply has_shape_interpolate).
    rewrite (sample_interpolate n1 n0 nb) by done.
    eexists; split; [reflexivity|].
    replace (sample x i j b) with (sample (transpose x) j i b)
      by (unfold sample; by rewrite (aget_transpose n0 n1 nb)).
    by apply interpolate_cases.
  - pose proof (shift_search_wf n n0 n1 nb x Value.ssamp
                  Hx Hn0 Hn Hlen) as Hwf.
    destruct (shift_search_inv n n0 n1 nb x Value.ssamp i j b)
      as [Hp Hm]; try done.
    unfold Value._gibbs_removal_1d.
    rewrite (sample_interpolate n0 n1 nb) by done.
    eexists; split; [reflexivity|].
    by apply interpolate_cases.
Qed.

Lemma interpolation_formula_witness :
  let x : list (list R) := [[1; 5; 2; 7]; [4; 4; 0; 1]; [3; 1; 9; 2]]%R in
  has_shape (F:=scalar) 3 4 1 x ∧
  ∃ out, aget (F:=scalar) (Value._gibbs_removal_1d (F:=scalar) x 0 2) 2 3 0
         = Some out.
Proof.
  intros x.
  assert (has_shape (F:=scalar) 3 4 1 x) as Hx.
  { split; [done|]. repeat constructor. }
  split; [exact Hx|].
  pose proof (interpolation_formula (F:=scalar) x 0 2 3 4 1 2 3 0 Hx) as Hw.
  cbv zeta in Hw.
  destruct Hw as (out & Hout & _); [lia..|]. by exists out.
Defined.

(** ** Blend weights (C2) *)

Section weights.
Import Value.

Definition get2 (a : list (list R)) (i j : nat) : option R :=
  a !! i ≫= (.!! j).

Lemma from2_get2 a i j v : get2 a i j = Some v → from2 a i j = v.
Proof. unfold from2, get2. by intros ->. Qed.

Lemma selects_range_in len a b t :
  py_bound len a ≤ t → t < py_bound len b →
  selects len (Range a b) t = Some (t - py_bound len a).
Proof.
  intros Ha Hb. unfold selects.
  rewrite (proj2 (Nat.leb_le _ _) Ha), (proj2 (Nat.ltb_lt _ _) Hb). done.
Qed.

Lemma selects_range_out len a b t :
  t < py_bound len a ∨ py_bound len b ≤ t →
  selects len (Range a b) t = None.
Proof.
  intros Hout. unfold selects.
  destruct (Nat.leb_spec (py_bound len a) t);
    destruct (Nat.ltb_spec t (py_bound len b)); simpl; try done; lia.
Qed.

Lemma selects_at_ne len (i : Z) t :
  Z.of_nat t ≠ (if (i <? 0)%Z then (i + Z.of_nat len)%Z else i) →
  selects len (At i) t = None.
Proof.
  intros Hne. unfold selects.
  destruct (Z.eqb_spec (Z.of_nat t)
              (if (i <? 0)%Z then (i + Z.of_nat len)%Z else i)); done.
Qed.

Lemma get2_assign2 ix0 ix1 src dst i j :
  get2 (assign2 ix0 ix1 src dst) i j
  = dst !! i ≫= λ row, row !! j ≫= λ v,
      Some (match selects (length dst) ix0 i,
                  selects (length row) ix1 j with
            | Some i', Some j' => src i' j'
            | _, _ => v
            end).
Proof.
  unfold get2, assign2. rewrite list_lookup_imap.
  destruct (dst !! i) as [row|]; simpl; [|done].
  destruct (selects (length dst) ix0 i) as [i'|].
  - rewrite list_lookup_imap. destruct (row !! j); simpl; [|done].
    by destruct (selects (length row) ix1 j).
  - by destruct (row !! j).
Qed.

Definition rect (n0 n1 : nat) (a : list (list R)) : Prop :=
  length a = n0 ∧ Forall (λ row, length row = n1) a.

Lemma rect_assign2 ix0 ix1 src dst n0 n1 :
  rect n0 n1 dst → rect n0 n1 (assign2 ix0 ix1 src dst).
Proof.
  intros [Hl Hr]. unfold assign2. split; [by rewrite length_imap|].
  apply Forall_lookup. intros i row. rewrite list_lookup_imap.
  destruct (dst !! i) as [r|] eqn:Hi; simpl; [|done].
  pose proof (proj1 (Forall_lookup _ _) Hr i r Hi) as Hlen.
  destruct (selects (length dst) ix0 i); intros [= <-]; [|done].
  by rewrite length_imap.
Qed.

(** An assignment that does not select (i, j) leaves that entry alone. *)
Lemma get2_assign2_other ix0 ix1 src dst n0 n1 i j :
  rect n0 n1 dst →
  selects n0 ix0 i = None ∨ selects n1 ix1 j = None →
  get2 (assign2 ix0 ix1 src dst) i j = get2 dst i j.
Proof.
  intros [Hl Hr] Hsel. rewrite get2_assign2. unfold get2.
  destruct (dst !! i) as [row|] eqn:Hi; simpl; [|done].
  pose proof (proj1 (Forall_lookup _ _) Hr i row Hi) as Hlen.
  destruct (row !! j) as [v|]; simpl; [|done].
  rewrite Hl, Hlen. destruct Hsel as [-> | ->]; [done|].
  by destruct (selects n0 ix0 i).
Qed.

Lemma get2_assign2_block src dst n0 n1 i j :
  rect n0 n1 dst → 1 ≤ i → i + 1 < n0 → 1 ≤ j → j + 1 < n1 →
  get2 (assign2 (Range 1 (-1)) (Range 1 (-1)) src dst) i j
  = Some (src (i - 1) (j - 1)).
Proof.
  intros [Hl Hr] Hi Hi' Hj Hj'. rewrite get2_assign2.
  destruct (lookup_lt_is_Some_2 dst i) as [row Hrow]; [lia|].
  rewrite Hrow. cbn [mbind option_bind].
  pose proof (proj1 (Forall_lookup _ _) Hr i row Hrow) as Hlen.
  simpl in Hlen.
  destruct (lookup_lt_is_Some_2 row j) as [v Hv]; [lia|].
  rewrite Hv. cbn [mbind option_bind]. rewrite Hl, Hlen.
  assert (py_bound n0 1 = 1) as E1 by (rewrite py_bound_nonneg; lia).
  assert (py_bound n1 1 = 1) as E2 by (rewrite py_bound_nonneg; lia).
  assert (py_bound n0 (-1) = n0 - 1) as E3 by (rewrite py_bound_neg; lia).
  assert (py_bound n1 (-1) = n1 - 1) as E4 by (rewrite py_bound_neg; lia).
  rewrite !selects_range_in by (rewrite ?E1, ?E2, ?E3, ?E4; lia).
  by rewrite E1, E2.
Qed.

Lemma lookup_linspace a b num i :
  i < num →
  linspace a b num !! i
  = Some (a + INR i * ((b - a) / INR (num - 1)))%R.
Proof.
  intros Hi. unfold linspace. rewrite list_lookup_fmap.
  by rewrite lookup_seq_lt.
Qed.

Lemma lookup_middle (l : list R) i :
  i + 3 ≤ length l →
  py_slice 1 (Some (-1)%Z) l !! i = l !! (i + 1).
Proof.
  intros Hi. rewrite lookup_py_slice.
  rewrite (py_bound_nonneg _ 1), (py_bound_neg _ (-1)) by lia.
  rewrite decide_True by lia. f_equal. lia.
Qed.

Lemma length_middle (l : list R) :
  length (py_slice 1 (Some (-1)%Z) l) = length l - 2.
Proof.
  rewrite length_py_slice, (py_bound_nonneg _ 1), (py_bound_neg _ (-1))
    by lia. lia.
Qed.

Lemma rect_zeros n0 n1 :
  rect n0 n1 (replicate n0 (replicate n1 0%R)).
Proof.
  split; [by rewrite length_replicate|].
  apply Forall_replicate. by rewrite length_replicate.
Qed.

(** The interior of the two weight arrays, as the code computes it. *)
Lemma weights_interior n0 n1 i j :
  1 ≤ i → i + 1 < n0 → 1 ≤ j → j + 1 < n1 →
  let k0 := (- PI + INR i * ((PI - - PI) / INR (n0 - 1)))%R in
  let k1 := (- PI + INR j * ((PI - - PI) / INR (n1 - 1)))%R in
  let c0 := (1 + cos k0)%R in
  let c1 := (1 + cos k1)%R in
  get2 (_weights (n0, n1)).1 i j = Some (c1 / (c0 + c1))%R ∧
  get2 (_weights (n0, n1)).2 i j = Some (c0 / (c0 + c1))%R.
Proof.
  intros Hi Hi' Hj Hj' k0 k1 c0 c1.
  unfold _weights. cbn [fst snd].
  set (k0m := py_slice 1 (Some (-1)%Z) (linspace (- PI) PI n0)).
  set (k1m := py_slice 1 (Some (-1)%Z) (linspace (- PI) PI n1)).
  assert (k0m !! (i - 1) = Some k0) as Hk0.
  { unfold k0m. rewrite lookup_middle by (rewrite length_linspace; lia).
    replace (i - 1 + 1) with i by lia. by apply lookup_linspace; lia. }
  assert (k1m !! (j - 1) = Some k1) as Hk1.
  { unfold k1m. rewrite lookup_middle by (rewrite length_linspace; lia).
    replace (j - 1 + 1) with j by lia. by apply lookup_linspace; lia. }
  set (K0 := (λ v : R, (λ _ : R, v) <$> k1m) <$> k0m).
  set (K1 := (λ _ : R, k1m) <$> k0m).
  assert (∀ f : R → R,
            get2 (fmap (M:=list) (fmap (M:=list) f) K0) (i - 1) (j - 1)
            = Some (f k0)) as HK0.
  { intros f. unfold get2, K0. rewrite !list_lookup_fmap, Hk0. simpl.
    by rewrite !list_lookup_fmap, Hk1. }
  assert (∀ f : R → R,
            get2 (fmap (M:=list) (fmap (M:=list) f) K1) (i - 1) (j - 1)
            = Some (f k1)) as HK1.
  { intros f. unfold get2, K1. rewrite !list_lookup_fmap, Hk0. simpl.
    by rewrite !list_lookup_fmap, Hk1. }
  assert (∀ f a b u v, get2 a (i - 1) (j - 1) = Some u →
            get2 b (i - 1) (j - 1) = Some v →
            get2 (zip2 f a b) (i - 1) (j - 1) = Some (f u v)) as Hzip.
  { intros f a b u v. unfold get2, zip2. rewrite lookup_zip_with.
    destruct (a !! (i - 1)) as [ra|]; simpl; [|done].
    destruct (b !! (i - 1)) as [rb|]; simpl; [|done].
    rewrite lookup_zip_with. by intros -> ->. }
  pose proof (rect_zeros n0 n1) as Hz.
  assert (selects n0 (At 0) i = None) as Hr0
    by (apply selects_at_ne; simpl; lia).
  assert (selects n0 (At (-1)) i = None) as Hr1
    by (apply selects_at_ne; simpl; lia).
  assert (selects n1 (At 0) j = None) as Hc0
    by (apply selects_at_ne; simpl; lia).
  assert (selects n1 (At (-1)) j = None) as Hc1
    by (apply selects_at_ne; simpl; lia).
  split.
  - do 6 (rewrite (get2_assign2_other _ _ _ _ n0 n1)
            by (repeat apply rect_assign2; auto)).
    rewrite (get2_assign2_block _ _ n0 n1) by done.
    f_equal. apply from2_get2.
    apply Hzip; [apply HK1|]. apply Hzip; [apply HK0|apply HK1].
  - do 6 (rewrite (get2_assign2_other _ _ _ _ n0 n1)
            by (repeat apply rect_assign2; auto)).
    rewrite (get2_assign2_block _ _ n0 n1) by done.
    f_equal. apply from2_get2.
    apply Hzip; [apply HK0|]. apply Hzip; [apply HK0|apply HK1].
Qed.
End weights.

(** C2, as the claim states it, fails: for the shape (3, 5) the interior
    entry (1, 1) has k0 = 0 and k1 = -pi/2, so c0 = 2 and c1 = 1; the code
    stores G1 = c0 / (c0 + c1) = 2/3 there, not c1 / (c0 + c1) = 1/3. *)
Lemma weights_claim_counterexample :
  let k0 := (- PI + INR 1 * ((PI - - PI) / INR (3 - 1)))%R in
  let k1 := (- PI + INR 1 * ((PI - - PI) / INR (5 - 1)))%R in
  let c0 := (1 + cos k0)%R in
  let c1 := (1 + cos k1)%R in
  Value.linspace (- PI) PI 3 !! 1 = Some k0 ∧
  Value.linspace (- PI) PI 5 !! 1 = Some k1 ∧
  get2 (Value._weights (3, 5)).2 1 1 ≠ Some (c1 / (c0 + c1))%R.
Proof.
  intros k0 k1 c0 c1.
  split; [by apply lookup_linspace; lia|].
  split; [by apply lookup_linspace; lia|].
  destruct (weights_interior 3 5 1 1) as [_ HG1]; [lia..|].
  cbv zeta in HG1. fold k0 k1 in HG1. fold c0 c1 in HG1. rewrite HG1.
  assert (k0 = 0%R) as Hk0 by (unfold k0; simpl; field).
  assert (k1 = (- (PI / 2))%R) as Hk1 by (unfold k1; simpl; field).
  assert (c0 = 2%R) as -> by (unfold c0; rewrite Hk0, cos_0; lra).
  assert (c1 = 1%R) as ->
    by (unfold c1; rewrite Hk1, cos_neg, cos_PI2; lra).
  intros [= Heq]. lra.
Qed.

(** C2, amended.  For every shape (n0, n1) with n0, n1 >= 3 and every
    interior entry (row 1..n0-2, column 1..n1-2), with k0 = linspace(-pi,
    pi, n0)[i], k1 = linspace(-pi, pi, n1)[j], c0 = 1 + cos k0 and
    c1 = 1 + cos k1, the weights are G1 = c0 / (c0 + c1) and
    G0 = c1 / (c0 + c1): each correction is weighted by the cosine term of
    the other axis. *)
Theorem weights_interior_formula (n0 n1 i j : nat) (k0 k1 : R) :
  3 ≤ n0 → 3 ≤ n1 → 1 ≤ i ≤ n0 - 2 → 1 ≤ j ≤ n1 - 2 →
  Value.linspace (- PI) PI n0 !! i = Some k0 →
  Value.linspace (- PI) PI n1 !! j = Some k1 →
  let c0 := (1 + cos k0)%R in
  let c1 := (1 + cos k1)%R in
  get2 (Value._weights (n0, n1)).2 i j = Some (c0 / (c0 + c1))%R ∧
  get2 (Value._weights (n0, n1)).1 i j = Some (c1 / (c0 + c1))%R.
Proof.
  intros Hn0 Hn1 Hi Hj Hk0 Hk1.
  rewrite lookup_linspace in Hk0 by lia. injection Hk0 as <-.
  rewrite lookup_linspace in Hk1 by lia. injection Hk1 as <-.
  destruct (weights_interior n0 n1 i j) as [HG0 HG1]; [lia..|].
  cbv zeta in *. by split.
Qed.

Lemma weights_interior_formula_witness :
  let k0 := (- PI + INR 1 * ((PI - - PI) / INR (3 - 1)))%R in
  let k1 := (- PI + INR 2 * ((PI - - PI) / INR (5 - 1)))%R in
  get2 (Value._weights (3, 5)).2 1 2
  = Some ((1 + cos k0) / ((1 + cos k0) + (1 + cos k1)))%R.
Proof.
  intros k0 k1.
  assert (Value.linspace (- PI) PI 3 !! 1 = Some k0) as H0
    by reflexivity.
  assert (Value.linspace (- PI) PI 5 !! 2 = Some k1) as H1
    by reflexivity.
  pose proof (weights_interior_formula 3 5 1 2 k0 k1) as Hw.
  cbv zeta in Hw.
  destruct Hw as [HG1 _]; [lia | lia | lia | lia | exact H0 | exact H1 |].
  exact HG1.
Defined.

(** ** Batches are processed slice by slice

    For a batch [x] (pixels are lists) the 2D slice [x[:, :, b]] is
    [slice3 d b x], an array of the [scalar] instance.  Every operation of
    the pipeline commutes with taking that slice. *)

Definition uniform {A} (K : nat) (x : list (list (list A))) : Prop :=
  Forall (Forall (λ p : list A, length p = K)) x.

Definition proj {A} (d : A) (b : nat) (p : list A) : A := default d (p !! b).

Lemma slice3_proj {A} (d : A) b x :
  slice3 d b x = fmap (M:=list) (fmap (M:=list) (proj d b)) x.
Proof. done. Qed.

Lemma proj_fmap {A B} (f : A → B) d d' b (p : list A) :
  b < length p → proj d' b (f <$> p) = f (proj d b p).
Proof.
  intros Hb. unfold proj. rewrite list_lookup_fmap.
  by destruct (lookup_lt_is_Some_2 p b Hb) as [v ->].
Qed.

Lemma proj_zip_with {A B C} (f : A → B → C) d1 d2 d b p q :
  b < length p → b < length q →
  proj d b (zip_with f p q) = f (proj d1 b p) (proj d2 b q).
Proof.
  intros Hp Hq. unfold proj. rewrite lookup_zip_with.
  destruct (lookup_lt_is_Some_2 p b Hp) as [u ->].
  by destruct (lookup_lt_is_Some_2 q b Hq) as [v ->].
Qed.

Lemma fmap_zip_with_Forall {A B C A' B' C'}
    (g : C → C') (h : A → B → C) (h' : A' → B' → C')
    (g1 : A → A') (g2 : B → B') (P : A → Prop) (Q : B → Prop) l k :
  Forall P l → Forall Q k →
  (∀ a b, P a → Q b → g (h a b) = h' (g1 a) (g2 b)) →
  g <$> zip_with h l k = zip_with h' (g1 <$> l) (g2 <$> k).
Proof.
  intros Hl. revert k. induction Hl as [|a l Ha Hl IH]; intros k Hk Hc.
  - done.
  - destruct Hk as [|b k Hb Hk]; simpl; [done|].
    rewrite Hc by done. f_equal. by apply IH.
Qed.

Lemma fmap_py_slice {A B} (f : A → B) s e (l : list A) :
  f <$> py_slice s e l = py_slice s e (f <$> l).
Proof.
  unfold py_slice. rewrite fmap_take, fmap_drop, length_fmap. done.
Qed.

Lemma fmap_roll {A B} (f : A → B) s (l : list A) :
  f <$> Value.roll s l = Value.roll s (f <$> l).
Proof.
  unfold Value.roll.
  by rewrite fmap_app, fmap_take, fmap_drop, length_fmap.
Qed.

Lemma ncols_fmap {A B} (f : A → B) (x : list (list A)) :
  ncols (fmap (M:=list) (fmap (M:=list) f) x) = ncols x.
Proof. destruct x; simpl; [done|apply length_fmap]. Qed.

Lemma omap_column_fmap {A B} (f : A → B) j (x : list (list A)) :
  omap (λ row : list B, row !! j) (fmap (M:=list) (fmap (M:=list) f) x)
  = f <$> omap (λ row : list A, row !! j) x.
Proof.
  induction x as [|row x IH]; simpl; [done|].
  rewrite list_lookup_fmap. destruct (row !! j); simpl.
  - f_equal. exact IH.
  - exact IH.
Qed.

(** Transposition is natural in the elements. *)
Lemma transpose_fmap {A B} (f : A → B) (x : list (list A)) :
  transpose (fmap (M:=list) (fmap (M:=list) f) x)
  = fmap (M:=list) (fmap (M:=list) f) (transpose x).
Proof.
  unfold transpose. rewrite ncols_fmap, <-list_fmap_compose.
  apply list_fmap_ext. intros _ j _. unfold compose.
  apply omap_column_fmap.
Qed.

Lemma fftshift_fmap {A B} (f : A → B) (x : list (list A)) :
  Value.fftshift (fmap (M:=list) (fmap (M:=list) f) x)
  = fmap (M:=list) (fmap (M:=list) f) (Value.fftshift x).
Proof.
  unfold Value.fftshift. rewrite ncols_fmap, length_fmap, fmap_roll.
  f_equal. rewrite <-!list_fmap_compose. apply list_fmap_ext.
  intros _ row _. unfold compose. by rewrite fmap_roll.
Qed.

Lemma cols_fmap {A B} (f : A → B) s e (x : list (list A)) :
  cols s e (fmap (M:=list) (fmap (M:=list) f) x)
  = fmap (M:=list) (fmap (M:=list) f) (cols s e x).
Proof.
  unfold cols. rewrite <-!list_fmap_compose. apply list_fmap_ext.
  intros _ row _. unfold compose. by rewrite fmap_py_slice.
Qed.

Section uniform_facts.
Context {A : Type}.
Implicit Types x : list (list (list A)).

Lemma uniform_cols K s e x : uniform K x → uniform K (cols s e x).
Proof.
  intros Hx. unfold cols. apply Forall_fmap.
  eapply Forall_impl; [exact Hx|]. simpl. intros row Hrow.
  unfold py_slice. by apply Forall_take, Forall_drop.
Qed.

Lemma uniform_fftshift K x : uniform K x → uniform K (Value.fftshift x).
Proof.
  intros Hx. unfold Value.fftshift. apply Forall_roll, Forall_fmap.
  eapply Forall_impl; [exact Hx|]. simpl. intros row Hrow.
  by apply Forall_roll.
Qed.

Lemma Forall_omap_column (P : list A → Prop) j (y : list (list (list A))) :
  Forall (Forall P) y →
  Forall P (omap (λ row : list (list A), row !! j) y).
Proof.
  induction 1 as [|row y Hrow Hy IH]; simpl; [constructor|].
  destruct (row !! j) as [p|] eqn:Hp; [|exact IH].
  constructor; [|exact IH].
  by apply (proj1 (Forall_lookup _ _) Hrow j p).
Qed.

Lemma uniform_transpose K x : uniform K x → uniform K (transpose x).
Proof.
  intros Hx. unfold transpose. apply Forall_fmap, Forall_forall.
  intros j _. by apply Forall_omap_column.
Qed.
End uniform_facts.

Lemma uniform_padded K n (x : list (list (list R))) :
  uniform K x → uniform K (padded (F:=list) n x).
Proof.
  intros Hx. unfold padded. apply Forall_fmap.
  eapply Forall_impl; [exact Hx|]. simpl. intros row Hrow.
  unfold py_slice.
  repeat (apply Forall_app; split);
    by (done || apply Forall_take, Forall_drop).
Qed.

Lemma Forall_zip_with_compat {A B C} (P : A → Prop) (Q : B → Prop)
    (S : C → Prop) (h : A → B → C) l k :
  Forall P l → Forall Q k → (∀ a b, P a → Q b → S (h a b)) →
  Forall S (zip_with h l k).
Proof.
  intros Hl. revert k. induction Hl as [|a l Ha Hl IH]; intros k Hk Hh.
  - constructor.
  - destruct Hk as [|b k Hb Hk]; simpl; constructor; [by apply Hh|].
    by apply IH.
Qed.

Lemma uniform_amap {A B} (f : A → B) K (x : list (list (list A))) :
  uniform K x → uniform K (amap (F:=list) f x).
Proof.
  intros Hx. unfold amap. apply Forall_fmap.
  eapply Forall_impl; [exact Hx|]. simpl. intros row Hrow.
  apply Forall_fmap. eapply Forall_impl; [exact Hrow|]. simpl.
  intros p Hp. by rewrite length_fmap.
Qed.

Lemma uniform_azip {A B C} (f : A → B → C) K
    (x : list (list (list A))) (y : list (list (list B))) :
  uniform K x → uniform K y → uniform K (azip (F:=list) f x y).
Proof.
  intros Hx Hy. unfold azip.
  eapply Forall_zip_with_compat; [exact Hx|exact Hy|].
  intros r r' Hr Hr'.
  eapply Forall_zip_with_compat; [exact Hr|exact Hr'|].
  simpl. intros p q Hp Hq. rewrite length_zip_with. lia.
Qed.

Lemma uniform_bslices {A B} (da : A) (db : B) f K
    (x : list (list (list A))) :
  uniform K x → uniform K (bslices (F:=list) da db f x).
Proof.
  intros Hx. simpl. apply Forall_lookup. intros i row.
  rewrite list_lookup_imap.
  destruct (x !! i) as [r|] eqn:Hi; simpl; [|done]. intros [= <-].
  pose proof (proj1 (Forall_lookup _ _) Hx i r Hi) as Hr.
  apply Forall_lookup. intros j p. rewrite list_lookup_imap.
  destruct (r !! j) as [q|] eqn:Hj; simpl; [|done]. intros [= <-].
  rewrite length_imap. by apply (proj1 (Forall_lookup _ _) Hr j q).
Qed.

Lemma has_shape_uniform {A} n0 n1 K (x : list (list (list A))) :
  has_shape (F:=list) n0 n1 K x → uniform K x.
Proof.
  intros [_ Hx]. eapply Forall_impl; [exact Hx|]. by intros ? [_ ?].
Qed.

(** A transform whose result has the rows of its argument, sample for
    sample (the Fourier sums of this file are defined that way). *)
Definition keeps_skeleton {A B} (f : list (list A) → list (list B)) : Prop :=
  ∀ y, length (f y) = length y ∧
       ∀ i r r', y !! i = Some r → f y !! i = Some r' → length r' = length r.

Lemma fft2_keeps_skeleton : keeps_skeleton Value.fft2.
Proof.
  intros y. unfold Value.fft2. split; [by rewrite length_imap|].
  intros i r r' Hr. rewrite list_lookup_imap, Hr. simpl.
  intros [= <-]. by rewrite length_imap.
Qed.

Lemma ifft2_keeps_skeleton : keeps_skeleton Value.ifft2.
Proof.
  intros y. unfold Value.ifft2. split; [by rewrite length_imap|].
  intros i r r' Hr. rewrite list_lookup_imap, Hr. simpl.
  intros [= <-]. by rewrite length_imap.
Qed.

Section slice_equations.
Context {A B C : Type}.

Lemma slice_amap (f : A → B) d d' K b (x : list (list (list A))) :
  uniform K x → b < K →
  slice3 d' b (amap (F:=list) f x) = amap (F:=scalar) f (slice3 d b x).
Proof.
  intros Hx Hb. unfold amap, slice3. rewrite <-!list_fmap_compose.
  apply Forall_fmap_ext. eapply Forall_impl; [exact Hx|]. simpl.
  intros row Hrow. rewrite <-!list_fmap_compose.
  apply Forall_fmap_ext. eapply Forall_impl; [exact Hrow|]. simpl.
  intros p Hp. apply (proj_fmap f d d'). lia.
Qed.

Lemma slice_azip (f : A → B → C) d1 d2 d K b
    (x : list (list (list A))) (y : list (list (list B))) :
  uniform K x → uniform K y → b < K →
  slice3 d b (azip (F:=list) f x y)
  = azip (F:=scalar) f (slice3 d1 b x) (slice3 d2 b y).
Proof.
  intros Hx Hy Hb. unfold azip, slice3.
  eapply fmap_zip_with_Forall; [exact Hx|exact Hy|].
  intros r r' Hr Hr'.
  eapply fmap_zip_with_Forall; [exact Hr|exact Hr'|].
  simpl. intros p q Hp Hq. apply proj_zip_with; lia.
Qed.

Lemma slice_bslices (da : A) (db : B) f K b (x : list (list (list A))) :
  keeps_skeleton f → uniform K x → b < K →
  slice3 db b (bslices (F:=list) da db f x)
  = bslices (F:=scalar) da db f (slice3 da b x).
Proof.
  intros Hf Hx Hb. simpl. destruct (Hf (slice3 da b x)) as [Hlen Hrows].
  apply list_eq. intros i. unfold slice3 at 1.
  rewrite list_lookup_fmap, list_lookup_imap.
  destruct (x !! i) as [row|] eqn:Hi; simpl.
  - pose proof (proj1 (Forall_lookup _ _) Hx i row Hi) as Hrow.
    assert (slice3 da b x !! i = Some (proj da b <$> row)) as Hsi
      by (unfold slice3; by rewrite list_lookup_fmap, Hi).
    destruct (lookup_lt_is_Some_2 (f (slice3 da b x)) i) as [r' Hr'].
    { rewrite Hlen. unfold slice3. rewrite length_fmap.
      by apply lookup_lt_Some in Hi. }
    pose proof (Hrows i _ r' Hsi Hr') as Hlr. rewrite length_fmap in Hlr.
    rewrite Hr'. f_equal. apply list_eq. intros j.
    rewrite list_lookup_fmap, list_lookup_imap.
    destruct (row !! j) as [p|] eqn:Hj; simpl.
    + pose proof (proj1 (Forall_lookup _ _) Hrow j p Hj) as Hp.
      simpl in Hp.
      destruct (lookup_lt_is_Some_2 r' j) as [v Hv].
      { rewrite Hlr. by apply lookup_lt_Some in Hj. }
      transitivity (Some v); [|symmetry; exact Hv].
      f_equal. unfold proj. rewrite list_lookup_imap.
      destruct (lookup_lt_is_Some_2 p b) as [u ->]; [lia|]. simpl.
      rewrite Hr'. simpl. by rewrite Hv.
    + symmetry. apply lookup_ge_None. rewrite Hlr.
      by apply lookup_ge_None in Hj.
  - symmetry. apply lookup_ge_None. rewrite Hlen. unfold slice3.
    rewrite length_fmap. by apply lookup_ge_None in Hi.
Qed.
End slice_equations.

Lemma slice_transpose {A} (d : A) b (x : list (list (list A))) :
  slice3 d b (transpose x) = transpose (slice3 d b x).
Proof. unfold slice3. by rewrite transpose_fmap. Qed.

Lemma slice_fftshift {A} (d : A) b (x : list (list (list A))) :
  slice3 d b (Value.fftshift x) = Value.fftshift (slice3 d b x).
Proof. unfold slice3. by rewrite fftshift_fmap. Qed.

Lemma slice_cols {A} (d : A) b s e (x : list (list (list A))) :
  slice3 d b (cols s e x) = cols s e (slice3 d b x).
Proof. unfold slice3. by rewrite cols_fmap. Qed.

Lemma slice_padded (d : R) b n (x : list (list (list R))) :
  slice3 d b (padded (F:=list) n x) = padded (F:=scalar) n (slice3 d b x).
Proof.
  unfold slice3, padded. rewrite <-!list_fmap_compose.
  apply list_fmap_ext. intros _ row _. unfold compose.
  by rewrite !fmap_app, !fmap_py_slice.
Qed.

Lemma ncols_slice3 {A} (d : A) b (x : list (list (list A))) :
  ncols (slice3 d b x) = ncols x.
Proof. apply ncols_fmap. Qed.

Section sliced.
Variables (K b : nat).
Hypothesis Hb : b < K.
Import Value.

(** [y] is the slice [x[:, :, b]] of a batch [x] of [K] images. *)
Definition sliced {A} (d : A) (x : list (list (list A)))
    (y : list (list A)) : Prop :=
  uniform K x ∧ y = slice3 d b x.

Lemma sliced_amap {A B} (f : A → B) d d' x y :
  sliced d x y → sliced d' (amap (F:=list) f x) (amap (F:=scalar) f y).
Proof using Hb.
  intros [Hx ->]. split; [by apply uniform_amap|].
  symmetry. by apply (slice_amap f d d' K).
Qed.

Lemma sliced_azip {A B C} (f : A → B → C) d1 d2 d x1 y1 x2 y2 :
  sliced d1 x1 y1 → sliced d2 x2 y2 →
  sliced d (azip (F:=list) f x1 x2) (azip (F:=scalar) f y1 y2).
Proof using Hb.
  intros [Hx1 ->] [Hx2 ->]. split; [by apply uniform_azip|].
  symmetry. by apply (slice_azip f d1 d2 d K).
Qed.

Lemma sliced_cols {A} (d : A) s e x y :
  sliced d x y → sliced d (cols s e x) (cols s e y).
Proof.
  intros [Hx ->]. split; [by apply uniform_cols|]. by rewrite slice_cols.
Qed.

Lemma sliced_transpose {A} (d : A) x y :
  sliced d x y → sliced d (transpose x) (transpose y).
Proof.
  intros [Hx ->]. split; [by apply uniform_transpose|].
  by rewrite slice_transpose.
Qed.

Lemma sliced_fftshift {A} (d : A) x y :
  sliced d x y → sliced d (fftshift x) (fftshift y).
Proof.
  intros [Hx ->]. split; [by apply uniform_fftshift|].
  by rewrite slice_fftshift.
Qed.

Lemma sliced_padded d n x y :
  sliced d x y → sliced d (padded (F:=list) n x) (padded (F:=scalar) n y).
Proof.
  intros [Hx ->]. split; [by apply uniform_padded|].
  by rewrite slice_padded.
Qed.

Lemma sliced_bslices {A B} (da : A) (db : B) f x y :
  keeps_skeleton f → sliced da x y →
  sliced db (bslices (F:=list) da db f x) (bslices (F:=scalar) da db f y).
Proof using Hb.
  intros Hf [Hx ->]. split; [by apply uniform_bslices|].
  symmetry. by apply (slice_bslices da db f K).
Qed.

Lemma sliced_ncols {A} (d : A) x y : sliced d x y → ncols y = ncols x.
Proof. intros [_ ->]. apply ncols_slice3. Qed.

Lemma sliced_length {A} (d : A) x y : sliced d x y → length y = length x.
Proof. intros [_ ->]. unfold slice3. by rewrite length_fmap. Qed.

Lemma sliced_mul_axis1 d x y eks :
  sliced d x y →
  sliced d (mul_axis1 (F:=list) x eks) (mul_axis1 (F:=scalar) y eks).
Proof using Hb.
  intros [Hx ->]. unfold mul_axis1. split.
  - apply Forall_fmap. eapply Forall_impl; [exact Hx|]. simpl.
    intros row Hrow.
    eapply (Forall_zip_with_compat _ (λ _, True)); [exact Hrow| |].
    + by apply Forall_true.
    + simpl. intros p e Hp _. by rewrite length_fmap.
  - symmetry. unfold slice3. rewrite <-!list_fmap_compose.
    apply Forall_fmap_ext. eapply Forall_impl; [exact Hx|]. simpl.
    intros row Hrow. symmetry.
    rewrite <-(list_fmap_id eks) at 1. symmetry.
    eapply (fmap_zip_with_Forall _ _ _ _ _ _ (λ _, True));
      [exact Hrow|by apply Forall_true|].
    simpl. intros p e Hp _.
    apply (proj_fmap (λ z, Cmul z e) d d b p). lia.
Qed.

Lemma sliced_mul_weights d x y (G : list (list R)) :
  sliced d x y →
  sliced d (mul_weights (F:=list) x G) (mul_weights (F:=scalar) y G).
Proof using Hb.
  intros [Hx ->]. unfold mul_weights. split.
  - eapply (Forall_zip_with_compat _ (λ _, True));
      [exact Hx|by apply Forall_true|].
    intros row g Hrow _.
    eapply (Forall_zip_with_compat _ (λ _, True));
      [exact Hrow|by apply Forall_true|].
    simpl. intros p e Hp _. by rewrite length_fmap.
  - symmetry. unfold slice3. symmetry.
    rewrite <-(list_fmap_id G) at 1. symmetry.
    eapply (fmap_zip_with_Forall _ _ _ _ _ _ (λ _, True));
      [exact Hx|by apply Forall_true|].
    intros row g Hrow _. symmetry.
    rewrite <-(list_fmap_id g) at 1. symmetry.
    eapply (fmap_zip_with_Forall _ _ _ _ _ _ (λ _, True));
      [exact Hrow|by apply Forall_true|].
    simpl. intros p e Hp _.
    apply (proj_fmap (λ z, Cscale z e) d d b p). lia.
Qed.
End sliced.

Section sliced_pipeline.
Variables (K b : nat).
Hypothesis Hb : b < K.
Import Value.

Abbreviation sl := (sliced K b).

Lemma sliced_abs_diff x1 y1 x2 y2 :
  sl 0%R x1 y1 → sl 0%R x2 y2 →
  sl 0%R (abs_diff (F:=list) x1 x2) (abs_diff (F:=scalar) y1 y2).
Proof using Hb. intros. unfold abs_diff. by eapply sliced_azip. Qed.

Lemma sliced_tv_fold n xs xs' ks acc acc' :
  sl 0%R xs xs' → sl 0%R acc.1 acc'.1 → sl 0%R acc.2 acc'.2 →
  sl 0%R (foldl (tv_step (F:=list) n xs) acc ks).1
         (foldl (tv_step (F:=scalar) n xs') acc' ks).1 ∧
  sl 0%R (foldl (tv_step (F:=list) n xs) acc ks).2
         (foldl (tv_step (F:=scalar) n xs') acc' ks).2.
Proof using Hb.
  intros Hxs. revert acc acc'.
  induction ks as [|k ks IH]; intros acc acc' H1 H2; [done|].
  simpl. apply IH; unfold tv_step; cbn [fst snd].
  - eapply sliced_azip; [done..|].
    apply sliced_abs_diff; by apply sliced_cols.
  - eapply sliced_azip; [done..|].
    apply sliced_abs_diff; by apply sliced_cols.
Qed.

Lemma sliced_image_tv x y axis n :
  sl 0%R x y →
  sl 0%R (_image_tv (F:=list) x axis n).1
         (_image_tv (F:=scalar) y axis n).1 ∧
  sl 0%R (_image_tv (F:=list) x axis n).2
         (_image_tv (F:=scalar) y axis n).2.
Proof using Hb.
  intros Hx. unfold _image_tv.
  assert (∀ xs ys, sl 0%R xs ys →
    let r := foldl (tv_step (F:=list) n (padded n xs))
      (abs_diff (cols (Z.of_nat n + 1)%Z (Some (- Z.of_nat n - 1)%Z)
                   (padded n xs))
                (cols (Z.of_nat n + 2)%Z (Some (- Z.of_nat n)%Z)
                   (padded n xs)),
       abs_diff (cols (Z.of_nat n + 1)%Z (Some (- Z.of_nat n - 1)%Z)
                   (padded n xs))
                (cols (Z.of_nat n) (Some (- Z.of_nat n - 2)%Z)
                   (padded n xs)))
      (py_range 1 n) in
    let r' := foldl (tv_step (F:=scalar) n (padded n ys))
      (abs_diff (cols (Z.of_nat n + 1)%Z (Some (- Z.of_nat n - 1)%Z)
                   (padded n ys))
                (cols (Z.of_nat n + 2)%Z (Some (- Z.of_nat n)%Z)
                   (padded n ys)),
       abs_diff (cols (Z.of_nat n + 1)%Z (Some (- Z.of_nat n - 1)%Z)
                   (padded n ys))
                (cols (Z.of_nat n) (Some (- Z.of_nat n - 2)%Z)
                   (padded n ys)))
      (py_range 1 n) in
    sl 0%R r.1 r'.1 ∧ sl 0%R r.2 r'.2) as Hfold.
  { intros xs ys Hxs. cbv zeta.
    pose proof (sliced_padded K b 0%R n _ _ Hxs) as Hp.
    apply sliced_tv_fold; [done|..]; cbn [fst snd];
      apply sliced_abs_diff; by apply sliced_cols. }
  destruct axis as [|axis].
  - destruct (Hfold _ _ (sliced_transpose K b _ _ _ Hx)) as [H1 H2].
    cbn [fst snd]. split; apply sliced_transpose; [exact H1|exact H2].
  - exact (Hfold _ _ Hx).
Qed.

Lemma sliced_mask_set m m' src src' dst dst' :
  sl false m m' → sl 0%R src src' → sl 0%R dst dst' →
  sl 0%R (mask_set (F:=list) m src dst) (mask_set (F:=scalar) m' src' dst').
Proof using Hb.
  intros Hm Hs Hd. unfold mask_set.
  eapply sliced_azip; [done| |done].
  eapply (sliced_azip K b Hb pair false 0%R (false, 0%R)); done.
Qed.

Lemma sliced_mask_fill m m' s dst dst' :
  sl false m m' → sl 0%R dst dst' →
  sl 0%R (mask_fill (F:=list) m s dst) (mask_fill (F:=scalar) m' s dst').
Proof using Hb. intros Hm Hd. unfold mask_fill. by eapply sliced_azip. Qed.

Lemma sliced_shifted_image c c' eks :
  sl (0%R, 0%R) c c' →
  sl 0%R (shifted_image (F:=list) c eks) (shifted_image (F:=scalar) c' eks).
Proof using Hb.
  intros Hc. unfold shifted_image, ifft2b.
  eapply sliced_amap; [done|].
  apply sliced_bslices; [done|apply ifft2_keeps_skeleton|].
  by apply sliced_fftshift, sliced_mul_axis1.
Qed.

Lemma sliced_tv_score x y n :
  sl 0%R x y →
  sl 0%R (azip (F:=list) Rmin (_image_tv x 1 n).1 (_image_tv x 1 n).2)
         (azip (F:=scalar) Rmin (_image_tv y 1 n).1 (_image_tv y 1 n).2).
Proof using Hb.
  intros Hx. destruct (sliced_image_tv x y 1 n Hx) as [H1 H2].
  by eapply sliced_azip.
Qed.

(** The search states of a batch and of one of its slices. *)
Definition sliced_search (st : search (F:=list))
    (st' : search (F:=scalar)) : Prop :=
  sl 0%R (isp st) (isp st') ∧ sl 0%R (sp st) (sp st') ∧
  sl 0%R (tvp st) (tvp st') ∧ sl 0%R (isn st) (isn st') ∧
  sl 0%R (sn st) (sn st') ∧ sl 0%R (tvn st) (tvn st').

Lemma sliced_search_step n c c' k st st' s :
  sl (0%R, 0%R) c c' → sliced_search st st' →
  sliced_search (search_step n c k st s) (search_step n c' k st' s).
Proof using Hb.
  intros Hc (H1 & H2 & H3 & H4 & H5 & H6).
  unfold sliced_search, search_step. cbn [isp sp tvp isn sn tvn].
  assert (∀ eks, sl 0%R (shifted_image (F:=list) c eks)
                   (shifted_image (F:=scalar) c' eks)) as Himg
    by (intros; by apply sliced_shifted_image).
  assert (∀ x y x2 y2, sl 0%R x y → sl 0%R x2 y2 →
            sl false (azip (F:=list) Rgtb x x2)
                     (azip (F:=scalar) Rgtb y y2)) as Hgt
    by (intros; by eapply sliced_azip).
  split_and!;
    (apply sliced_mask_set || apply sliced_mask_fill);
    repeat (done || apply Hgt || apply sliced_tv_score || apply Himg).
Qed.

Lemma sliced_search_init n xs xs' :
  sl 0%R xs xs' → sliced_search (search_init n xs) (search_init n xs').
Proof using Hb.
  intros Hx. unfold sliced_search, search_init.
  cbn [isp sp tvp isn sn tvn].
  pose proof (sliced_tv_score _ _ n Hx).
  pose proof (sliced_amap K b Hb (λ _ : R, 0%R) 0%R 0%R _ _ Hx).
  done.
Qed.

Lemma sliced_spectrum xs xs' :
  sl 0%R xs xs' →
  sl (0%R, 0%R) (fftshift (fft2b (F:=list) (amap of_real xs)))
                (fftshift (fft2b (F:=scalar) (amap of_real xs'))).
Proof using Hb.
  intros Hx. apply sliced_fftshift. unfold fft2b.
  apply sliced_bslices; [done|apply fft2_keeps_skeleton|].
  by eapply sliced_amap.
Qed.

Lemma sliced_shift_search n xs xs' cands :
  sl 0%R xs xs' →
  sliced_search (shift_search n xs cands) (shift_search n xs' cands).
Proof using Hb.
  intros Hx. unfold shift_search.
  assert (ncols (A:=scalar R) xs' = ncols xs) as ->
    by exact (sliced_ncols K b _ _ _ Hx).
  pose proof (sliced_spectrum _ _ Hx) as Hc.
  pose proof (sliced_search_init n _ _ Hx) as Hinit.
  revert Hinit. generalize (search_init (F:=list) n xs).
  generalize (search_init (F:=scalar) n xs').
  induction cands as [|s cands IH]; intros st' st Hst; simpl; [done|].
  apply IH. by apply sliced_search_step.
Qed.

Lemma sliced_interpolate st st' xs xs' :
  sliced_search st st' → sl 0%R xs xs' →
  sl 0%R (interpolate st xs) (interpolate st' xs').
Proof using Hb.
  intros (H1 & H2 & H3 & H4 & H5 & H6) Hx. unfold interpolate.
  assert (∀ f x y x2 y2, sl 0%R x y → sl 0%R x2 y2 →
            sl 0%R (azip (F:=list) f x x2) (azip (F:=scalar) f y y2))
    as Hz by (intros; by eapply sliced_azip).
  apply sliced_mask_set; [|by repeat apply Hz|done].
  eapply sliced_amap; [done|]. by apply Hz.
Qed.

Lemma sliced_gibbs_removal_1d x y axis n :
  sl 0%R x y →
  sl 0%R (_gibbs_removal_1d (F:=list) x axis n)
         (_gibbs_removal_1d (F:=scalar) y axis n).
Proof using Hb.
  intros Hx. unfold _gibbs_removal_1d. destruct axis as [|axis].
  - apply sliced_transpose.
    pose proof (sliced_transpose K b _ _ _ Hx) as Hxt.
    by apply sliced_interpolate; [apply sliced_shift_search|].
  - by apply sliced_interpolate; [apply sliced_shift_search|].
Qed.

Lemma sliced_gibbs_removal_2d x y n G0 G1 :
  sl 0%R x y →
  sl 0%R (_gibbs_removal_2d (F:=list) x n (Some G0) (Some G1))
         (_gibbs_removal_2d (F:=scalar) y n (Some G0) (Some G1)).
Proof using Hb.
  intros Hx. unfold _gibbs_removal_2d. cbn [fst snd].
  pose proof (sliced_gibbs_removal_1d x y 1 n Hx) as H1.
  pose proof (sliced_gibbs_removal_1d x y 0 n Hx) as H0.
  assert (∀ u v, sl 0%R u v →
            sl (0%R, 0%R) (fftshift (fft2b (F:=list) (amap of_real u)))
               (fftshift (fft2b (F:=scalar) (amap of_real v)))) as Hs
    by (intros; by apply sliced_spectrum).
  eapply sliced_amap; [done|]. unfold ifft2b.
  apply sliced_bslices; [done|apply ifft2_keeps_skeleton|].
  eapply sliced_azip; [done| |]; apply sliced_mul_weights; auto.
Qed.
End sliced_pipeline.

(** ** Volumes of rank 3 and 4 *)

(** [n0] rows of [n1] elements, each element satisfying [P]. *)
Definition rect_with {A} (n0 n1 : nat) (P : A → Prop) (x : list (list A))
  : Prop :=
  length x = n0 ∧ Forall (λ row, length row = n1 ∧ Forall P row) x.

Definition rect3 {A} (n0 n1 n2 : nat) (x : list (list (list A))) : Prop :=
  rect_with n0 n1 (λ p, length p = n2) x.

Definition rect4 {A} (n0 n1 n2 n3 : nat) (x : list (list (list (list A))))
  : Prop :=
  rect_with n0 n1 (λ p, rect_with n2 n3 (λ _, True) p) x.

Lemma rect_with_rows {A} n0 n1 (P : A → Prop) x :
  rect_with n0 n1 P x → Forall (λ row, length row = n1) x.
Proof. intros [_ Hx]. eapply Forall_impl; [exact Hx|]. by intros ? [? _]. Qed.

Lemma rect_with_transpose {A} n0 n1 (P : A → Prop) x :
  rect_with n0 n1 P x → 0 < n0 → rect_with n1 n0 P (transpose x).
Proof.
  intros Hx Hn0. pose proof (rect_with_rows _ _ _ _ Hx) as Hrect.
  destruct Hx as [Hl Hs].
  split; [apply length_transpose; [done|lia]|].
  apply Forall_lookup. intros j col Hcol.
  assert (j < n1) as Hj.
  { apply lookup_lt_Some in Hcol.
    by rewrite (length_transpose x n1) in Hcol by (done || lia). }
  rewrite (lookup_transpose x n1) in Hcol by (done || lia).
  injection Hcol as <-.
  split; [rewrite (length_omap_column x n1) by done; lia|].
  apply Forall_lookup. intros i p.
  rewrite (lookup_omap_column x n1) by done.
  destruct (x !! i) as [row|] eqn:Hi; simpl; [|done].
  intros Hp. destruct (proj1 (Forall_lookup _ _) Hs i row Hi) as [_ Hb].
  by apply (proj1 (Forall_lookup _ _) Hb j p).
Qed.

Lemma rect_with_impl {A} n0 n1 (P Q : A → Prop) x :
  rect_with n0 n1 P x → (∀ p, P p → Q p) → rect_with n0 n1 Q x.
Proof.
  intros [Hl Hx] HPQ. split; [done|].
  eapply Forall_impl; [exact Hx|]. simpl. intros row [Hr Hp].
  split; [done|]. by eapply Forall_impl.
Qed.

Lemma rect_with_fmap_rows {A B} n0 n1 m1 (P : A → Prop) (Q : B → Prop)
    (f : list A → list B) x :
  length x = n0 →
  Forall (λ row, length row = n1 ∧ Forall P row) x →
  (∀ row, length row = n1 → Forall P row →
          length (f row) = m1 ∧ Forall Q (f row)) →
  rect_with n0 m1 Q (f <$> x).
Proof.
  intros Hl Hx Hf. split; [by rewrite length_fmap|].
  apply Forall_fmap. eapply Forall_impl; [exact Hx|]. simpl.
  intros row [Hr Hp]. by apply Hf.
Qed.

(** The shape of [np.swapaxes(vol, a, 2)]. *)
Definition swapped_dims (a : nat) (d : nat * nat * nat) : nat * nat * nat :=
  match a with
  | 0 => (d.2, d.1.2, d.1.1)
  | 1 => (d.1.1, d.2, d.1.2)
  | _ => d
  end.

Lemma rect_with_swapaxes2 {A} (Q : A → Prop) a n0 n1 n2
    (x : list (list (list A))) :
  rect_with n0 n1 (λ p, length p = n2 ∧ Forall Q p) x →
  0 < n0 → 0 < n1 → 0 < n2 →
  let d := swapped_dims a (n0, n1, n2) in
  rect_with d.1.1 d.1.2 (λ p, length p = d.2 ∧ Forall Q p)
            (Value.swapaxes2 a x).
Proof.
  intros Hx H0 H1 H2. destruct a as [|[|a]]; simpl; [| |done].
  - (* axes 0 and 2 *)
    apply rect_with_transpose ; [|done].
    pose proof (rect_with_transpose _ _ _ _ Hx H0) as [Hl Ht].
    eapply rect_with_fmap_rows; [exact Hl|exact Ht|].
    intros row Hr Hp.
    destruct (rect_with_transpose n0 n2 Q row) as [Hl' Ht']; [by split|done|].
    split; [done|]. eapply Forall_impl; [exact Ht'|]. done.
  - (* axes 1 and 2 *)
    destruct Hx as [Hl Hx].
    split; [by rewrite length_fmap|]. apply Forall_fmap.
    eapply Forall_impl; [exact Hx|]. simpl. intros row [Hr Hp].
    destruct (rect_with_transpose n1 n2 Q row) as [Hl' Ht']; [by split|done|].
    split; [done|]. eapply Forall_impl; [exact Ht'|]. done.
Qed.

(** Swapping axes is natural in the elements of a volume. *)
Lemma swapaxes2_fmap {A B} (h : A → B) a (x : list (list (list A))) :
  Value.swapaxes2 a
    (fmap (M:=list) (fmap (M:=list) (fmap (M:=list) h)) x)
  = fmap (M:=list) (fmap (M:=list) (fmap (M:=list) h)) (Value.swapaxes2 a x).
Proof.
  assert (∀ y : list (list (list A)),
            transpose (A:=B)
              <$> (fmap (M:=list) (fmap (M:=list) (fmap (M:=list) h)) y)
            = fmap (M:=list) (fmap (M:=list) (fmap (M:=list) h))
                (transpose (A:=A) <$> y))
    as Hinner.
  { intros y. rewrite <-!list_fmap_compose. apply list_fmap_ext.
    intros _ row _. unfold compose. apply transpose_fmap. }
  destruct a as [|[|a]]; simpl; [| |done].
  - by rewrite (transpose_fmap (fmap h)), Hinner, (transpose_fmap (fmap h)).
  - apply Hinner.
Qed.

Lemma lookup_join_uniform {A} G (pp : list (list A)) z g :
  Forall (λ q, length q = G) pp → g < G →
  mjoin pp !! (z * G + g) = pp !! z ≫= (.!! g).
Proof.
  intros Hpp Hg. revert z. induction Hpp as [|q pp Hq Hpp IH]; intros z.
  - done.
  - simpl. destruct z as [|z]; simpl.
    + rewrite lookup_app_l by lia. done.
    + rewrite lookup_app_r by lia.
      replace (G + z * G + g - length q) with (z * G + g) by lia.
      apply IH.
Qed.

Lemma length_join_uniform {A} G (pp : list (list A)) :
  Forall (λ q, length q = G) pp → length (mjoin pp) = length pp * G.
Proof.
  induction 1 as [|q pp Hq Hpp IH]; simpl; [done|].
  rewrite length_app, IH. lia.
Qed.

(** A batch is determined by its slices. *)
Lemma batch_ext {A} (d : A) K (x y : list (list (list A))) :
  uniform K x → uniform K y → 0 < K →
  (∀ z, z < K → slice3 d z x = slice3 d z y) → x = y.
Proof.
  intros Hx Hy HK Hs. apply list_eq. intros i.
  assert (∀ z, z < K →
            fmap (M:=list) (proj d z) <$> (x !! i)
            = fmap (M:=list) (proj d z) <$> (y !! i)) as Hi.
  { intros z Hz. rewrite <-!list_lookup_fmap. f_equal. by apply Hs. }
  destruct (x !! i) as [r|] eqn:Hxi, (y !! i) as [r'|] eqn:Hyi;
    try (specialize (Hi 0 HK); done).
  f_equal. apply list_eq. intros j.
  pose proof (proj1 (Forall_lookup _ _) Hx i r Hxi) as Hr.
  pose proof (proj1 (Forall_lookup _ _) Hy i r' Hyi) as Hr'.
  assert (∀ z, z < K → proj d z <$> (r !! j) = proj d z <$> (r' !! j)) as Hj.
  { intros z Hz. rewrite <-!list_lookup_fmap. f_equal.
    specialize (Hi z Hz). by injection Hi. }
  destruct (r !! j) as [p|] eqn:Hrj, (r' !! j) as [p'|] eqn:Hrj';
    try (specialize (Hj 0 HK); done).
  f_equal.
  pose proof (proj1 (Forall_lookup _ _) Hr j p Hrj) as Hp.
  pose proof (proj1 (Forall_lookup _ _) Hr' j p' Hrj') as Hp'.
  simpl in Hp, Hp'. apply list_eq. intros z.
  destruct (decide (z < K)) as [Hz|Hz].
  - specialize (Hj z Hz). injection Hj as Hj. unfold proj in Hj.
    destruct (lookup_lt_is_Some_2 p z) as [u Hu]; [lia|].
    destruct (lookup_lt_is_Some_2 p' z) as [u' Hu']; [lia|].
    rewrite Hu, Hu' in Hj |- *. simpl in Hj. by subst.
  - by rewrite !lookup_ge_None_2 by lia.
Qed.

Section rank4.
Import Value.
Variables (n0 n1 n2 n3 : nat).
Variable (a : list (list (list (list R)))).
Hypothesis Ha : rect4 n0 n1 n2 n3 a.
Hypothesis (H0 : 0 < n0) (H1 : 0 < n1) (H2 : 0 < n2).

Lemma rect4_pixels :
  Forall (Forall (λ px : list (list R),
            length px = n2 ∧ Forall (λ q, length q = n3) px)) a.
Proof.
  destruct Ha as [_ Hx]. eapply Forall_impl; [exact Hx|]. simpl.
  intros row [_ Hrow]. eapply Forall_impl; [exact Hrow|]. simpl.
  intros px [Hl Hq]. split; [done|].
  eapply Forall_impl; [exact Hq|]. by intros ? [? _].
Qed.

Lemma uniform_flatten : uniform (n2 * n3) (flatten_trailing a).
Proof.
  unfold flatten_trailing. apply Forall_fmap.
  eapply Forall_impl; [exact rect4_pixels|]. simpl. intros row Hrow.
  apply Forall_fmap. eapply Forall_impl; [exact Hrow|]. simpl.
  intros px [Hl Hq]. by rewrite (length_join_uniform n3), Hl.
Qed.

Lemma uniform_subvolume g : uniform n2 (subvolume g a).
Proof.
  unfold subvolume. apply Forall_fmap.
  eapply Forall_impl; [exact rect4_pixels|]. simpl. intros row Hrow.
  apply Forall_fmap. eapply Forall_impl; [exact Hrow|]. simpl.
  intros px [Hl Hq]. by rewrite length_fmap.
Qed.

(** Slice z of gradient direction g is slice z * n3 + g of the flattened
    volume. *)
Lemma slice_subvolume g z :
  g < n3 → z < n2 →
  slice3 0%R z (subvolume g a)
  = slice3 0%R (z * n3 + g) (flatten_trailing a).
Proof.
  intros Hg Hz. unfold slice3, subvolume, flatten_trailing.
  rewrite <-!list_fmap_compose.
  apply Forall_fmap_ext. eapply Forall_impl; [exact rect4_pixels|]. simpl.
  intros row Hrow. rewrite <-!list_fmap_compose.
  apply Forall_fmap_ext. eapply Forall_impl; [exact Hrow|]. simpl.
  intros px [Hl Hq]. rewrite (lookup_join_uniform n3) by done.
  rewrite list_lookup_fmap.
  destruct (lookup_lt_is_Some_2 px z) as [q ->]; [lia|]. done.
Qed.

Lemma length_flatten : length (flatten_trailing a) = length a.
Proof. unfold flatten_trailing. by rewrite length_fmap. Qed.

Lemma ncols_flatten : ncols (flatten_trailing a) = ncols a.
Proof. apply ncols_fmap. Qed.

Lemma length_subvolume g : length (subvolume g a) = length a.
Proof. unfold subvolume. by rewrite length_fmap. Qed.

Lemma ncols_subvolume g : ncols (subvolume g a) = ncols a.
Proof. apply (ncols_fmap (fmap (M:=list) (proj 0%R g))). Qed.

Lemma dims_rect4 : dim2 a = n2 ∧ dim3 a = n3.
Proof.
  destruct Ha as [Hl Hx]. unfold dim2, dim3.
  destruct a as [|row a']; simpl in *; [lia|].
  apply Forall_cons in Hx as [[Hrow Hpx] _].
  destruct row as [|px row]; simpl in *; [lia|].
  apply Forall_cons in Hpx as [[Hpl Hq] _].
  split; [done|].
  destruct px as [|q px]; simpl in *; [lia|].
  by apply Forall_cons in Hq as [[Hql _] _].
Qed.
End rank4.

(** Splitting the flattened batch axis again and taking gradient
    direction [g] re-indexes every pixel. *)
Lemma subvolume_split (s2 s3 g : nat) (r : list (list (list R))) :
  g < s3 →
  Value.subvolume g (Value.split_trailing s2 s3 r)
  = fmap (M:=list) (fmap (M:=list)
      (λ p : list R, (λ z, proj 0%R (z * s3 + g) p) <$> seq 0 s2)) r.
Proof.
  intros Hg. unfold Value.subvolume, Value.split_trailing.
  rewrite <-!list_fmap_compose. apply list_fmap_ext. intros _ row _.
  unfold compose. rewrite <-!list_fmap_compose. apply list_fmap_ext.
  intros _ p _. unfold compose. rewrite <-list_fmap_compose.
  apply list_fmap_ext. intros _ z _. unfold compose, proj.
  rewrite lookup_take, decide_True by done. by rewrite lookup_drop.
Qed.

Lemma swapaxes2_subvolume g sa (x : list (list (list (list R)))) :
  Value.swapaxes2 sa (Value.subvolume g x)
  = Value.subvolume g (Value.swapaxes2 sa x).
Proof. unfold Value.subvolume. apply swapaxes2_fmap. Qed.

Lemma swapaxes2_guard {A} (sa : nat) (v : list (list (list A))) :
  (if sa <? 2 then Value.swapaxes2 sa v else v) = Value.swapaxes2 sa v.
Proof. by destruct sa as [|[|sa]]. Qed.

Lemma reindex_slice s2 s3 g z (r : list (list (list R))) :
  z < s2 →
  slice3 0%R z
    (fmap (M:=list) (fmap (M:=list)
       (λ p : list R, (λ z, proj 0%R (z * s3 + g) p) <$> seq 0 s2)) r)
  = slice3 0%R (z * s3 + g) r.
Proof.
  intros Hz. unfold slice3. rewrite <-!list_fmap_compose.
  apply list_fmap_ext. intros _ row _. unfold compose.
  rewrite <-!list_fmap_compose. apply list_fmap_ext. intros _ p _.
  unfold compose. rewrite list_lookup_fmap, lookup_seq_lt by done. done.
Qed.

Lemma uniform_reindex s2 s3 g (r : list (list (list R))) :
  uniform s2
    (fmap (M:=list) (fmap (M:=list)
       (λ p : list R, (λ z, proj 0%R (z * s3 + g) p) <$> seq 0 s2)) r).
Proof.
  unfold uniform. apply Forall_fmap, Forall_forall. intros row _.
  apply Forall_fmap, Forall_forall. intros p _. simpl.
  by rewrite length_fmap, length_seq.
Qed.

(** The batched 2D corrector, slice by slice. *)
Lemma gibbs_removal_2d_slice K b (x : list (list (list R))) n G0 G1 :
  uniform K x → b < K →
  uniform K (Value._gibbs_removal_2d (F:=list) x n (Some G0) (Some G1)) ∧
  slice3 0%R b (Value._gibbs_removal_2d (F:=list) x n (Some G0) (Some G1))
  = Value._gibbs_removal_2d (F:=scalar) (slice3 0%R b x) n (Some G0) (Some G1).
Proof.
  intros Hx Hb.
  destruct (sliced_gibbs_removal_2d K b Hb x (slice3 0%R b x) n G0 G1)
    as [Hu Hs]; [by split|].
  by split.
Qed.

(** C9.  For a rank-4 volume of shape (n0, n1, n2, n3) with n3 gradient
    directions, a slice axis in {0, 1, 2} and any n_points, [gibbs_removal]
    of the whole volume, restricted to gradient direction g, is
    [gibbs_removal] of the rank-3 sub-volume [vol[..., g]] with the same
    slice axis and n_points. *)
Theorem batch_consistency (a : list (list (list (list R))))
    (n0 n1 n2 n3 slice_axis n_points g : nat) :
  rect4 n0 n1 n2 n3 a → 0 < n0 → 0 < n1 → 0 < n2 → g < n3 →
  slice_axis ≤ 2 →
  ∃ r4 r3,
    Value.gibbs_removal (Value.Vol4 a) slice_axis n_points
      = Some (Value.Vol4 r4) ∧
    Value.gibbs_removal (Value.Vol3 (Value.subvolume g a))
        slice_axis n_points
      = Some (Value.Vol3 r3) ∧
    Value.subvolume g r4 = r3.
Proof.
  intros Ha H0 H1 H2 Hg Hsa. unfold Value.gibbs_removal.
  assert ((2 <? slice_axis) = false) as -> by (apply Nat.ltb_ge; lia).
  cbv zeta. rewrite !swapaxes2_guard.
  eexists _, _. split; [reflexivity|]. split; [reflexivity|].
  set (a' := Value.swapaxes2 slice_axis a).
  rewrite (swapaxes2_subvolume g slice_axis a).
  rewrite <-swapaxes2_subvolume. fold a'. f_equal. cbn [fst snd].
  (* the shape of the swapped volume *)
  set (d := swapped_dims slice_axis (n0, n1, n2)).
  assert (rect4 d.1.1 d.1.2 d.2 n3 a') as Ha'.
  { apply (rect_with_swapaxes2
             (λ q : list R, length q = n3 ∧ Forall (λ _, True) q)
             slice_axis n0 n1 n2 a); done. }
  assert (0 < d.1.1 ∧ 0 < d.1.2 ∧ 0 < d.2) as [Hd0 [Hd1 Hd2]]
    by (unfold d; destruct slice_axis as [|[|?]]; simpl; lia).
  destruct (dims_rect4 _ _ _ _ a' Ha' Hd0 Hd1 Hd2) as [-> ->].
  rewrite length_flatten, ncols_flatten, length_subvolume, ncols_subvolume.
  set (W := Value._weights (length a', ncols a')).
  rewrite subvolume_split by done.
  pose proof (uniform_flatten _ _ _ _ a' Ha') as Hu4.
  pose proof (uniform_subvolume _ _ _ _ a' Ha' g) as Hu3.
  apply (batch_ext 0%R d.2); [apply uniform_reindex| |done|].
  - by apply (gibbs_removal_2d_slice d.2 0).
  - intros z Hz. rewrite reindex_slice by done.
    assert (z * n3 + g < d.2 * n3) as Hzg by nia.
    destruct (gibbs_removal_2d_slice (d.2 * n3) (z * n3 + g)
                (Value.flatten_trailing a') n_points W.1 W.2 Hu4 Hzg)
      as [_ ->].
    destruct (gibbs_removal_2d_slice d.2 z
                (Value.subvolume g a') n_points W.1 W.2 Hu3 Hz)
      as [_ ->].
    by rewrite (slice_subvolume _ _ _ _ a' Ha').
Qed.

Lemma batch_consistency_witness :
  let a : list (list (list (list R))) :=
    [[[[1; 2]; [3; 4]]; [[5; 6]; [7; 8]]];
     [[[2; 1]; [4; 3]]; [[6; 5]; [8; 7]]]]%R in
  rect4 2 2 2 2 a ∧
  ∃ r4 r3,
    Value.gibbs_removal (Value.Vol4 a) 0 1 = Some (Value.Vol4 r4) ∧
    Value.gibbs_removal (Value.Vol3 (Value.subvolume 1 a)) 0 1
      = Some (Value.Vol3 r3) ∧
    Value.subvolume 1 r4 = r3.
Proof.
  intros a.
  assert (rect4 2 2 2 2 a) as Ha.
  { split; [done|]. repeat constructor. }
  split; [exact Ha|].
  exact (batch_consistency a 2 2 2 2 0 1 1 Ha
           ltac:(lia) ltac:(lia) ltac:(lia) ltac:(lia) ltac:(lia)).
Defined.

(** ** Descriptor semantics: reasoning rules *)

Section descr_rules.
Import Descr.

(** Since [h0], buffers were only allocated, and every buffer written in
    place was allocated since [h0]. *)
Definition extends (h0 h : heap) : Prop :=
  next h0 ≤ next h ∧
  ∃ ws, writes h = ws ++ writes h0 ∧ Forall (λ b, next h0 ≤ b) ws.

(** The buffer of [a] did not exist at [h0]. *)
Definition fresh (h0 : heap) (a : ndarray) : Prop := next h0 ≤ buf a.

(** Partial correctness: the store only grows as [extends] says, and a
    returned value satisfies [P]. *)
Definition ptriple {A} (h0 : heap) (m : M A) (P : A → Prop) : Prop :=
  ∀ h, extends h0 h →
    extends h0 (m h).2 ∧ ∀ a, (m h).1 = Ok a → P a.

(** Total correctness: the computation returns a value satisfying [P]. *)
Definition succeeds {A} (m : M A) (P : A → Prop) : Prop :=
  ∀ h, ∃ a h', m h = (Ok a, h') ∧ P a.

Lemma extends_refl h : extends h h.
Proof. split; [done|]. exists []. by split. Qed.

Lemma pt_ret {A} h0 (a : A) (P : A → Prop) : P a → ptriple h0 (ret a) P.
Proof. intros Ha h Hh. split; [done|]. by intros ? [= <-]. Qed.

Lemma pt_raise {A} h0 e (P : A → Prop) : ptriple h0 (raise e) P.
Proof. intros h Hh. by split. Qed.

Lemma pt_from_result {A} h0 (r : result A) :
  ptriple h0 (from_result r) (λ a, r = Ok a).
Proof. intros h Hh. by split. Qed.

Lemma pt_bind {A B} h0 (m : M A) (f : A → M B) P Q :
  ptriple h0 m P → (∀ a, P a → ptriple h0 (f a) Q) →
  ptriple h0 (bind m f) Q.
Proof.
  intros Hm Hf h Hh. unfold bind. destruct (Hm h Hh) as [Hext Hp].
  destruct (m h) as [[a|e] h']; simpl in *; [|by split].
  apply (Hf a); auto.
Qed.

Lemma pt_conseq {A} h0 (m : M A) (P Q : A → Prop) :
  ptriple h0 m P → (∀ a, P a → Q a) → ptriple h0 m Q.
Proof.
  intros Hm HPQ h Hh. destruct (Hm h Hh) as [Hext Hp]. split; auto.
Qed.

Lemma pt_guard h0 c e : ptriple h0 (guard c e) (λ _, c = true).
Proof. destruct c; [by apply pt_ret|apply pt_raise]. Qed.

Lemma pt_from_option {A} h0 (o : option A) e :
  ptriple h0 (from_option o e) (λ a, o = Some a).
Proof. destruct o; [by apply pt_ret|apply pt_raise]. Qed.

Lemma pt_alloc h0 d s :
  ptriple h0 (alloc d s) (λ a, fresh h0 a ∧ dt a = d ∧ shape a = s).
Proof.
  intros h [Hn (ws & Hw & Hf)]. simpl. split.
  - split; [simpl; lia|]. by exists ws.
  - intros a [= <-]. by split.
Qed.

Lemma pt_write h0 a : fresh h0 a → ptriple h0 (write a) (λ _, True).
Proof.
  intros Ha h [Hn (ws & Hw & Hf)]. simpl. split; [|done].
  split; [done|]. exists (buf a :: ws). split; [by rewrite Hw|].
  by constructor.
Qed.

Lemma pt_mfor {A} h0 (l : list A) body :
  (∀ x, x ∈ l → ptriple h0 (body x) (λ _, True)) →
  ptriple h0 (mfor l body) (λ _, True).
Proof.
  induction l as [|x l IH]; intros Hb; simpl; [by apply pt_ret|].
  eapply pt_bind; [apply Hb; by left|]. intros _ _.
  apply IH. intros y Hy. apply Hb. by right.
Qed.

Lemma s_ret {A} (a : A) (P : A → Prop) : P a → succeeds (ret a) P.
Proof. intros Ha h. by exists a, h. Qed.

Lemma s_from_result {A} (a : A) (P : A → Prop) :
  P a → succeeds (from_result (Ok a)) P.
Proof. intros Ha h. by exists a, h. Qed.

Lemma s_bind {A B} (m : M A) (f : A → M B) P Q :
  succeeds m P → (∀ a, P a → succeeds (f a) Q) → succeeds (bind m f) Q.
Proof.
  intros Hm Hf h. unfold bind. destruct (Hm h) as (a & h' & -> & Ha).
  apply (Hf a Ha).
Qed.

Lemma s_conseq {A} (m : M A) (P Q : A → Prop) :
  succeeds m P → (∀ a, P a → Q a) → succeeds m Q.
Proof.
  intros Hm HPQ h. destruct (Hm h) as (a & h' & -> & Ha).
  exists a, h'. auto.
Qed.

Lemma s_guard c e : c = true → succeeds (guard c e) (λ _, True).
Proof. intros ->. by apply s_ret. Qed.

Lemma s_from_option {A} (a : A) o e (P : A → Prop) :
  o = Some a → P a → succeeds (from_option o e) P.
Proof. intros -> Ha. by apply s_ret. Qed.

Lemma s_alloc d s :
  succeeds (alloc d s) (λ a, dt a = d ∧ shape a = s).
Proof. intros h. by eexists _, _. Qed.

Lemma s_write a : succeeds (write a) (λ _, True).
Proof. intros h. by eexists _, _. Qed.

Lemma s_mfor {A} (l : list A) body :
  (∀ x, x ∈ l → succeeds (body x) (λ _, True)) →
  succeeds (mfor l body) (λ _, True).
Proof.
  induction l as [|x l IH]; intros Hb; simpl; [by apply s_ret|].
  eapply s_bind; [apply Hb; by left|]. intros _ _.
  apply IH. intros y Hy. apply Hb. by right.
Qed.
End descr_rules.

(** ** Descriptor semantics: what every call allocates and writes *)

Section descr_ops.
Import Descr.
Variable selected : nat → nat.
Variable h0 : heap.

Ltac pt_prim :=
  first [ apply pt_guard | apply pt_from_option | apply pt_from_result
        | apply pt_alloc | apply pt_raise
        | (apply pt_write; unfold fresh in *; simpl in *; congruence) ].

(** Steps through a sequence of primitive calls. *)
Ltac pt_run :=
  repeat first
    [ (eapply pt_bind; [pt_prim|]; cbv beta; intros ? ?; destruct_and?)
    | (apply pt_ret; simpl; auto)
    | apply pt_raise
    | (eapply pt_conseq; [pt_prim|]; cbv beta; intros; destruct_and?;
       simpl; auto) ].

Lemma pt_copy a :
  ptriple h0 (copy a) (λ r, fresh h0 r ∧ dt r = dt a ∧ shape r = shape a).
Proof. apply pt_alloc. Qed.

Lemma pt_transpose10 a :
  ptriple h0 (transpose10 a)
    (λ r, buf r = buf a ∧ dt r = dt a ∧
          ∃ s0 s1 rest, shape a = s0 :: s1 :: rest ∧
                        shape r = s1 :: s0 :: rest).
Proof.
  unfold transpose10. destruct (shape a) as [|s0 [|s1 rest]];
    try apply pt_raise.
  apply pt_ret. simpl. eauto 10.
Qed.

Lemma pt_slice1 a start stop :
  ptriple h0 (slice1 a start stop) (λ r, buf r = buf a ∧ dt r = dt a).
Proof.
  unfold slice1. destruct (shape a) as [|s0 [|s1 rest]];
    try apply pt_raise.
  by apply pt_ret.
Qed.

Lemma pt_slice0 a start stop :
  ptriple h0 (slice0 a start stop) (λ r, buf r = buf a ∧ dt r = dt a).
Proof.
  unfold slice0. destruct (shape a) as [|s0 rest]; try apply pt_raise.
  by apply pt_ret.
Qed.

Lemma pt_concatenate1 a b c :
  ptriple h0 (concatenate1 a b c) (λ r, fresh h0 r).
Proof.
  unfold concatenate1.
  destruct (shape a) as [|? [|? ?]], (shape b) as [|? [|? ?]],
    (shape c) as [|? [|? ?]]; try apply pt_raise.
  pt_run.
Qed.

Lemma pt_ufunc2 ty a b :
  ptriple h0 (ufunc2 ty a b)
    (λ r, fresh h0 r ∧ ty (dt a) (dt b) = Ok (dt r) ∧
          broadcast (shape a) (shape b) = Some (shape r)).
Proof. unfold ufunc2. pt_run. split_and!; congruence. Qed.

Lemma pt_ufunc2_inplace ty a b :
  fresh h0 a → ptriple h0 (ufunc2_inplace ty a b) (λ _, True).
Proof. intros Ha. unfold ufunc2_inplace. pt_run. Qed.

Lemma pt_absolute a :
  ptriple h0 (absolute a)
    (λ r, fresh h0 r ∧ dt r = abs_type (dt a) ∧ shape r = shape a).
Proof. apply pt_alloc. Qed.

Lemma pt_absolute_out a out :
  fresh h0 out → ptriple h0 (absolute_out a out) (λ _, True).
Proof. intros Ha. unfold absolute_out. pt_run. Qed.

Lemma pt_float_func a :
  ptriple h0 (float_func a)
    (λ r, fresh h0 r ∧ dt r = float_func_type (dt a) ∧ shape r = shape a).
Proof. apply pt_alloc. Qed.

Lemma pt_conj a :
  ptriple h0 (conj a) (λ r, fresh h0 r ∧ dt r = dt a ∧ shape r = shape a).
Proof. apply pt_alloc. Qed.

Lemma pt_with_scalar ty a :
  ptriple h0 (with_scalar ty a)
    (λ r, fresh h0 r ∧ dt r = ty (dt a) ∧ shape r = shape a).
Proof. apply pt_alloc. Qed.

Lemma pt_fft2 a :
  ptriple h0 (fft2 a)
    (λ r, fresh h0 r ∧ dt r = fft_type (dt a) ∧ shape r = shape a).
Proof.
  unfold fft2. destruct (shape a) as [|s0 [|s1 rest]] eqn:Hs;
    try apply pt_raise.
  pt_run.
Qed.

Lemma pt_ifft2 a :
  ptriple h0 (ifft2 a)
    (λ r, fresh h0 r ∧ dt r = fft_type (dt a) ∧ shape r = shape a).
Proof. apply pt_fft2. Qed.

Lemma pt_fftshift a :
  ptriple h0 (fftshift a)
    (λ r, fresh h0 r ∧ dt r = dt a ∧ shape r = shape a).
Proof. unfold fftshift. pt_run. Qed.

Lemma pt_linspace num d :
  ptriple h0 (linspace num d)
    (λ r, fresh h0 r ∧ dt r = d ∧ shape r = [num]).
Proof. apply pt_alloc. Qed.

Lemma pt_zeros s d :
  ptriple h0 (zeros s d) (λ r, fresh h0 r ∧ dt r = d ∧ shape r = s).
Proof. apply pt_alloc. Qed.

Lemma pt_mask_get src mask :
  ptriple h0 (mask_get selected src mask) (λ r, fresh h0 r).
Proof. unfold mask_get. pt_run. Qed.

Lemma pt_mask_set dst mask src :
  fresh h0 dst → ptriple h0 (mask_set selected dst mask src) (λ _, True).
Proof.
  intros Ha. unfold mask_set.
  eapply pt_bind; [apply pt_guard|]. intros _ _.
  eapply pt_bind with (P := λ _, True).
  - destruct src; pt_run.
  - intros _ _. by apply pt_write.
Qed.

Lemma pt_nonzero a : ptriple h0 (nonzero selected a) (λ _, True).
Proof. unfold nonzero. pt_run. Qed.

Lemma pt_take_idx a idx :
  ptriple h0 (take_idx a idx) (λ r, fresh h0 r ∧ dt r = dt a).
Proof. unfold take_idx. pt_run. Qed.

Lemma pt_put_idx a idx v :
  fresh h0 a → ptriple h0 (put_idx a idx v) (λ _, True).
Proof. intros Ha. unfold put_idx. pt_run. Qed.

Lemma pt_setitem a ixs v :
  fresh h0 a → ptriple h0 (setitem a ixs v) (λ _, True).
Proof.
  intros Ha. unfold setitem.
  eapply pt_bind; [apply pt_from_result|]. intros target _.
  eapply pt_bind with (P := λ _, True).
  - destruct v; pt_run.
  - intros _ _. by apply pt_write.
Qed.

Lemma pt_swapaxes a ax1 ax2 :
  ptriple h0 (swapaxes a ax1 ax2)
    (λ r, r = view a (shape r) ∧
          swap_shape (shape a) ax1 ax2 = Ok (shape r)).
Proof. unfold swapaxes. pt_run. Qed.

Lemma pt_reshape a s :
  ptriple h0 (reshape a s)
    (λ r, (buf r = buf a ∨ fresh h0 r) ∧ dt r = dt a ∧ shape r = s).
Proof.
  unfold reshape. eapply pt_bind; [apply pt_guard|]. intros _ _.
  destruct (contig a); pt_run.
Qed.
End descr_ops.

Ltac pt_side := unfold fresh in *; simpl in *; lia.

Ltac pt_known :=
  unfold Descr.subtract, Descr.add, Descr.multiply, Descr.minimum,
    Descr.divide, Descr.greater, Descr.iadd, Descr.imul, Descr.idiv;
  first
    [ apply pt_guard | apply pt_from_option | apply pt_from_result
    | apply pt_alloc | apply pt_raise
    | apply pt_copy | apply pt_transpose10 | apply pt_slice1
    | apply pt_slice0 | apply pt_concatenate1 | apply pt_ufunc2
    | apply pt_absolute | apply pt_float_func | apply pt_conj
    | apply pt_with_scalar | apply pt_fft2 | apply pt_ifft2
    | apply pt_fftshift | apply pt_linspace | apply pt_zeros
    | apply pt_mask_get | apply pt_nonzero | apply pt_take_idx
    | apply pt_swapaxes | apply pt_reshape
    | (apply pt_ufunc2_inplace; pt_side)
    | (apply pt_absolute_out; pt_side)
    | (apply pt_mask_set; pt_side)
    | (apply pt_put_idx; pt_side)
    | (apply pt_setitem; pt_side)
    | (apply pt_write; pt_side)
    | (apply pt_ret; exact I) ].

Ltac pt_step tac :=
  lazymatch goal with
  | |- ptriple _ (Descr.bind _ _) _ =>
      eapply pt_bind; [first [tac | pt_known]|];
      cbv beta; intros ? ?; destruct_and?
  end.

Section descr_frame.
Import Descr.
Variable selected : nat → nat.
Variable h0 : heap.

Lemma pt_tv_step n xs ptv ntv k :
  fresh h0 ptv → fresh h0 ntv →
  ptriple h0 (tv_step n xs ptv ntv k) (λ _, True).
Proof.
  intros Hp Hn. unfold tv_step. repeat pt_step fail. pt_known.
Qed.

(** Both fields [_image_tv] returns live in buffers of their own. *)
Lemma pt_image_tv x axis n :
  ptriple h0 (_image_tv x axis n) (λ r, fresh h0 r.1 ∧ fresh h0 r.2).
Proof.
  unfold _image_tv.
  eapply pt_bind with (P := λ _, True).
  { destruct axis; [eapply pt_conseq; [apply pt_transpose10|done]
                   |by apply pt_ret]. }
  intros xs _. repeat pt_step fail.
  eapply pt_bind.
  { apply pt_mfor. intros k _. apply pt_tv_step; pt_side. }
  intros _ _. destruct axis.
  - repeat pt_step fail. apply pt_ret. simpl. split; pt_side.
  - apply pt_ret. simpl. split; pt_side.
Qed.

Lemma pt_shifted_image c eks :
  ptriple h0 (shifted_image c eks) (λ r, fresh h0 r).
Proof.
  unfold shifted_image. repeat pt_step fail.
  eapply pt_conseq; [apply pt_absolute|]. cbv beta. by intros ? [? _].
Qed.

Lemma pt_search_step n c k isp sp tvp isn sn tvn s :
  fresh h0 isp → fresh h0 sp → fresh h0 tvp →
  fresh h0 isn → fresh h0 sn → fresh h0 tvn →
  ptriple h0 (search_step selected n c k isp sp tvp isn sn tvn s)
    (λ _, True).
Proof.
  intros. unfold search_step.
  repeat pt_step ltac:(first [apply pt_shifted_image | apply pt_image_tv]).
  pt_known.
Qed.

(** [_gibbs_removal_1d] returns a new array with the dtype and the shape
    of its argument. *)
Lemma pt_gibbs_removal_1d x axis n :
  ptriple h0 (_gibbs_removal_1d selected x axis n)
    (λ r, fresh h0 r ∧ dt r = dt x ∧ shape r = shape x).
Proof.
  unfold _gibbs_removal_1d. cbv zeta.
  pt_step fail.
  eapply pt_bind with
    (P := λ xs, fresh h0 xs ∧ dt xs = dt x ∧
                match axis with
                | 0 => ∃ s0 s1 rest, shape x = s0 :: s1 :: rest ∧
                                     shape xs = s1 :: s0 :: rest
                | _ => shape xs = shape x
                end).
  { destruct axis.
    - pt_step fail. eapply pt_conseq; [apply pt_copy|]. cbv beta.
      intros r (? & ? & ?). split_and!; [done|congruence|].
      match goal with
      | H : ∃ s0 s1 rest, _ |- _ => destruct H as (s0 & s1 & rest & ? & ?)
      end.
      exists s0, s1, rest. split; congruence.
    - apply pt_copy. }
  intros xs (Hxs & Hdt & Hshape).
  repeat pt_step ltac:(apply pt_image_tv).
  eapply pt_bind.
  { apply pt_mfor. intros s _. apply pt_search_step; pt_side. }
  intros _ _.
  repeat pt_step fail.
  destruct axis.
  - eapply pt_conseq; [apply pt_transpose10|]. cbv beta.
    intros r (Hb & Hd & (t0 & t1 & trest & Ht & Hr)).
    destruct Hshape as (s0 & s1 & rest & Hx & Hxs').
    split_and!; [pt_side|congruence|]. congruence.
  - apply pt_ret. by split_and!.
Qed.
End descr_frame.

(** ** Dtypes and shapes: pure facts *)

Section descr_pure.
Import Descr.

Lemma kind_fft_type d : kind_of (fft_type d) = KComplex.
Proof. by destruct d. Qed.

Lemma kind_promote_complex a b :
  kind_of a = KComplex → kind_of (promote_types a b) = KComplex.
Proof. by destruct a, b. Qed.

Lemma promote_types_same d : promote_types d d = d.
Proof. by destruct d. Qed.

Lemma broadcast_dim_same x : broadcast_dim x x = Some x.
Proof. unfold broadcast_dim. by rewrite Nat.eqb_refl. Qed.

Lemma broadcast_dim_one x : broadcast_dim x 1 = Some x.
Proof.
  unfold broadcast_dim. destruct (Nat.eqb_spec x 1) as [->|]; [done|].
  done.
Qed.

Lemma broadcast_aligned_same s : broadcast_aligned s s = Some s.
Proof.
  induction s as [|x s IH]; simpl; [done|].
  by rewrite broadcast_dim_same, IH.
Qed.

Lemma broadcast_same s : broadcast s s = Some s.
Proof.
  unfold broadcast. rewrite Nat.max_id, Nat.sub_diag. simpl.
  apply broadcast_aligned_same.
Qed.

(** A trailing axis of length 1 broadcasts against any length. *)
Lemma broadcast_newaxis s c : broadcast (s ++ [c]) (s ++ [1]) = Some (s ++ [c]).
Proof.
  unfold broadcast. rewrite !length_app. simpl.
  rewrite Nat.max_id, Nat.sub_diag. simpl.
  induction s as [|x s IH]; simpl.
  - by rewrite broadcast_dim_one.
  - by rewrite broadcast_dim_same, IH.
Qed.

Lemma normalize_axis_lt nd ax i : normalize_axis nd ax = Ok i → i < nd.
Proof.
  unfold normalize_axis.
  destruct (Z.leb_spec (- Z.of_nat nd) ax), (Z.ltb_spec ax (Z.of_nat nd));
    simpl; try done.
  intros [= <-]. pose proof (Z.mod_pos_bound ax (Z.of_nat nd)). lia.
Qed.

Lemma swap_shape_length s ax1 ax2 s' :
  swap_shape s ax1 ax2 = Ok s' → length s' = length s.
Proof.
  unfold swap_shape.
  destruct (normalize_axis (length s) ax1) as [i|],
    (normalize_axis (length s) ax2) as [j|]; try done.
  destruct (s !! i), (s !! j); try done.
  intros [= <-]. by rewrite !length_insert.
Qed.

(** Exchanging the same two axes again restores the shape. *)
Lemma swap_shape_involutive s ax1 ax2 s' :
  swap_shape s ax1 ax2 = Ok s' → swap_shape s' ax1 ax2 = Ok s.
Proof.
  intros Hs. pose proof (swap_shape_length _ _ _ _ Hs) as Hl.
  revert Hs. unfold swap_shape. rewrite Hl.
  destruct (normalize_axis (length s) ax1) as [i|] eqn:Hi; [|done].
  destruct (normalize_axis (length s) ax2) as [j|] eqn:Hj;
    [|by destruct (normalize_axis (length s) ax1)].
  apply normalize_axis_lt in Hi, Hj.
  destruct (s !! i) as [si|] eqn:Hsi; [|done].
  destruct (s !! j) as [sj|] eqn:Hsj; [|done].
  intros [= <-].
  assert (<[i:=sj]> (<[j:=si]> s) !! i = Some sj) as ->
    by (apply list_lookup_insert_eq; rewrite length_insert; lia).
  assert (<[i:=sj]> (<[j:=si]> s) !! j = Some si) as ->.
  { destruct (decide (i = j)) as [->|Hne].
    - rewrite list_lookup_insert_eq by (rewrite length_insert; lia).
      congruence.
    - rewrite list_lookup_insert_ne by done.
      apply list_lookup_insert_eq. lia. }
  f_equal. apply list_eq. intros k.
  destruct (decide (k = i)) as [->|Hki].
  - rewrite list_lookup_insert_eq by (rewrite !length_insert; lia).
    congruence.
  - rewrite list_lookup_insert_ne by done.
    destruct (decide (k = j)) as [->|Hkj].
    + rewrite list_lookup_insert_eq by (rewrite !length_insert; lia).
      congruence.
    + by rewrite !list_lookup_insert_ne by done.
Qed.
End descr_pure.

Section descr_driver.
Import Descr.
Variable selected : nat → nat.
Variable h0 : heap.

Lemma pt_weights s d :
  ptriple h0 (_weights s d)
    (λ G, fresh h0 G.1 ∧ fresh h0 G.2 ∧
          dt G.1 = promote_types Float32 d ∧
          dt G.2 = promote_types Float32 d ∧
          shape G.1 = s ∧ shape G.2 = s).
Proof.
  unfold _weights. cbv zeta. repeat pt_step fail.
  apply pt_ret. simpl. by split_and!.
Qed.

Lemma pt_gibbs_removal_2d image n G0 G1 :
  ptriple h0 (_gibbs_removal_2d selected image n G0 G1)
    (λ r, fresh h0 r ∧ kind_of (dt r) = KComplex ∧
          ∀ g0 g1, G0 = Some g0 → G1 = Some g1 →
            broadcast (shape image) (shape g1) = Some (shape r)).
Proof.
  unfold _gibbs_removal_2d.
  eapply pt_bind with
    (P := λ G, ∀ g0 g1, G0 = Some g0 → G1 = Some g1 → G = (g0, g1)).
  { destruct G0 as [g0|], G1 as [g1|].
    - apply pt_ret. by intros ?? [= <-] [= <-].
    - eapply pt_conseq with (P := λ _, True); [|done].
      pt_step ltac:(apply pt_weights). destruct (2 <? ndim image); by apply pt_ret.
    - eapply pt_conseq with (P := λ _, True); [|done].
      pt_step ltac:(apply pt_weights). destruct (2 <? ndim image); by apply pt_ret.
    - eapply pt_conseq with (P := λ _, True); [|done].
      pt_step ltac:(apply pt_weights). destruct (2 <? ndim image); by apply pt_ret. }
  intros G HG.
  repeat pt_step ltac:(apply pt_gibbs_removal_1d).
  apply pt_ret.
  repeat match goal with
         | H : arith_type _ _ = Ok _ |- _ => injection H as H
         end.
  split_and!; [done| |].
  - match goal with
    | H : dt ?r = fft_type _ |- kind_of (dt ?r) = _ =>
        rewrite H; apply kind_fft_type
    end.
  - intros g0 g1 E0 E1. rewrite (HG g0 g1 E0 E1) in *. simpl in *.
    congruence.
Qed.

(** The driver returns a complex array of the shape of its argument, in a
    buffer allocated during the call. *)
Lemma pt_gibbs_removal vol slice_axis n :
  ptriple h0 (gibbs_removal selected vol slice_axis n)
    (λ r, fresh h0 r ∧ kind_of (dt r) = KComplex ∧ shape r = shape vol).
Proof.
  unfold gibbs_removal. cbv zeta.
  (* the slice axis *)
  eapply pt_bind with
    (P := λ v, dt v = dt vol ∧
               ((v = vol ∧ ((slice_axis <? 2)%Z && (2 <? ndim vol)) = false) ∨
                (swap_shape (shape vol) slice_axis 2 = Ok (shape v) ∧
                 ((slice_axis <? 2)%Z && (2 <? ndim vol)) = true))).
  { destruct (2 <? slice_axis)%Z; [apply pt_raise|].
    destruct ((slice_axis <? 2)%Z && (2 <? ndim vol)) eqn:Hc.
    - eapply pt_conseq; [apply pt_swapaxes|]. cbv beta.
      intros r [-> Hs]. simpl. split; [done|]. by right.
    - apply pt_ret. split; [done|]. by left. }
  intros v1 [Hdt1 Hv1].
  assert (ndim v1 = ndim vol) as Hnd1.
  { destruct Hv1 as [[-> _]|[Hs _]]; [done|].
    unfold ndim. by eapply swap_shape_length. }
  (* the rank *)
  eapply pt_bind with
    (P := λ v, dt v = dt v1 ∧
               ((ndim vol = 4 ∧ ∃ s0 s1 s2 s3,
                   shape v1 = [s0; s1; s2; s3] ∧
                   shape v = [s0; s1; s2 * s3]) ∨
                ((ndim vol = 2 ∨ ndim vol = 3) ∧ v = v1))).
  { destruct (Nat.eqb_spec (ndim vol) 4) as [Hrk4|Hrk4].
    - destruct (shape v1) as [|s0 [|s1 [|s2 [|s3 [|? ?]]]]] eqn:Hs1;
        try apply pt_raise.
      eapply pt_conseq; [apply pt_reshape|]. cbv beta.
      intros r (_ & Hd & Hs). split; [done|]. left. split; [done|].
      by exists s0, s1, s2, s3.
    - destruct (Nat.ltb_spec 4 (ndim vol)); [apply pt_raise|].
      destruct (Nat.ltb_spec (ndim vol) 2); [apply pt_raise|].
      apply pt_ret. split; [done|]. right. split; [lia|done]. }
  intros v2 [Hdt2 Hv2].
  eapply pt_bind; [apply pt_weights|]. cbv beta.
  intros G (HG1 & HG2 & HdG1 & HdG2 & HsG1 & HsG2).
  eapply pt_bind; [apply pt_gibbs_removal_2d|]. cbv beta.
  intros r2 (Hf2 & Hk2 & Hb).
  specialize (Hb _ _ eq_refl eq_refl).
  (* the shape the 2D corrector returns is the shape it was given *)
  assert (shape r2 = shape v2) as Hs2.
  { destruct Hv2 as [[Hrk4 (s0 & s1 & s2 & s3 & Hs1 & Hs2)]|[Hrk ->]].
    - assert ((2 <? ndim vol) = true) as Hlt by (apply Nat.ltb_lt; lia).
      rewrite Hlt in Hb. unfold newaxis_last in Hb. simpl in Hb.
      rewrite Hs2 in *. simpl in *.
      rewrite HsG2 in Hb.
      pose proof (broadcast_newaxis [s0; s1] (s2 * s3)) as Hbn.
      cbn [app] in Hbn, Hb. congruence.
    - unfold ndim in Hrk, Hnd1.
      destruct (shape v1) as [|s0 [|s1 [|s2 [|? ?]]]] eqn:Hs1;
        simpl in *; try lia.
      + assert ((2 <? length (shape vol)) = false) as Hlt
          by (apply Nat.ltb_ge; lia).
        unfold ndim in Hb. rewrite Hlt in Hb.
        rewrite HsG2 in Hb.
        rewrite broadcast_same in Hb. congruence.
      + assert ((2 <? length (shape vol)) = true) as Hlt
          by (apply Nat.ltb_lt; lia).
        unfold ndim in Hb. rewrite Hlt in Hb.
        unfold newaxis_last in Hb. simpl in Hb.
        rewrite HsG2 in Hb.
        pose proof (broadcast_newaxis [s0; s1] s2) as Hbn.
        cbn [app] in Hbn, Hb. congruence. }
  (* back to the original format *)
  eapply pt_bind with
    (P := λ v, fresh h0 v ∧ dt v = dt r2 ∧ shape v = shape v1).
  { destruct Hv2 as [[Hrk4 (s0 & s1 & s2 & s3 & Hs1 & Hs2')]|[Hrk ->]].
    - rewrite Hrk4. simpl.
      eapply pt_conseq; [apply pt_reshape|]. cbv beta.
      intros r (Hbuf & Hd & Hs). split_and!; [|done|done].
      destruct Hbuf; [pt_side|done].
    - assert ((ndim vol =? 4) = false) as -> by (apply Nat.eqb_neq; lia).
      by apply pt_ret. }
  intros v3 (Hf3 & Hdt3 & Hs3).
  destruct Hv1 as [[-> Hc]|[Hs Hc]]; rewrite Hc.
  - apply pt_ret. split_and!; [done|congruence|done].
  - eapply pt_conseq; [apply pt_swapaxes|]. cbv beta.
    intros r [Hr Hs']. split_and!.
    + rewrite Hr. pt_side.
    + rewrite Hr. simpl. congruence.
    + rewrite Hs3 in Hs'.
      apply swap_shape_involutive in Hs. congruence.
Qed.
End descr_driver.

(** ** Descriptor semantics: when a call returns *)

Section descr_total.
Import Descr.
Variable selected : nat → nat.

Lemma s_bind_ret {A B} (a : A) (f : A → M B) Q :
  succeeds (f a) Q → succeeds (bind (ret a) f) Q.
Proof. intros Hf h. apply (Hf h). Qed.

Lemma s_bind_unit {B} (m : M unit) (k : unit → M B) Q :
  succeeds m (λ _, True) → succeeds (k tt) Q → succeeds (bind m k) Q.
Proof.
  intros Hm Hk. eapply s_bind; [exact Hm|]. by intros [] _.
Qed.

Lemma shape_eqb_refl s : shape_eqb s s = true.
Proof. unfold shape_eqb. by apply bool_decide_eq_true_2. Qed.

Lemma can_cast_refl d : can_cast_same_kind d d = true.
Proof. unfold can_cast_same_kind. apply Nat.leb_refl. Qed.

Lemma s_copy a : succeeds (copy a) (λ r, dt r = dt a ∧ shape r = shape a).
Proof. apply s_alloc. Qed.

Lemma s_transpose10 a s0 s1 rest :
  shape a = s0 :: s1 :: rest →
  succeeds (transpose10 a) (λ r, dt r = dt a ∧ shape r = s1 :: s0 :: rest).
Proof. intros Hs. unfold transpose10. rewrite Hs. by apply s_ret. Qed.

Lemma s_slice1 a start stop s0 s1 rest k :
  shape a = s0 :: s1 :: rest → slice_len s1 start stop = k →
  succeeds (slice1 a start stop) (λ r, dt r = dt a ∧ shape r = s0 :: k :: rest).
Proof. intros Hs <-. unfold slice1. rewrite Hs. by apply s_ret. Qed.

Lemma s_slice0 a start stop s0 rest :
  shape a = s0 :: rest →
  succeeds (slice0 a start stop)
    (λ r, dt r = dt a ∧ shape r = slice_len s0 start stop :: rest).
Proof. intros Hs. unfold slice0. rewrite Hs. by apply s_ret. Qed.

Lemma s_concatenate1 a b c s0 a1 b1 c1 rest :
  shape a = s0 :: a1 :: rest → shape b = s0 :: b1 :: rest →
  shape c = s0 :: c1 :: rest →
  succeeds (concatenate1 a b c)
    (λ r, dt r = promote_types (promote_types (dt a) (dt b)) (dt c) ∧
          shape r = s0 :: (a1 + b1 + c1) :: rest).
Proof.
  intros Ha Hb Hc. unfold concatenate1. rewrite Ha, Hb, Hc.
  apply s_bind_unit; [|apply s_alloc].
  apply s_guard. by rewrite shape_eqb_refl.
Qed.

Lemma s_ufunc2 ty a b d s :
  ty (dt a) (dt b) = Ok d → broadcast (shape a) (shape b) = Some s →
  succeeds (ufunc2 ty a b) (λ r, dt r = d ∧ shape r = s).
Proof.
  intros Hty Hb. unfold ufunc2. rewrite Hty, Hb.
  eapply s_bind; [by apply (s_from_result d (λ x, x = d))|].
  intros ? ->. apply s_bind_ret, s_alloc.
Qed.

Lemma s_ufunc2_inplace ty a b d :
  ty (dt a) (dt b) = Ok d → can_cast_same_kind d (dt a) = true →
  broadcast (shape a) (shape b) = Some (shape a) →
  succeeds (ufunc2_inplace ty a b) (λ _, True).
Proof.
  intros Hty Hc Hb. unfold ufunc2_inplace. rewrite Hty, Hb.
  eapply s_bind; [by apply (s_from_result d (λ x, x = d))|].
  intros ? ->. rewrite Hc. do 2 apply s_bind_ret.
  rewrite shape_eqb_refl. apply s_bind_ret, s_write.
Qed.

Lemma s_arith a b s :
  broadcast (shape a) (shape b) = Some s →
  succeeds (ufunc2 arith_type a b)
    (λ r, dt r = promote_types (dt a) (dt b) ∧ shape r = s).
Proof. intros Hb. by apply s_ufunc2. Qed.

Lemma s_subtract a b s :
  dt a ≠ Bool → broadcast (shape a) (shape b) = Some s →
  succeeds (subtract a b)
    (λ r, dt r = promote_types (dt a) (dt b) ∧ shape r = s).
Proof.
  intros Hd Hb. apply s_ufunc2; [|done].
  unfold subtract_type. by destruct (dt a).
Qed.

Lemma s_greater a b s :
  broadcast (shape a) (shape b) = Some s →
  succeeds (greater a b) (λ r, dt r = Bool ∧ shape r = s).
Proof. intros Hb. by apply s_ufunc2. Qed.

Lemma s_divide a b s :
  broadcast (shape a) (shape b) = Some s →
  succeeds (divide a b)
    (λ r, dt r = with_float_scalar (promote_types (dt a) (dt b)) ∧
          shape r = s).
Proof. intros Hb. by apply s_ufunc2. Qed.

Lemma s_arith_inplace a b :
  can_cast_same_kind (promote_types (dt a) (dt b)) (dt a) = true →
  broadcast (shape a) (shape b) = Some (shape a) →
  succeeds (ufunc2_inplace arith_type a b) (λ _, True).
Proof. intros Hc Hb. by eapply s_ufunc2_inplace. Qed.

Lemma s_idiv a b :
  can_cast_same_kind (with_float_scalar (promote_types (dt a) (dt b))) (dt a)
    = true →
  broadcast (shape a) (shape b) = Some (shape a) →
  succeeds (idiv a b) (λ _, True).
Proof. intros Hc Hb. by eapply s_ufunc2_inplace. Qed.

Lemma s_absolute a :
  succeeds (absolute a) (λ r, dt r = abs_type (dt a) ∧ shape r = shape a).
Proof. apply s_alloc. Qed.

Lemma s_absolute_out a out :
  can_cast_same_kind (abs_type (dt a)) (dt out) = true →
  broadcast (shape a) (shape out) = Some (shape out) →
  succeeds (absolute_out a out) (λ _, True).
Proof.
  intros Hc Hb. unfold absolute_out. rewrite Hc, Hb.
  do 2 apply s_bind_ret. rewrite shape_eqb_refl. apply s_bind_ret, s_write.
Qed.

Lemma s_float_func a :
  succeeds (float_func a)
    (λ r, dt r = float_func_type (dt a) ∧ shape r = shape a).
Proof. apply s_alloc. Qed.

Lemma s_conj a : succeeds (conj a) (λ r, dt r = dt a ∧ shape r = shape a).
Proof. apply s_alloc. Qed.

Lemma s_with_scalar ty a :
  succeeds (with_scalar ty a) (λ r, dt r = ty (dt a) ∧ shape r = shape a).
Proof. apply s_alloc. Qed.

Lemma s_fft2 a s0 s1 rest :
  shape a = s0 :: s1 :: rest → 0 < s0 → 0 < s1 →
  succeeds (fft2 a) (λ r, dt r = fft_type (dt a) ∧ shape r = s0 :: s1 :: rest).
Proof.
  intros Hs H0 H1. unfold fft2. rewrite Hs.
  rewrite (proj2 (Nat.ltb_lt 0 s0) H0), (proj2 (Nat.ltb_lt 0 s1) H1).
  apply s_bind_ret, s_alloc.
Qed.

Lemma s_ifft2 a s0 s1 rest :
  shape a = s0 :: s1 :: rest → 0 < s0 → 0 < s1 →
  succeeds (ifft2 a) (λ r, dt r = fft_type (dt a) ∧ shape r = s0 :: s1 :: rest).
Proof. apply s_fft2. Qed.

Lemma s_fftshift a :
  2 ≤ ndim a →
  succeeds (fftshift a) (λ r, dt r = dt a ∧ shape r = shape a).
Proof.
  intros Hn. unfold fftshift. rewrite (proj2 (Nat.leb_le 2 (ndim a)) Hn).
  apply s_bind_ret, s_alloc.
Qed.

Lemma s_linspace num d :
  succeeds (linspace num d) (λ r, dt r = d ∧ shape r = [num]).
Proof. apply s_alloc. Qed.

Lemma s_zeros s d : succeeds (zeros s d) (λ r, dt r = d ∧ shape r = s).
Proof. apply s_alloc. Qed.

Lemma mask_matches_same mask a :
  shape a = shape mask → mask_matches mask a = true.
Proof.
  intros Hs. unfold mask_matches, ndim. rewrite Hs.
  by rewrite firstn_all, shape_eqb_refl, Nat.leb_refl.
Qed.

Lemma s_mask_get src mask :
  shape src = shape mask →
  succeeds (mask_get selected src mask)
    (λ r, dt r = dt src ∧ shape r = [selected (buf mask)]).
Proof.
  intros Hs. unfold mask_get. rewrite (mask_matches_same _ _ Hs).
  apply s_bind_ret. unfold ndim. rewrite Hs, drop_all. apply s_alloc.
Qed.

Lemma s_mask_set dst mask src :
  shape dst = shape mask →
  match src with
  | Some v => shape v = [selected (buf mask)]
  | None => True
  end →
  succeeds (mask_set selected dst mask src) (λ _, True).
Proof.
  intros Hs Hv. unfold mask_set. rewrite (mask_matches_same _ _ Hs).
  apply s_bind_ret. unfold ndim. rewrite Hs, drop_all.
  destruct src as [v|].
  - rewrite Hv, broadcast_same. intros h.
    unfold bind, from_option, ret. rewrite shape_eqb_refl. by eexists _, _.
  - apply s_bind_ret, s_write.
Qed.

Lemma s_nonzero a :
  succeeds (nonzero selected a) (λ idx, idx = (ndim a, selected (buf a))).
Proof.
  unfold nonzero. eapply s_bind; [apply s_alloc|]. intros _ _.
  by apply s_ret.
Qed.

Lemma s_take_idx a idx :
  idx.1 = ndim a →
  succeeds (take_idx a idx) (λ r, dt r = dt a ∧ shape r = [idx.2]).
Proof.
  intros Hi. unfold take_idx. rewrite Hi, Nat.leb_refl.
  apply s_bind_ret. unfold ndim. rewrite drop_all. apply s_alloc.
Qed.

Lemma s_put_idx a idx v :
  idx.1 = ndim a → shape v = [idx.2] →
  succeeds (put_idx a idx v) (λ _, True).
Proof.
  intros Hi Hv. unfold put_idx. rewrite Hi, Nat.leb_refl.
  apply s_bind_ret. unfold ndim.
  rewrite drop_all, Hv, broadcast_same. apply s_bind_ret.
  rewrite shape_eqb_refl. apply s_bind_ret, s_write.
Qed.

Lemma s_setitem a ixs v target :
  selection (shape a) ixs = Ok target →
  match v with
  | Some src => broadcast target (shape src) = Some target
  | None => True
  end →
  succeeds (setitem a ixs v) (λ _, True).
Proof.
  intros Hs Hv. unfold setitem. rewrite Hs.
  eapply s_bind; [by apply (s_from_result target (λ x, x = target))|].
  intros ? ->. destruct v as [src|].
  - rewrite Hv. intros h.
    unfold bind, from_option, ret. rewrite shape_eqb_refl. by eexists _, _.
  - apply s_bind_ret, s_write.
Qed.

Lemma s_swapaxes a ax1 ax2 s :
  swap_shape (shape a) ax1 ax2 = Ok s →
  succeeds (swapaxes a ax1 ax2) (λ r, dt r = dt a ∧ shape r = s).
Proof.
  intros Hs. unfold swapaxes. rewrite Hs.
  eapply s_bind; [by apply (s_from_result s (λ x, x = s))|].
  intros ? ->. by apply s_ret.
Qed.

Lemma s_reshape a s :
  size s = size (shape a) →
  succeeds (reshape a s) (λ r, dt r = dt a ∧ shape r = s).
Proof.
  intros Hs. unfold reshape. rewrite Hs, Nat.eqb_refl.
  apply s_bind_ret. destruct (contig a); [by apply s_ret|apply s_alloc].
Qed.


(** Names the dtype and shape of the array a call returned. *)
Ltac s_intro :=
  cbv beta; intros [? ? ? ?] [? ?]; cbn [dt shape app] in *;
  rewrite ?promote_types_same in *; subst.

Ltac s_destruct x :=
  destruct x as [? ? ? ?]; cbn [dt shape] in *; subst.

(** Lengths of Python slices. *)
Ltac slice_tac :=
  unfold slice_len, py_bound;
  repeat match goal with
         | |- context [(?a <? ?b)%Z] => destruct (Z.ltb_spec a b)
         end; lia.

Lemma s_tv_step n xs ptv ntv k s0 N L rest :
  shape xs = s0 :: L :: rest → L = N + 2 * (n + 1) →
  dt xs ≠ Bool → 1 ≤ k < n →
  dt ptv = abs_type (dt xs) → shape ptv = s0 :: N :: rest →
  dt ntv = abs_type (dt xs) → shape ntv = s0 :: N :: rest →
  succeeds (tv_step n xs ptv ntv k) (λ _, True).
Proof.
  intros Hxs HL Hd Hk Hpd Hps Hnd Hns.
  s_destruct xs. s_destruct ptv. s_destruct ntv.
  unfold tv_step. cbv zeta.
  eapply s_bind;
    [eapply (s_slice1 _ _ _ _ _ _ N); [reflexivity|slice_tac]|s_intro].
  eapply s_bind;
    [eapply (s_slice1 _ _ _ _ _ _ N); [reflexivity|slice_tac]|s_intro].
  eapply s_bind; [eapply s_subtract; [done|apply broadcast_same]|s_intro].
  eapply s_bind; [apply s_absolute|s_intro].
  apply s_bind_unit.
  { apply s_arith_inplace; cbn [dt shape];
      [by rewrite promote_types_same, can_cast_refl|apply broadcast_same]. }
  eapply s_bind;
    [eapply (s_slice1 _ _ _ _ _ _ N); [reflexivity|slice_tac]|s_intro].
  eapply s_bind;
    [eapply (s_slice1 _ _ _ _ _ _ N); [reflexivity|slice_tac]|s_intro].
  eapply s_bind; [eapply s_subtract; [done|apply broadcast_same]|s_intro].
  eapply s_bind; [apply s_absolute|s_intro].
  apply s_arith_inplace; cbn [dt shape];
    [by rewrite promote_types_same, can_cast_refl|apply broadcast_same].
Qed.

(** [_image_tv] along axis 1 returns two arrays of the shape of [x] when
    the axis holds at least [n_points + 1] samples. *)
Lemma s_image_tv x n s0 N rest :
  shape x = s0 :: N :: rest → dt x ≠ Bool → 1 ≤ n → n + 1 ≤ N →
  succeeds (_image_tv x 1 n)
    (λ tv, (dt tv.1 = abs_type (dt x) ∧ shape tv.1 = s0 :: N :: rest) ∧
           (dt tv.2 = abs_type (dt x) ∧ shape tv.2 = s0 :: N :: rest)).
Proof.
  intros Hx Hd Hn HN. s_destruct x. unfold _image_tv. cbv zeta.
  apply s_bind_ret.
  eapply s_bind;
    [eapply (s_slice1 _ _ _ _ _ _ (n + 1)); [reflexivity|slice_tac]|s_intro].
  eapply s_bind;
    [eapply (s_slice1 _ _ _ _ _ _ (n + 1)); [reflexivity|slice_tac]|s_intro].
  eapply s_bind; [eapply s_concatenate1; reflexivity|s_intro].
  eapply s_bind;
    [eapply (s_slice1 _ _ _ _ _ _ N); [reflexivity|slice_tac]|s_intro].
  eapply s_bind;
    [eapply (s_slice1 _ _ _ _ _ _ N); [reflexivity|slice_tac]|s_intro].
  eapply s_bind; [eapply s_subtract; [done|apply broadcast_same]|s_intro].
  eapply s_bind; [apply s_absolute|s_intro].
  eapply s_bind;
    [eapply (s_slice1 _ _ _ _ _ _ N); [reflexivity|slice_tac]|s_intro].
  eapply s_bind;
    [eapply (s_slice1 _ _ _ _ _ _ N); [reflexivity|slice_tac]|s_intro].
  eapply s_bind; [eapply s_subtract; [done|apply broadcast_same]|s_intro].
  eapply s_bind; [apply s_absolute|s_intro].
  apply s_bind_unit.
  { apply s_mfor. intros k Hk. unfold py_range in Hk.
    apply elem_of_seq in Hk.
    eapply (s_tv_step _ _ _ _ _ s0 N); cbn [dt shape];
      first [reflexivity|done|lia]. }
  by apply s_ret.
Qed.


Lemma abs_fft_not_bool d : abs_type (fft_type d) ≠ Bool.
Proof. by destruct d. Qed.

(** Facts about the dtypes of a float or complex input. *)
Ltac dt_tac :=
  match goal with
  | H : 3 ≤ kind_rank (kind_of ?d) |- _ =>
      destruct d; simpl in H; first [lia|done]
  end.

(** Broadcasting of explicit shapes. *)
Ltac bcast_tac :=
  unfold broadcast, ndim, view;
  cbn [shape length Nat.eqb Nat.max Nat.sub replicate app broadcast_aligned];
  rewrite ?broadcast_dim_same, ?broadcast_dim_one; reflexivity.

Lemma index_in_bounds d i :
  (- Z.of_nat d ≤ i < Z.of_nat d)%Z →
  ((- Z.of_nat d <=? i) && (i <? Z.of_nat d))%Z = true.
Proof.
  intros Hi. apply andb_true_intro. split; [apply Z.leb_le|apply Z.ltb_lt]; lia.
Qed.

(** The shape an index expression selects. *)
Ltac sel_tac :=
  repeat (cbn [shape selection]; rewrite ?index_in_bounds by lia);
  reflexivity.

Ltac s_side :=
  unfold ndim; cbn [dt shape buf fst snd length];
  first [ exact I | apply broadcast_same | eassumption | reflexivity | lia
        | apply abs_fft_not_bool | bcast_tac | sel_tac | dt_tac ].

Ltac s_call lem := eapply s_bind; [eapply lem; s_side|s_intro].
Ltac s_call_unit lem := apply s_bind_unit; [eapply lem; s_side|].

Ltac s_intro_pair :=
  cbv beta; intros [[? ? ? ?] [? ? ? ?]] [[? ?] [? ?]];
  cbn [fst snd dt shape] in *; rewrite ?promote_types_same in *; subst.

Lemma s_shifted_image c eks s0 N rest :
  shape c = s0 :: N :: rest →
  broadcast (s0 :: N :: rest) (shape eks) = Some (s0 :: N :: rest) →
  0 < s0 → 0 < N →
  succeeds (shifted_image c eks)
    (λ r, dt r = abs_type (fft_type (promote_types (dt c) (dt eks))) ∧
          shape r = s0 :: N :: rest).
Proof.
  intros Hc Hb H0 HN. s_destruct c. s_destruct eks. unfold shifted_image.
  s_call s_arith. s_call s_fftshift. s_call s_ifft2.
  eapply s_conseq; [apply s_absolute|]. by intros ? [-> ->].
Qed.

(** One candidate of the shift search, on arrays of one shape. *)
Lemma s_search_step n c k isp sp tvp isn sn tvn s s0 N rest :
  shape c = s0 :: N :: rest →
  broadcast (s0 :: N :: rest) (shape k) = Some (s0 :: N :: rest) →
  0 < s0 → 1 ≤ n → n + 1 ≤ N →
  shape isp = s0 :: N :: rest → shape sp = s0 :: N :: rest →
  shape tvp = s0 :: N :: rest → shape isn = s0 :: N :: rest →
  shape sn = s0 :: N :: rest → shape tvn = s0 :: N :: rest →
  succeeds (search_step selected n c k isp sp tvp isn sn tvn s) (λ _, True).
Proof.
  intros Hc Hb H0 Hn HN Hisp Hsp Htvp Hisn Hsn Htvn.
  s_destruct c. s_destruct k. s_destruct isp. s_destruct sp.
  s_destruct tvp. s_destruct isn. s_destruct sn. s_destruct tvn.
  unfold search_step.
  s_call s_with_scalar. s_call s_float_func.
  s_call s_shifted_image.
  eapply s_bind; [eapply s_image_tv; s_side|s_intro_pair].
  s_call s_arith. s_call s_conj.
  s_call s_shifted_image.
  eapply s_bind; [eapply s_image_tv; s_side|s_intro_pair].
  s_call s_arith.
  s_call s_greater. s_call s_greater.
  s_call s_mask_get. s_call_unit s_mask_set.
  s_call_unit s_mask_set.
  s_call s_mask_get. s_call_unit s_mask_set.
  s_call s_mask_get. s_call_unit s_mask_set.
  s_call_unit s_mask_set.
  s_call s_mask_get.
  eapply s_mask_set; s_side.
Qed.


Lemma s_from_some {A} (a : A) e :
  succeeds (from_option (Some a) e) (λ x, x = a).
Proof. by apply s_ret. Qed.

Lemma s_transpose10_copy a s0 s1 rest :
  shape a = s0 :: s1 :: rest →
  succeeds (t <- transpose10 a ;; copy t)
    (λ r, dt r = dt a ∧ shape r = s1 :: s0 :: rest).
Proof.
  intros Ha. eapply s_bind; [by eapply s_transpose10|].
  intros t [<- <-]. apply s_copy.
Qed.

(** The statements of [_gibbs_removal_1d] after [xs] was created. *)
Ltac s_shift_search :=
  eapply s_bind; [eapply s_image_tv; s_side|s_intro_pair];
  s_call s_arith; do 3 s_call s_copy; do 2 s_call s_zeros;
  cbn [shape];
  eapply s_bind; [apply s_from_some|intros ? ->];
  s_call s_fft2; s_call s_fftshift; s_call s_linspace;
  do 2 s_call s_with_scalar;
  apply s_bind_unit;
    [apply s_mfor; intros ? _; eapply s_search_step; s_side|];
  s_call s_arith;
  eapply s_bind; [apply s_nonzero|intros ? ->];
  do 3 s_call s_take_idx; s_call s_subtract; s_call s_take_idx;
  s_call s_arith;
  s_call_unit s_idiv; do 2 s_call_unit s_arith_inplace;
  s_call_unit s_put_idx.

(** [_gibbs_removal_1d] returns an array of the dtype and shape of [x]
    when [x] is a float or complex image, or batch of images, whose
    corrected axis holds at least [n_points + 1] samples. *)
Lemma s_gibbs_removal_1d x axis n s0 s1 rest :
  shape x = s0 :: s1 :: rest → length rest ≤ 1 →
  3 ≤ kind_rank (kind_of (dt x)) → 1 ≤ n →
  n + 1 ≤ match axis with 0 => s0 | _ => s1 end →
  0 < match axis with 0 => s1 | _ => s0 end →
  succeeds (_gibbs_removal_1d selected x axis n)
    (λ r, dt r = dt x ∧ shape r = s0 :: s1 :: rest).
Proof.
  intros Hx Hrest Hd Hn HN H0. s_destruct x.
  unfold _gibbs_removal_1d. cbv zeta. s_call s_linspace.
  destruct rest as [|b [|]]; simpl in Hrest; try lia;
    destruct axis as [|axis].
  - s_call s_transpose10_copy. s_shift_search.
    eapply s_conseq; [eapply s_transpose10; s_side|]. by intros ? [-> ->].
  - s_call s_copy. s_shift_search. by apply s_ret.
  - s_call s_transpose10_copy. s_shift_search.
    eapply s_conseq; [eapply s_transpose10; s_side|]. by intros ? [-> ->].
  - s_call s_copy. s_shift_search. by apply s_ret.
Qed.


(** [_weights] returns two arrays of the given shape whenever both extents
    are positive. *)
Lemma s_weights n0 n1 d :
  1 ≤ n0 → 1 ≤ n1 →
  succeeds (_weights [n0; n1] d)
    (λ G, (dt G.1 = promote_types Float32 d ∧ shape G.1 = [n0; n1]) ∧
          (dt G.2 = promote_types Float32 d ∧ shape G.2 = [n0; n1])).
Proof.
  intros H0 H1. unfold _weights. cbv zeta.
  do 2 s_call s_zeros.
  eapply s_bind; [apply s_from_some|intros ? ->]. s_call s_linspace.
  eapply s_bind; [apply s_from_some|intros ? ->]. s_call s_linspace.
  do 2 s_call s_slice0. do 2 s_call s_alloc.
  s_call s_float_func. s_call s_with_scalar.
  s_call s_float_func. s_call s_with_scalar.
  s_call s_arith. s_call s_divide. s_call_unit s_setitem.
  s_call s_arith. s_call s_divide. s_call_unit s_setitem.
  do 12 s_call_unit s_setitem.
  by apply s_ret.
Qed.

Lemma can_cast_to_complex a b :
  kind_of a = KComplex → can_cast_same_kind b a = true.
Proof.
  intros Ha. unfold can_cast_same_kind. rewrite Ha.
  apply Nat.leb_le. by destruct (kind_of b); simpl; lia.
Qed.

(** [_gibbs_removal_2d] with the weights handed in. *)
Lemma s_gibbs_removal_2d image n g0 g1 s0 s1 rest :
  shape image = s0 :: s1 :: rest → length rest ≤ 1 →
  3 ≤ kind_rank (kind_of (dt image)) → 1 ≤ n →
  n + 1 ≤ s0 → n + 1 ≤ s1 →
  broadcast (s0 :: s1 :: rest) (shape g0) = Some (s0 :: s1 :: rest) →
  broadcast (s0 :: s1 :: rest) (shape g1) = Some (s0 :: s1 :: rest) →
  succeeds (_gibbs_removal_2d selected image n (Some g0) (Some g1))
    (λ r, kind_of (dt r) = KComplex ∧ shape r = s0 :: s1 :: rest).
Proof.
  intros Hi Hrest Hd Hn H0 H1 Hg0 Hg1.
  s_destruct image. s_destruct g0. s_destruct g1.
  unfold _gibbs_removal_2d. apply s_bind_ret.
  apply s_bind_unit.
  { apply s_guard. by destruct rest as [|b [|]]; simpl in *; try lia. }
  do 2 s_call s_gibbs_removal_1d.
  do 2 s_call s_fft2. s_call s_fftshift. s_call s_arith.
  s_call s_fftshift. s_call s_arith.
  apply s_bind_unit.
  { apply s_arith_inplace; cbn [dt shape]; [|apply broadcast_same].
    apply can_cast_to_complex, kind_promote_complex, kind_fft_type. }
  s_call s_ifft2.
  apply s_bind_unit.
  { apply s_absolute_out; cbn [dt shape]; [|apply broadcast_same].
    apply can_cast_to_complex, kind_fft_type. }
  apply s_ret. split; [apply kind_fft_type|done].
Qed.


(** A swap of two axes of an explicit shape. *)
Ltac swap_tac :=
  lazymatch goal with
  | |- ?l = Ok _ => let v := eval vm_compute in l in change l with v
  end; reflexivity.

Lemma s_gibbs_removal vol slice_axis n :
  3 ≤ kind_rank (kind_of (dt vol)) → 2 ≤ ndim vol ≤ 4 →
  (0 ≤ slice_axis ≤ 2)%Z → 1 ≤ n →
  (∀ i d, shape vol !! i = Some d → i < 3 →
          (2 < ndim vol → Z.of_nat i ≠ slice_axis) → n + 1 ≤ d) →
  succeeds (gibbs_removal selected vol slice_axis n)
    (λ r, kind_of (dt r) = KComplex ∧ shape r = shape vol).
Proof.
  intros Hd Hnd Hsa Hn Hext. destruct vol as [d s b c].
  unfold ndim in *. cbn [dt shape] in *.
  assert (slice_axis = 0 ∨ slice_axis = 1 ∨ slice_axis = 2)%Z
    as [->|[->| ->]] by lia;
  destruct s as [|e0 [|e1 [|e2 [|e3 [|]]]]]; simpl in Hnd; try lia.
  all: pose proof (Hext 0 _ eq_refl) as Hx0;
    pose proof (Hext 1 _ eq_refl) as Hx1;
    try pose proof (Hext 2 _ eq_refl) as Hx2; simpl in Hx0, Hx1;
    try simpl in Hx2; clear Hext.
  all: unfold gibbs_removal; simpl.
  all: repeat lazymatch goal with
       | |- succeeds (bind (ret _) _) _ => apply s_bind_ret; simpl
       | |- succeeds (ret _) _ => by apply s_ret
       | |- succeeds (swapaxes _ _ _) _ =>
           eapply s_conseq; [eapply s_swapaxes; cbn [shape]; swap_tac|];
           cbv beta; cbn [dt]; by intros ? [-> ->]
       | |- succeeds (bind (swapaxes _ _ _) _) _ =>
           eapply s_bind; [eapply s_swapaxes; cbn [shape]; swap_tac|s_intro];
           simpl
       | |- succeeds (bind (reshape _ _) _) _ =>
           eapply s_bind; [eapply s_reshape; simpl; lia|s_intro]; simpl
       | |- succeeds (bind (_weights _ _) _) _ =>
           eapply s_bind; [eapply s_weights; lia|s_intro_pair];
           unfold newaxis_last, view; cbn [dt shape buf app]
       | |- succeeds (bind (_gibbs_removal_2d _ _ _ _ _) _) _ =>
           eapply s_bind;
             [eapply s_gibbs_removal_2d;
                first [reflexivity|eassumption|simpl; lia|bcast_tac]
             |cbv beta; intros [? ? ? ?] [? ?]; cbn [dt shape] in *; subst]
       end.
Qed.

(** ** Descriptor semantics: what a returning call implies *)

(** Every value the computation can return satisfies [P]. *)
Definition partial {A} (m : M A) (P : A → Prop) : Prop :=
  ∀ h a, (m h).1 = Ok a → P a.

Lemma p_ret {A} (a : A) (P : A → Prop) : P a → partial (ret a) P.
Proof. by intros Ha h ? [= <-]. Qed.

Lemma p_raise {A} e (P : A → Prop) : partial (raise e) P.
Proof. by intros h a. Qed.

Lemma p_bind {A B} (m : M A) (f : A → M B) P Q :
  partial m P → (∀ a, P a → partial (f a) Q) → partial (bind m f) Q.
Proof.
  intros Hm Hf h b. unfold bind. pose proof (Hm h) as Hp.
  destruct (m h) as [[a|e] h']; simpl in *; [|done].
  apply (Hf a). by apply Hp.
Qed.

Lemma p_bind_ret {A B} (a : A) (f : A → M B) Q :
  partial (f a) Q → partial (bind (ret a) f) Q.
Proof. intros Hf h. apply (Hf h). Qed.

Lemma p_conseq {A} (m : M A) (P Q : A → Prop) :
  partial m P → (∀ a, P a → Q a) → partial m Q.
Proof. intros Hm HPQ h a Ha. by apply HPQ, (Hm h). Qed.

Lemma p_any {A} (m : M A) : partial m (λ _, True).
Proof. by intros h a _. Qed.


Lemma p_bind_any {A B} (m : M A) (f : A → M B) Q :
  (∀ a, partial (f a) Q) → partial (bind m f) Q.
Proof. intros Hf. eapply p_bind; [apply p_any|]. by intros a _. Qed.

(** A computation that cannot return stops what follows it. *)
Lemma p_bind_stuck {A B} (m : M A) (f : A → M B) Q :
  partial m (λ _, False) → partial (bind m f) Q.
Proof. intros Hm. eapply p_bind; [exact Hm|]. by intros a []. Qed.





























(** *** Integer and boolean input *)

Lemma p_alloc_dt d s : partial (alloc d s) (λ r, dt r = d).
Proof. by intros h a [= <-]. Qed.

Lemma p_transpose10_dt a : partial (transpose10 a) (λ r, dt r = dt a).
Proof.
  unfold transpose10. destruct (shape a) as [|s0 [|s1 rest]];
    try apply p_raise.
  by apply p_ret.
Qed.

Lemma p_take_idx_dt a idx : partial (take_idx a idx) (λ r, dt r = dt a).
Proof. unfold take_idx. apply p_bind_any. intros _. apply p_alloc_dt. Qed.

Lemma p_ufunc2_dt ty a b :
  partial (ufunc2 ty a b) (λ r, ty (dt a) (dt b) = Ok (dt r)).
Proof.
  unfold ufunc2. intros h r. unfold bind, from_result.
  destruct (ty (dt a) (dt b)) as [d|e]; simpl; [|done].
  destruct (from_option _ _ h) as [[s|e] h']; simpl; [|done].
  by intros [= <-].
Qed.

Lemma p_ufunc2_inplace_cast ty a b :
  partial (ufunc2_inplace ty a b)
    (λ _, ∃ d, ty (dt a) (dt b) = Ok d ∧ can_cast_same_kind d (dt a) = true).
Proof.
  unfold ufunc2_inplace. intros h r. unfold bind, from_result.
  destruct (ty (dt a) (dt b)) as [d|e]; simpl; [|done].
  destruct (can_cast_same_kind d (dt a)) eqn:Hc; simpl; [|done].
  intros _. by exists d.
Qed.

Lemma p_swapaxes_dt a ax1 ax2 :
  partial (swapaxes a ax1 ax2) (λ r, dt r = dt a).
Proof.
  unfold swapaxes. apply p_bind_any. intros s. by apply p_ret.
Qed.

Lemma p_reshape_dt a s : partial (reshape a s) (λ r, dt r = dt a).
Proof.
  unfold reshape. apply p_bind_any. intros _.
  destruct (contig a); [by apply p_ret|apply p_alloc_dt].
Qed.

(** [xs], [isp] and [isn] keep the dtype of the input, so for an integer
    image [tmp] is an integer array, and [tmp /= sp[idx] + sn_i] would
    have to store a float result in it. *)
Lemma p_gibbs_removal_1d_integer x axis n :
  kind_rank (kind_of (dt x)) ≤ 2 →
  partial (_gibbs_removal_1d selected x axis n) (λ _, False).
Proof.
  intros Hd. unfold _gibbs_removal_1d. cbv zeta.
  apply p_bind_any. intros ssamp.
  eapply (p_bind _ _ (λ xs, dt xs = dt x)).
  { destruct axis; [|apply p_alloc_dt].
    eapply p_bind; [apply p_transpose10_dt|]. intros t <-.
    apply p_alloc_dt. }
  intros xs Hxs.
  do 3 (apply p_bind_any; intros ?).
  eapply p_bind; [apply p_alloc_dt|]. intros isp Hisp.
  eapply p_bind; [apply p_alloc_dt|]. intros isn Hisn.
  eapply p_bind; [apply p_alloc_dt|]. intros sp Hsp.
  eapply p_bind; [apply p_alloc_dt|]. intros sn Hsn.
  do 9 (apply p_bind_any; intros ?).
  eapply p_bind; [apply p_take_idx_dt|]. intros sn_i Hsn_i.
  eapply p_bind; [apply p_take_idx_dt|]. intros isn_i Hisn_i.
  eapply p_bind; [apply p_take_idx_dt|]. intros isp_i Hisp_i.
  eapply p_bind; [apply p_ufunc2_dt|]. intros tmp Htmp.
  eapply p_bind; [apply p_take_idx_dt|]. intros sp_i Hsp_i.
  eapply p_bind; [apply p_ufunc2_dt|]. intros den Hden.
  apply p_bind_stuck.
  eapply p_conseq; [apply p_ufunc2_inplace_cast|].
  intros _ (d & Hty & Hcast).
  rewrite Hisp_i, Hisn_i, Hisp, Hisn, Hxs in Htmp.
  rewrite Hsp_i, Hsn_i, Hsp, Hsn in Hden.
  unfold divide_type in Hty. injection Hty as <-.
  unfold arith_type in Hden. injection Hden as Hden.
  rewrite <-Hden in Hcast. clear Hden.
  destruct (dt x); simpl in Hd; try lia; simpl in Htmp;
    try discriminate; injection Htmp as Htmp; rewrite <-Htmp in Hcast;
    discriminate.
Qed.

Lemma p_gibbs_removal_2d_integer image n G0 G1 :
  kind_rank (kind_of (dt image)) ≤ 2 →
  partial (_gibbs_removal_2d selected image n G0 G1) (λ _, False).
Proof.
  intros Hd. unfold _gibbs_removal_2d.
  do 2 (apply p_bind_any; intros ?).
  by apply p_bind_stuck, p_gibbs_removal_1d_integer.
Qed.

(** No call of [gibbs_removal] on an integer or boolean volume returns. *)
Lemma p_gibbs_removal_integer vol slice_axis n :
  kind_rank (kind_of (dt vol)) ≤ 2 →
  partial (gibbs_removal selected vol slice_axis n) (λ _, False).
Proof.
  intros Hd. unfold gibbs_removal. cbv zeta.
  eapply (p_bind _ _ (λ v, dt v = dt vol)).
  { destruct (2 <? slice_axis)%Z; [apply p_raise|].
    destruct (_ && _); [apply p_swapaxes_dt|by apply p_ret]. }
  intros v Hv.
  eapply (p_bind _ _ (λ v', dt v' = dt vol)).
  { destruct (ndim vol =? 4).
    - destruct (shape v) as [|? [|? [|? [|? [|]]]]]; try apply p_raise.
      rewrite <-Hv. apply p_reshape_dt.
    - destruct (4 <? ndim vol); [apply p_raise|].
      destruct (ndim vol <? 2); [apply p_raise|by apply p_ret]. }
  intros v' Hv'.
  apply p_bind_any. intros G.
  apply p_bind_stuck, p_gibbs_removal_2d_integer. by rewrite Hv'.
Qed.

(** ** Descriptor semantics: which exception a call raises *)

(** The computation raises [e]. *)
Definition raises {A} (m : M A) (e : exn) : Prop :=
  ∀ h, ∃ h', m h = (Raise e, h').

Lemma r_raise {A} e : raises (raise (A:=A) e) e.
Proof. intros h. by exists h. Qed.

Lemma r_bind_raise {A B} (m : M A) (f : A → M B) e :
  raises m e → raises (bind m f) e.
Proof.
  intros Hm h. unfold bind. destruct (Hm h) as (h' & ->). by exists h'.
Qed.

Lemma r_bind {A B} (m : M A) (f : A → M B) P e :
  succeeds m P → (∀ a, P a → raises (f a) e) → raises (bind m f) e.
Proof.
  intros Hm Hf h. unfold bind. destruct (Hm h) as (a & h' & -> & Ha).
  apply (Hf a Ha).
Qed.

Lemma r_bind_ret {A B} (a : A) (f : A → M B) e :
  raises (f a) e → raises (bind (ret a) f) e.
Proof. intros Hf h. apply (Hf h). Qed.

Lemma r_bind_unit {B} (m : M unit) (k : unit → M B) e :
  succeeds m (λ _, True) → raises (k tt) e → raises (bind m k) e.
Proof. intros Hm Hk. eapply r_bind; [exact Hm|]. by intros [] _. Qed.

Lemma r_guard e : raises (guard false e) e.
Proof. apply r_raise. Qed.

Lemma raises_not_ok {A} (m : M A) e h a : raises m e → (m h).1 ≠ Ok a.
Proof. intros Hm. destruct (Hm h) as (h' & ->). done. Qed.

Ltac r_call lem := eapply r_bind; [eapply lem; s_side|s_intro].
Ltac r_call_unit lem := apply r_bind_unit; [eapply lem; s_side|].

(** *** The checks of [gibbs_removal] *)

Lemma normalize_axis_nonneg nd (ax : Z) :
  (0 ≤ ax < Z.of_nat nd)%Z → normalize_axis nd ax = Ok (Z.to_nat ax).
Proof.
  intros Ha. unfold normalize_axis.
  rewrite (proj2 (Z.leb_le _ _)), (proj2 (Z.ltb_lt _ _)) by lia. simpl.
  by rewrite Z.mod_small by lia.
Qed.

Lemma normalize_axis_neg nd (ax : Z) :
  (- Z.of_nat nd ≤ ax < 0)%Z →
  normalize_axis nd ax = Ok (Z.to_nat (ax + Z.of_nat nd)).
Proof.
  intros Ha. unfold normalize_axis.
  rewrite (proj2 (Z.leb_le _ _)), (proj2 (Z.ltb_lt _ _)) by lia. simpl.
  do 2 f_equal. rewrite <-(Z.mod_small (ax + Z.of_nat nd) (Z.of_nat nd)) by lia.
  rewrite <-(Z.mul_1_l (Z.of_nat nd)) at 2. rewrite Z.mod_add by lia. done.
Qed.

Lemma normalize_axis_below nd (ax : Z) :
  (ax < - Z.of_nat nd)%Z → normalize_axis nd ax = Raise AxisError.
Proof.
  intros Ha. unfold normalize_axis.
  by rewrite (proj2 (Z.leb_gt _ _)) by lia.
Qed.

Lemma swap_shape_in_range s (a1 a2 : Z) :
  (- Z.of_nat (length s) ≤ a1 < Z.of_nat (length s))%Z →
  (- Z.of_nat (length s) ≤ a2 < Z.of_nat (length s))%Z →
  ∃ s', swap_shape s a1 a2 = Ok s'.
Proof.
  intros H1 H2. unfold swap_shape.
  assert (∀ a, (- Z.of_nat (length s) ≤ a < Z.of_nat (length s))%Z →
            ∃ i, normalize_axis (length s) a = Ok i ∧ i < length s) as Hn.
  { intros a Ha. destruct (Z.ltb_spec a 0).
    - rewrite normalize_axis_neg by lia. eexists; split; [done|lia].
    - rewrite normalize_axis_nonneg by lia. eexists; split; [done|lia]. }
  destruct (Hn a1 H1) as (i & -> & Hi), (Hn a2 H2) as (j & -> & Hj).
  destruct (lookup_lt_is_Some_2 s i Hi) as [si ->].
  destruct (lookup_lt_is_Some_2 s j Hj) as [sj ->]. eauto.
Qed.

(** The driver rejects a slice axis above 2 and a rank outside 2..4 with
    ValueError; the rank is looked at after the swap of the slice axis. *)
Lemma r_gibbs_removal_checks vol slice_axis n :
  (2 < slice_axis)%Z ∨
  ((slice_axis ≤ 2)%Z ∧ ndim vol < 2) ∨
  ((- Z.of_nat (ndim vol) ≤ slice_axis ≤ 2)%Z ∧ 4 < ndim vol) →
  raises (gibbs_removal selected vol slice_axis n) ValueError.
Proof.
  intros Hc. unfold gibbs_removal. cbv zeta.
  destruct Hc as [Hsa|[[Hsa Hnd]|[Hsa Hnd]]].
  - rewrite (proj2 (Z.ltb_lt _ _) Hsa). apply r_bind_raise, r_raise.
  - rewrite (proj2 (Z.ltb_ge _ _)) by lia.
    rewrite (proj2 (Nat.ltb_ge 2 (ndim vol))) by lia.
    rewrite andb_false_r. apply r_bind_ret.
    rewrite (proj2 (Nat.eqb_neq _ 4)) by lia.
    rewrite (proj2 (Nat.ltb_ge 4 _)) by lia.
    rewrite (proj2 (Nat.ltb_lt _ 2)) by lia.
    apply r_bind_raise, r_raise.
  - rewrite (proj2 (Z.ltb_ge _ _)) by lia.
    eapply (r_bind _ _ (λ _, True)).
    { destruct (_ && _); [|by apply s_ret].
      destruct (swap_shape_in_range (shape vol) slice_axis 2) as [s Hs];
        [unfold ndim in *; lia..|].
      eapply s_conseq; [by eapply s_swapaxes|done]. }
    intros v _.
    rewrite (proj2 (Nat.eqb_neq _ 4)) by lia.
    rewrite (proj2 (Nat.ltb_lt 4 _)) by lia.
    apply r_bind_raise, r_raise.
Qed.

(** A negative slice axis is handed to [np.swapaxes] unchecked: below
    minus the rank it raises AxisError (for a rank above 2; a 2D image
    never reaches the swap). *)
Lemma r_gibbs_removal_axis_error vol slice_axis n :
  (slice_axis < - Z.of_nat (ndim vol))%Z → 2 < ndim vol →
  raises (gibbs_removal selected vol slice_axis n) AxisError.
Proof.
  intros Hsa Hnd. unfold gibbs_removal. cbv zeta.
  rewrite (proj2 (Z.ltb_ge _ _)) by lia.
  rewrite (proj2 (Z.ltb_lt slice_axis 2)) by lia.
  rewrite (proj2 (Nat.ltb_lt 2 _)) by lia. simpl.
  apply r_bind_raise. unfold swapaxes, swap_shape.
  rewrite normalize_axis_below by (unfold ndim in *; lia).
  apply r_bind_raise. intros h. by exists h.
Qed.


(** *** The rank check of [_gibbs_removal_2d] and the weights *)

Lemma r_setitem a ixs v e :
  selection (shape a) ixs = Raise e → raises (setitem a ixs v) e.
Proof.
  intros Hs. unfold setitem. rewrite Hs. apply r_bind_raise.
  intros h. by exists h.
Qed.

(** [_weights] reads [shape[0]] and [shape[1]]. *)
Lemma r_weights_short s d :
  length s < 2 → raises (_weights s d) IndexError.
Proof.
  intros Hs. unfold _weights. cbv zeta. do 2 r_call s_zeros.
  destruct s as [|n0 [|n1 s]]; simpl in Hs; try lia.
  - apply r_bind_raise, r_raise.
  - eapply r_bind; [apply s_from_some|intros ? ->]. r_call s_linspace.
    apply r_bind_raise, r_raise.
Qed.

(** On an empty axis the integer indices 0 and -1 of the boundary
    assignments are out of bounds. *)
Lemma r_weights_empty n0 n1 d :
  n0 = 0 ∨ n1 = 0 → raises (_weights [n0; n1] d) IndexError.
Proof.
  intros Hz. unfold _weights. cbv zeta.
  do 2 r_call s_zeros.
  eapply r_bind; [apply s_from_some|intros ? ->]. r_call s_linspace.
  eapply r_bind; [apply s_from_some|intros ? ->]. r_call s_linspace.
  do 2 r_call s_slice0. do 2 r_call s_alloc.
  r_call s_float_func. r_call s_with_scalar.
  r_call s_float_func. r_call s_with_scalar.
  r_call s_arith. r_call s_divide. r_call_unit s_setitem.
  r_call s_arith. r_call s_divide. r_call_unit s_setitem.
  destruct (decide (n1 = 0)) as [->|Hn1].
  - apply r_bind_raise, r_setitem. reflexivity.
  - destruct Hz as [->|?]; [|done].
    do 2 r_call_unit s_setitem.
    apply r_bind_raise, r_setitem. reflexivity.
Qed.

(** With the weights handed in, the rank check of [_gibbs_removal_2d] is
    the first thing that can fail. *)
Lemma r_gibbs_removal_2d_rank image n g0 g1 :
  ndim image ≠ 2 → ndim image ≠ 3 →
  raises (_gibbs_removal_2d selected image n (Some g0) (Some g1)) ValueError.
Proof.
  intros H2 H3. unfold _gibbs_removal_2d. apply r_bind_ret.
  rewrite (proj2 (Nat.eqb_neq _ _) H2), (proj2 (Nat.eqb_neq _ _) H3).
  apply r_bind_raise, r_raise.
Qed.

(** Without them, the weights are computed before the rank is checked: an
    array of rank below 2 fails there, with IndexError. *)
Lemma r_gibbs_removal_2d_no_weights image n G0 G1 :
  G0 = None ∨ G1 = None → ndim image < 2 →
  raises (_gibbs_removal_2d selected image n G0 G1) IndexError.
Proof.
  intros HG Hnd. unfold _gibbs_removal_2d.
  assert (raises (G <- _weights (take 2 (shape image)) (dt image) ;;
                  if 2 <? ndim image
                  then ret (newaxis_last G.1, newaxis_last G.2)
                  else ret G) IndexError) as Hw.
  { apply r_bind_raise, r_weights_short.
    rewrite length_take. unfold ndim in Hnd. lia. }
  apply r_bind_raise.
  destruct G0, G1; try done; by destruct HG.
Qed.


(** *** No neighbour at all: [n_points = 0] *)

Lemma broadcast_axis1_mismatch s0 x y rest :
  x ≠ y → x ≠ 1 → y ≠ 1 → broadcast (s0 :: x :: rest) (s0 :: y :: rest) = None.
Proof.
  intros Hxy Hx Hy. unfold broadcast. simpl.
  rewrite Nat.max_id, Nat.sub_diag. simpl.
  rewrite broadcast_dim_same. simpl. unfold broadcast_dim.
  by rewrite (proj2 (Nat.eqb_neq _ _) Hxy), (proj2 (Nat.eqb_neq _ _) Hx),
    (proj2 (Nat.eqb_neq _ _) Hy).
Qed.

Lemma r_ufunc2_shapes ty a b d :
  ty (dt a) (dt b) = Ok d → broadcast (shape a) (shape b) = None →
  raises (ufunc2 ty a b) ValueError.
Proof.
  intros Hty Hb. unfold ufunc2. rewrite Hty, Hb.
  eapply r_bind; [by apply (s_from_result d (λ x, x = d))|].
  intros ? ->. apply r_bind_raise, r_raise.
Qed.

(** With [n_points = 0] the slice [xs[:, 2:-0]] is [xs[:, 2:0]], which is
    empty, and the first subtraction cannot broadcast. *)
Lemma r_image_tv_zero x s0 N rest :
  shape x = s0 :: N :: rest → dt x ≠ Bool → 2 ≤ N →
  raises (_image_tv x 1 0) ValueError.
Proof.
  intros Hx Hd HN. s_destruct x. unfold _image_tv. cbv zeta.
  apply r_bind_ret.
  eapply r_bind;
    [eapply (s_slice1 _ _ _ _ _ _ 1); [reflexivity|slice_tac]|s_intro].
  eapply r_bind;
    [eapply (s_slice1 _ _ _ _ _ _ 1); [reflexivity|slice_tac]|s_intro].
  eapply r_bind; [eapply s_concatenate1; reflexivity|s_intro].
  eapply r_bind;
    [eapply (s_slice1 _ _ _ _ _ _ N); [reflexivity|slice_tac]|s_intro].
  eapply r_bind;
    [eapply (s_slice1 _ _ _ _ _ _ 0); [reflexivity|slice_tac]|s_intro].
  apply r_bind_raise. eapply r_ufunc2_shapes; cbn [dt shape].
  - unfold subtract_type. rewrite promote_types_same.
    match goal with |- context [match ?d with _ => _ end] =>
      by destruct d end.
  - apply broadcast_axis1_mismatch; lia.
Qed.

Lemma r_gibbs_removal_1d_zero x s0 s1 rest :
  shape x = s0 :: s1 :: rest → dt x ≠ Bool → 2 ≤ s1 →
  raises (_gibbs_removal_1d selected x 1 0) ValueError.
Proof.
  intros Hx Hd HN. s_destruct x. unfold _gibbs_removal_1d. cbv zeta.
  r_call s_linspace. r_call s_copy.
  apply r_bind_raise. eapply r_image_tv_zero; [reflexivity|done|done].
Qed.

Lemma r_gibbs_removal_2d_zero image g0 g1 s0 s1 rest :
  shape image = s0 :: s1 :: rest → length rest ≤ 1 →
  dt image ≠ Bool → 2 ≤ s1 →
  raises (_gibbs_removal_2d selected image 0 (Some g0) (Some g1)) ValueError.
Proof.
  intros Hi Hrest Hd HN. unfold _gibbs_removal_2d. apply r_bind_ret.
  apply r_bind_unit.
  { apply s_guard. unfold ndim. rewrite Hi.
    by destruct rest as [|b [|]]; simpl in *; try lia. }
  by apply r_bind_raise, (r_gibbs_removal_1d_zero _ s0 s1 rest).
Qed.

Lemma r_gibbs_removal_zero vol slice_axis :
  dt vol ≠ Bool → 2 ≤ ndim vol ≤ 4 → (0 ≤ slice_axis ≤ 2)%Z →
  Forall (λ d, 2 ≤ d) (shape vol) →
  raises (gibbs_removal selected vol slice_axis 0) ValueError.
Proof.
  intros Hd Hnd Hsa Hext. destruct vol as [d s b c].
  unfold ndim in *. cbn [dt shape] in *.
  assert (slice_axis = 0 ∨ slice_axis = 1 ∨ slice_axis = 2)%Z
    as [->|[->| ->]] by lia;
  destruct s as [|e0 [|e1 [|e2 [|e3 [|]]]]]; simpl in Hnd; try lia.
  all: repeat match goal with
       | H : Forall _ (_ :: _) |- _ => apply Forall_cons in H as [? H]
       end.
  all: unfold gibbs_removal; simpl.
  all: repeat lazymatch goal with
       | |- raises (bind (ret _) _) _ => apply r_bind_ret; simpl
       | |- raises (bind (swapaxes _ _ _) _) _ =>
           eapply r_bind; [eapply s_swapaxes; cbn [shape]; swap_tac|s_intro];
           simpl
       | |- raises (bind (reshape _ _) _) _ =>
           eapply r_bind; [eapply s_reshape; simpl; lia|s_intro]; simpl
       | |- raises (bind (_weights _ _) _) _ =>
           eapply r_bind; [eapply s_weights; lia|s_intro_pair];
           unfold newaxis_last, view; cbn [dt shape buf app]
       | |- raises (bind (_gibbs_removal_2d _ _ _ _ _) _) _ =>
           apply r_bind_raise; eapply r_gibbs_removal_2d_zero;
             first [reflexivity|done|simpl; lia]
       end.
Qed.


(** *** The dtype of the result *)

Lemma p_fft2_dt a : partial (fft2 a) (λ r, dt r = fft_type (dt a)).
Proof.
  unfold fft2. destruct (shape a) as [|s0 [|s1 rest]]; try apply p_raise.
  apply p_bind_any. intros _. apply p_alloc_dt.
Qed.

Lemma p_fftshift_dt a : partial (fftshift a) (λ r, dt r = dt a).
Proof. unfold fftshift. apply p_bind_any. intros _. apply p_alloc_dt. Qed.

Lemma p_weights_dt s d :
  partial (_weights s d)
    (λ G, dt G.1 = promote_types Float32 d ∧ dt G.2 = promote_types Float32 d).
Proof.
  unfold _weights. cbv zeta.
  eapply p_bind; [apply p_alloc_dt|]. intros G0 HG0.
  eapply p_bind; [apply p_alloc_dt|]. intros G1 HG1.
  repeat (apply p_bind_any; intros ?).
  by apply p_ret.
Qed.

Lemma p_gibbs_removal_1d_dt x axis n :
  partial (_gibbs_removal_1d selected x axis n) (λ r, dt r = dt x).
Proof.
  unfold _gibbs_removal_1d. cbv zeta.
  apply p_bind_any. intros ssamp.
  eapply (p_bind _ _ (λ xs, dt xs = dt x)).
  { destruct axis; [|apply p_alloc_dt].
    eapply p_bind; [apply p_transpose10_dt|]. intros t <-.
    apply p_alloc_dt. }
  intros xs Hxs.
  repeat (apply p_bind_any; intros ?).
  destruct axis; [|by apply p_ret].
  eapply p_conseq; [apply p_transpose10_dt|]. by intros r ->.
Qed.

Lemma fft_type_blend d :
  fft_type (promote_types (fft_type d) (promote_types Float32 d)) = fft_type d.
Proof. by destruct d. Qed.

Lemma p_gibbs_removal_2d_dt image n g0 g1 :
  dt g0 = promote_types Float32 (dt image) →
  dt g1 = promote_types Float32 (dt image) →
  partial (_gibbs_removal_2d selected image n (Some g0) (Some g1))
    (λ r, dt r = fft_type (dt image)).
Proof.
  intros Hg0 Hg1. unfold _gibbs_removal_2d. apply p_bind_ret.
  apply p_bind_any. intros _.
  eapply p_bind; [apply p_gibbs_removal_1d_dt|]. intros img_c1 Hc1.
  eapply p_bind; [apply p_gibbs_removal_1d_dt|]. intros img_c0 Hc0.
  eapply p_bind; [apply p_fft2_dt|]. intros C1 HC1.
  eapply p_bind; [apply p_fft2_dt|]. intros C0 HC0.
  eapply p_bind; [apply p_fftshift_dt|]. intros s1 Hs1.
  eapply p_bind; [apply p_ufunc2_dt|]. intros imagec Him.
  do 3 (apply p_bind_any; intros ?).
  eapply p_bind; [apply p_fft2_dt|]. intros r Hr.
  apply p_bind_any. intros _. apply p_ret.
  cbn [snd] in Him. injection Him as Him.
  rewrite Hr, <-Him, Hs1, HC1, Hc1, Hg1. apply fft_type_blend.
Qed.

(** Whenever the driver returns, its result has the dtype SciPy's FFT
    gives the input: complex64 for half and single precision, complex128
    otherwise. *)
Lemma p_gibbs_removal_dt vol slice_axis n :
  partial (gibbs_removal selected vol slice_axis n)
    (λ r, dt r = fft_type (dt vol)).
Proof.
  unfold gibbs_removal. cbv zeta.
  eapply (p_bind _ _ (λ v, dt v = dt vol)).
  { destruct (2 <? slice_axis)%Z; [apply p_raise|].
    destruct (_ && _); [apply p_swapaxes_dt|by apply p_ret]. }
  intros v Hv.
  eapply (p_bind _ _ (λ v', dt v' = dt vol)).
  { destruct (ndim vol =? 4).
    - destruct (shape v) as [|? [|? [|? [|? [|]]]]]; try apply p_raise.
      rewrite <-Hv. apply p_reshape_dt.
    - destruct (4 <? ndim vol); [apply p_raise|].
      destruct (ndim vol <? 2); [apply p_raise|by apply p_ret]. }
  intros v' Hv'.
  eapply p_bind; [apply p_weights_dt|]. intros G [HG0 HG1].
  eapply (p_bind _ _ (λ r, dt r = fft_type (dt vol))).
  { rewrite <-Hv'. apply p_gibbs_removal_2d_dt;
      by destruct (2 <? ndim vol). }
  intros r Hr.
  eapply (p_bind _ _ (λ r', dt r' = fft_type (dt vol))).
  { destruct (ndim vol =? 4); [|by apply p_ret].
    rewrite <-Hr. apply p_reshape_dt. }
  intros r' Hr'.
  destruct (_ && _); [|by apply p_ret].
  rewrite <-Hr'. apply p_swapaxes_dt.
Qed.

End descr_total.

(** ** The claims about dtype, shape, errors and aliasing *)

(** What happened to the store between [h] and the end of a computation
    that satisfies a partial triple from [h]: no buffer that existed at
    [h] was written. *)
Lemma ptriple_frame {A} (m : Descr.M A) (P : A → Prop) h b :
  ptriple h m P → b < Descr.next h →
  ∃ ws, Descr.writes (m h).2 = ws ++ Descr.writes h ∧ b ∉ ws.
Proof.
  intros Hm Hb. destruct (Hm h (extends_refl h)) as [[_ (ws & Hw & Hf)] _].
  exists ws. split; [done|]. intros Hin.
  apply (proj1 (Forall_forall _ _) Hf) in Hin. lia.
Qed.

(** C1 (code defect).  Whatever the input, an array that [gibbs_removal]
    returns has a complex dtype, also for a real-valued volume:
    [np.abs(imagec, out=imagec)] stores the magnitude into the complex
    array that [ifft2] returned, and that array is what comes back. *)
Theorem gibbs_removal_returns_complex (selected : nat → nat)
    (vol : Descr.ndarray) (slice_axis : Z) (n_points : nat) (h : Descr.heap)
    (r : Descr.ndarray) :
  (Descr.gibbs_removal selected vol slice_axis n_points h).1 = Descr.Ok r →
  Descr.kind_of (Descr.dt r) = Descr.KComplex.
Proof.
  intros Hr.
  destruct (pt_gibbs_removal selected h vol slice_axis n_points h
              (extends_refl h)) as [_ Hp].
  by destruct (Hp r Hr) as (_ & ? & _).
Qed.

Lemma gibbs_removal_returns_complex_witness :
  Descr.kind_of
    (Descr.dt {| Descr.dt := Descr.Complex128; Descr.shape := [8; 8];
                 Descr.buf := 4139; Descr.contig := true |})
  = Descr.KComplex.
Proof.
  apply (gibbs_removal_returns_complex (λ _, 0)
           {| Descr.dt := Descr.Float64; Descr.shape := [8; 8];
              Descr.buf := 0; Descr.contig := true |}
           2 3 (Descr.fresh_heap 1)).
  vm_compute. reflexivity.
Defined.

(** On a float64 image of shape (8, 8) the driver returns an array of
    dtype complex128. *)
Lemma gibbs_removal_float64_returns_complex128 :
  (Descr.gibbs_removal (λ _, 0)
     {| Descr.dt := Descr.Float64; Descr.shape := [8; 8];
        Descr.buf := 0; Descr.contig := true |}
     2 3 (Descr.fresh_heap 1)).1
  = Descr.Ok {| Descr.dt := Descr.Complex128; Descr.shape := [8; 8];
                Descr.buf := 4139; Descr.contig := true |}.
Proof. vm_compute. reflexivity. Qed.

(** C7.  For a volume of rank 2, 3 or 4 and a slice axis in {0, 1, 2}, an
    array that [gibbs_removal] returns has exactly the shape of the
    input: the flattening of the trailing axes and the swap of the slice
    axis are both undone.  And the call does return one for a float or
    complex volume, n_points >= 1, whose two corrected axes hold at least
    n_points + 1 samples each. *)
Theorem gibbs_removal_shape (selected : nat → nat) (vol : Descr.ndarray)
    (slice_axis : Z) (n_points : nat) (h : Descr.heap) :
  2 ≤ Descr.ndim vol ≤ 4 → (0 ≤ slice_axis ≤ 2)%Z →
  (∀ r, (Descr.gibbs_removal selected vol slice_axis n_points h).1
        = Descr.Ok r →
        Descr.shape r = Descr.shape vol) ∧
  (3 ≤ Descr.kind_rank (Descr.kind_of (Descr.dt vol)) → 1 ≤ n_points →
   (∀ i d, Descr.shape vol !! i = Some d → i < 3 →
           (2 < Descr.ndim vol → Z.of_nat i ≠ slice_axis) →
           n_points + 1 ≤ d) →
   ∃ r h',
     Descr.gibbs_removal selected vol slice_axis n_points h
     = (Descr.Ok r, h') ∧
     Descr.shape r = Descr.shape vol).
Proof.
  intros Hnd Hsa. split.
  - intros r Hr.
    destruct (pt_gibbs_removal selected h vol slice_axis n_points h
                (extends_refl h)) as [_ Hp].
    by destruct (Hp r Hr) as (_ & _ & ?).
  - intros Hd Hn Hext.
    destruct (s_gibbs_removal selected vol slice_axis n_points
                Hd Hnd Hsa Hn Hext h) as (r & h' & Hr & _ & Hs).
    by exists r, h'.
Qed.

Lemma gibbs_removal_shape_witness :
  Descr.shape
    {| Descr.dt := Descr.Complex64; Descr.shape := [8; 9; 5; 4];
       Descr.buf := 4140; Descr.contig := false |}
  = [8; 9; 5; 4].
Proof.
  pose proof (gibbs_removal_shape (λ _, 0)
                {| Descr.dt := Descr.Float32; Descr.shape := [8; 9; 5; 4];
                   Descr.buf := 0; Descr.contig := true |}
                1 3 (Descr.fresh_heap 1)) as Hw.
  destruct Hw as [Hw _]; [unfold Descr.ndim; simpl; lia|lia|].
  apply Hw. vm_compute. reflexivity.
Defined.

(** C8 (code defect).  On an integer or boolean volume, of any shape,
    [gibbs_removal] raises an exception instead of computing in floating
    point: [float_dtype] is computed, but [xs], [isp] and [isn] keep the
    dtype of the input, and the in-place division
    [tmp /= sp[idx] + sn_i] cannot store its float result in the integer
    array [tmp]. *)
Theorem gibbs_removal_integer_input_raises (selected : nat → nat)
    (vol : Descr.ndarray) (slice_axis : Z) (n_points : nat) (h : Descr.heap) :
  Descr.kind_rank (Descr.kind_of (Descr.dt vol)) ≤ 2 →
  ∃ e, (Descr.gibbs_removal selected vol slice_axis n_points h).1
       = Descr.Raise e.
Proof.
  intros Hd.
  pose proof (p_gibbs_removal_integer selected vol slice_axis n_points Hd h)
    as Hp.
  destruct (Descr.gibbs_removal selected vol slice_axis n_points h)
    as [[r|e] h']; simpl in *; [|by exists e].
  by destruct (Hp r).
Qed.

Lemma gibbs_removal_integer_input_raises_witness :
  ∃ e, (Descr.gibbs_removal (λ _, 0)
          {| Descr.dt := Descr.Int64; Descr.shape := [8; 8];
             Descr.buf := 0; Descr.contig := true |}
          2 3 (Descr.fresh_heap 1)).1
       = Descr.Raise e.
Proof.
  apply (gibbs_removal_integer_input_raises (λ _, 0)
           {| Descr.dt := Descr.Int64; Descr.shape := [8; 8];
              Descr.buf := 0; Descr.contig := true |}
           2 3 (Descr.fresh_heap 1)).
  simpl. lia.
Defined.

(** The exceptions: UFuncTypeError for int64 and uint8 images of shape
    (8, 8); a bool image fails in the first subtraction with TypeError. *)
Lemma gibbs_removal_integer_input_exceptions :
  (Descr.gibbs_removal (λ _, 0)
     {| Descr.dt := Descr.Int64; Descr.shape := [8; 8];
        Descr.buf := 0; Descr.contig := true |}
     2 3 (Descr.fresh_heap 1)).1 = Descr.Raise Descr.UFuncTypeError ∧
  (Descr.gibbs_removal (λ _, 0)
     {| Descr.dt := Descr.UInt8; Descr.shape := [8; 8];
        Descr.buf := 0; Descr.contig := true |}
     2 3 (Descr.fresh_heap 1)).1 = Descr.Raise Descr.UFuncTypeError ∧
  (Descr.gibbs_removal (λ _, 0)
     {| Descr.dt := Descr.Bool; Descr.shape := [8; 8];
        Descr.buf := 0; Descr.contig := true |}
     2 3 (Descr.fresh_heap 1)).1 = Descr.Raise Descr.TypeError.
Proof. vm_compute. by split_and!. Qed.




(** With three samples along axis 0 and n_points = 3 the call raises
    IndexError, at the first boolean indexing of the shift search. *)
Lemma short_axis_raises_index_error :
  (Descr.gibbs_removal (λ _, 0)
     {| Descr.dt := Descr.Float64; Descr.shape := [3; 8];
        Descr.buf := 0; Descr.contig := true |}
     2 3 (Descr.fresh_heap 1)).1 = Descr.Raise Descr.IndexError.
Proof. vm_compute. reflexivity. Qed.

(** C10.  No call to [gibbs_removal], [_gibbs_removal_2d],
    [_gibbs_removal_1d], [_image_tv] or [_weights] writes into a buffer
    that existed before the call, in particular not into the buffer of an
    argument: every in-place statement updates an array created during the
    call, whether the call returns or raises. *)
Theorem no_input_mutation (selected : nat → nat) (h : Descr.heap) (b : nat)
    (x : Descr.ndarray) (slice_axis : Z) (axis n_points : nat)
    (G0 G1 : option Descr.ndarray) :
  b < Descr.next h →
  let untouched {A} (m : Descr.M A) :=
    ∃ ws, Descr.writes (m h).2 = ws ++ Descr.writes h ∧ b ∉ ws in
  untouched (Descr.gibbs_removal selected x slice_axis n_points) ∧
  untouched (Descr._gibbs_removal_2d selected x n_points G0 G1) ∧
  untouched (Descr._gibbs_removal_1d selected x axis n_points) ∧
  untouched (Descr._image_tv x axis n_points) ∧
  untouched (Descr._weights (Descr.shape x) (Descr.dt x)).
Proof.
  intros Hb untouched. unfold untouched. split_and!.
  - eapply ptriple_frame; [apply pt_gibbs_removal|done].
  - eapply ptriple_frame; [apply pt_gibbs_removal_2d|done].
  - eapply ptriple_frame; [apply pt_gibbs_removal_1d|done].
  - eapply ptriple_frame; [apply pt_image_tv|done].
  - eapply ptriple_frame; [apply pt_weights|done].
Qed.

Lemma no_input_mutation_witness :
  ∃ ws,
    Descr.writes
      (Descr.gibbs_removal (λ _, 0)
         {| Descr.dt := Descr.Float64; Descr.shape := [8; 8];
            Descr.buf := 0; Descr.contig := true |}
         2 3 (Descr.fresh_heap 1)).2
    = ws ++ Descr.writes (Descr.fresh_heap 1) ∧ 0 ∉ ws.
Proof.
  pose proof (no_input_mutation (λ _, 0) (Descr.fresh_heap 1) 0
                {| Descr.dt := Descr.Float64; Descr.shape := [8; 8];
                   Descr.buf := 0; Descr.contig := true |}
                2 1 3 None None) as Hw.
  cbv zeta in Hw. destruct Hw as [Hw _]; [simpl; lia|]. exact Hw.
Defined.


(** ** Further properties of the descriptor semantics *)

(** The checks of the driver: a slice axis above 2 raises ValueError
    whatever the volume is; so does a rank below 2 (for any slice axis up
    to 2) and a rank above 4 (for a slice axis NumPy accepts, from minus
    the rank up to 2). *)
Theorem gibbs_removal_rank_and_axis_checks (selected : nat → nat)
    (vol : Descr.ndarray) (slice_axis : Z) (n_points : nat) (h : Descr.heap) :
  (2 < slice_axis)%Z ∨
  ((slice_axis ≤ 2)%Z ∧ Descr.ndim vol < 2) ∨
  ((- Z.of_nat (Descr.ndim vol) ≤ slice_axis ≤ 2)%Z ∧ 4 < Descr.ndim vol) →
  (Descr.gibbs_removal selected vol slice_axis n_points h).1
  = Descr.Raise Descr.ValueError.
Proof.
  intros Hc.
  destruct (r_gibbs_removal_checks selected vol slice_axis n_points Hc h)
    as [h' ->].
  done.
Qed.

Lemma gibbs_removal_rank_and_axis_checks_witness :
  (Descr.gibbs_removal (λ _, 0)
     {| Descr.dt := Descr.Float64; Descr.shape := [4; 4; 4; 2; 2];
        Descr.buf := 0; Descr.contig := true |}
     (-5) 3 (Descr.fresh_heap 1)).1
  = Descr.Raise Descr.ValueError.
Proof.
  apply (gibbs_removal_rank_and_axis_checks (λ _, 0)
           {| Descr.dt := Descr.Float64; Descr.shape := [4; 4; 4; 2; 2];
              Descr.buf := 0; Descr.contig := true |}
           (-5) 3 (Descr.fresh_heap 1)).
  right. right. unfold Descr.ndim. simpl. lia.
Defined.

(** A negative slice axis is not validated: for a volume of rank 3 or
    more, a slice axis below minus the rank reaches [np.swapaxes] and
    raises AxisError. *)
Theorem gibbs_removal_negative_axis (selected : nat → nat)
    (vol : Descr.ndarray) (slice_axis : Z) (n_points : nat) (h : Descr.heap) :
  (slice_axis < - Z.of_nat (Descr.ndim vol))%Z → 2 < Descr.ndim vol →
  (Descr.gibbs_removal selected vol slice_axis n_points h).1
  = Descr.Raise Descr.AxisError.
Proof.
  intros Hsa Hnd.
  destruct (r_gibbs_removal_axis_error selected vol slice_axis n_points
              Hsa Hnd h) as [h' ->].
  done.
Qed.

Lemma gibbs_removal_negative_axis_witness :
  (Descr.gibbs_removal (λ _, 0)
     {| Descr.dt := Descr.Float64; Descr.shape := [8; 8; 4];
        Descr.buf := 0; Descr.contig := true |}
     (-4) 3 (Descr.fresh_heap 1)).1
  = Descr.Raise Descr.AxisError.
Proof.
  apply (gibbs_removal_negative_axis (λ _, 0)
           {| Descr.dt := Descr.Float64; Descr.shape := [8; 8; 4];
              Descr.buf := 0; Descr.contig := true |}
           (-4) 3 (Descr.fresh_heap 1)).
  - unfold Descr.ndim. simpl. lia.
  - unfold Descr.ndim. simpl. lia.
Defined.

(** [_gibbs_removal_2d] on an array of rank below 2: with both weights
    passed, the rank check raises ValueError; with a weight missing, the
    weights are computed first and [_weights] raises IndexError when it
    reads the shape, so the ValueError of the rank check is never seen. *)
Theorem gibbs_removal_2d_low_rank (selected : nat → nat)
    (image : Descr.ndarray) (n_points : nat) (h : Descr.heap) :
  Descr.ndim image < 2 →
  (∀ g0 g1,
     (Descr._gibbs_removal_2d selected image n_points (Some g0) (Some g1) h).1
     = Descr.Raise Descr.ValueError) ∧
  (∀ G0 G1, G0 = None ∨ G1 = None →
     (Descr._gibbs_removal_2d selected image n_points G0 G1 h).1
     = Descr.Raise Descr.IndexError).
Proof.
  intros Hnd. split.
  - intros g0 g1.
    destruct (r_gibbs_removal_2d_rank selected image n_points g0 g1
                ltac:(lia) ltac:(lia) h) as [h' ->].
    done.
  - intros G0 G1 HG.
    destruct (r_gibbs_removal_2d_no_weights selected image n_points G0 G1
                HG Hnd h) as [h' ->].
    done.
Qed.

Lemma gibbs_removal_2d_low_rank_witness :
  (Descr._gibbs_removal_2d (λ _, 0)
     {| Descr.dt := Descr.Float64; Descr.shape := [8];
        Descr.buf := 0; Descr.contig := true |}
     3 None None (Descr.fresh_heap 1)).1
  = Descr.Raise Descr.IndexError.
Proof.
  pose proof (gibbs_removal_2d_low_rank (λ _, 0)
                {| Descr.dt := Descr.Float64; Descr.shape := [8];
                   Descr.buf := 0; Descr.contig := true |}
                3 (Descr.fresh_heap 1)) as Hw.
  destruct Hw as [_ Hw]; [unfold Descr.ndim; simpl; lia|].
  apply Hw. by left.
Defined.

(** [_weights] accepts a shape (n0, n1) exactly when both extents are at
    least 1, and then returns two arrays of that shape; an empty axis
    makes one of the boundary assignments ([G1[1:-1, 0]] or [G1[0, 0]])
    raise IndexError. *)
Theorem weights_extents (n0 n1 : nat) (d : Descr.dtype) (h : Descr.heap) :
  (1 ≤ n0 ∧ 1 ≤ n1 →
   ∃ G h', Descr._weights [n0; n1] d h = (Descr.Ok G, h') ∧
           Descr.shape G.1 = [n0; n1] ∧ Descr.shape G.2 = [n0; n1]) ∧
  (n0 = 0 ∨ n1 = 0 →
   (Descr._weights [n0; n1] d h).1 = Descr.Raise Descr.IndexError).
Proof.
  split.
  - intros [H0 H1].
    destruct (s_weights n0 n1 d H0 H1 h) as (G & h' & HG & [_ ?] & [_ ?]).
    by exists G, h'.
  - intros Hz. destruct (r_weights_empty n0 n1 d Hz h) as [h' ->]. done.
Qed.

Lemma weights_extents_witness :
  ∃ G h', Descr._weights [4; 6] Descr.Float64 (Descr.fresh_heap 1)
          = (Descr.Ok G, h') ∧
          Descr.shape G.1 = [4; 6] ∧ Descr.shape G.2 = [4; 6].
Proof.
  pose proof (weights_extents 4 6 Descr.Float64 (Descr.fresh_heap 1)) as Hw.
  destruct Hw as [Hw _]. apply Hw. lia.
Defined.

(** [n_points = 0] is not a usable setting: for a volume of rank 2, 3 or
    4 whose extents are all at least 2 (any dtype but bool) the call
    raises ValueError, because the slice end [-n_points] is then 0 and
    [xs[:, 2:-0]] is empty. *)
Theorem gibbs_removal_zero_points (selected : nat → nat)
    (vol : Descr.ndarray) (slice_axis : Z) (h : Descr.heap) :
  Descr.dt vol ≠ Descr.Bool → 2 ≤ Descr.ndim vol ≤ 4 →
  (0 ≤ slice_axis ≤ 2)%Z → Forall (λ d, 2 ≤ d) (Descr.shape vol) →
  (Descr.gibbs_removal selected vol slice_axis 0 h).1
  = Descr.Raise Descr.ValueError.
Proof.
  intros Hd Hnd Hsa Hext.
  destruct (r_gibbs_removal_zero selected vol slice_axis Hd Hnd Hsa Hext h)
    as [h' ->].
  done.
Qed.

Lemma gibbs_removal_zero_points_witness :
  (Descr.gibbs_removal (λ _, 0)
     {| Descr.dt := Descr.Float64; Descr.shape := [8; 9; 4];
        Descr.buf := 0; Descr.contig := true |}
     1 0 (Descr.fresh_heap 1)).1
  = Descr.Raise Descr.ValueError.
Proof.
  apply (gibbs_removal_zero_points (λ _, 0)
           {| Descr.dt := Descr.Float64; Descr.shape := [8; 9; 4];
              Descr.buf := 0; Descr.contig := true |}
           1 (Descr.fresh_heap 1)).
  - done.
  - unfold Descr.ndim. simpl. lia.
  - lia.
  - simpl. repeat constructor; lia.
Defined.

(** Whenever [gibbs_removal] returns, the dtype of the result is the one
    SciPy's FFT gives the input: complex64 for a float16, float32 or
    complex64 volume, complex128 for float64 and complex128. *)
Theorem gibbs_removal_result_dtype (selected : nat → nat)
    (vol : Descr.ndarray) (slice_axis : Z) (n_points : nat) (h : Descr.heap)
    (r : Descr.ndarray) :
  (Descr.gibbs_removal selected vol slice_axis n_points h).1 = Descr.Ok r →
  Descr.dt r = match Descr.dt vol with
               | Descr.Float16 | Descr.Float32 | Descr.Complex64 =>
                   Descr.Complex64
               | _ => Descr.Complex128
               end.
Proof.
  intros Hr.
  exact (p_gibbs_removal_dt selected vol slice_axis n_points h r Hr).
Qed.

Lemma gibbs_removal_result_dtype_witness :
  Descr.dt {| Descr.dt := Descr.Complex64; Descr.shape := [8; 8; 5];
              Descr.buf := 4139; Descr.contig := false |}
  = Descr.Complex64.
Proof.
  apply (gibbs_removal_result_dtype (λ _, 0)
           {| Descr.dt := Descr.Float16; Descr.shape := [8; 8; 5];
              Descr.buf := 0; Descr.contig := true |}
           0 3 (Descr.fresh_heap 1)).
  vm_compute. reflexivity.
Defined.

(** The arrays the functions return live in buffers allocated during the
    call: the result of [gibbs_removal], of [_gibbs_removal_2d] and of
    [_gibbs_removal_1d], and the two fields of [_image_tv], never share
    the buffer of an argument or of any array that existed before. *)
Theorem results_are_new_arrays (selected : nat → nat) (h : Descr.heap)
    (b : nat) (x : Descr.ndarray) (slice_axis : Z) (axis n_points : nat)
    (G0 G1 : option Descr.ndarray) :
  b < Descr.next h →
  (∀ r, (Descr.gibbs_removal selected x slice_axis n_points h).1
        = Descr.Ok r → Descr.buf r ≠ b) ∧
  (∀ r, (Descr._gibbs_removal_2d selected x n_points G0 G1 h).1
        = Descr.Ok r → Descr.buf r ≠ b) ∧
  (∀ r, (Descr._gibbs_removal_1d selected x axis n_points h).1
        = Descr.Ok r → Descr.buf r ≠ b) ∧
  (∀ tv, (Descr._image_tv x axis n_points h).1 = Descr.Ok tv →
         Descr.buf tv.1 ≠ b ∧ Descr.buf tv.2 ≠ b).
Proof.
  intros Hb. split_and!.
  - intros r Hr.
    destruct (pt_gibbs_removal selected h x slice_axis n_points h
                (extends_refl h)) as [_ Hp].
    destruct (Hp r Hr) as (Hf & _). unfold fresh in Hf. lia.
  - intros r Hr.
    destruct (pt_gibbs_removal_2d selected h x n_points G0 G1 h
                (extends_refl h)) as [_ Hp].
    destruct (Hp r Hr) as (Hf & _). unfold fresh in Hf. lia.
  - intros r Hr.
    destruct (pt_gibbs_removal_1d selected h x axis n_points h
                (extends_refl h)) as [_ Hp].
    destruct (Hp r Hr) as (Hf & _). unfold fresh in Hf. lia.
  - intros tv Hr.
    destruct (pt_image_tv h x axis n_points h (extends_refl h)) as [_ Hp].
    destruct (Hp tv Hr) as (Hf1 & Hf2). unfold fresh in *. lia.
Qed.

Lemma results_are_new_arrays_witness :
  Descr.buf {| Descr.dt := Descr.Complex128; Descr.shape := [8; 8];
               Descr.buf := 4139; Descr.contig := true |} ≠ 0.
Proof.
  pose proof (results_are_new_arrays (λ _, 0) (Descr.fresh_heap 1) 0
                {| Descr.dt := Descr.Float64; Descr.shape := [8; 8];
                   Descr.buf := 0; Descr.contig := true |}
                2 1 3 None None) as Hw.
  destruct Hw as [Hw _]; [simpl; lia|].
  apply Hw. vm_compute. reflexivity.
Defined.

(** [_gibbs_removal_1d] works in the dtype of its input: every array it
    returns has the dtype and the shape of [x] (a float16 image gives a
    float16 result, a complex image a complex one), and for a float or
    complex image of rank 2 or 3 with at least [n_points + 1] samples
    along the corrected axis and a non-empty other axis it does return. *)
Theorem gibbs_removal_1d_keeps_dtype_and_shape (selected : nat → nat)
    (x : Descr.ndarray) (axis n_points s0 s1 : nat) (rest : list nat)
    (h : Descr.heap) :
  Descr.shape x = s0 :: s1 :: rest → length rest ≤ 1 →
  (∀ r, (Descr._gibbs_removal_1d selected x axis n_points h).1 = Descr.Ok r →
        Descr.dt r = Descr.dt x ∧ Descr.shape r = Descr.shape x) ∧
  (3 ≤ Descr.kind_rank (Descr.kind_of (Descr.dt x)) → 1 ≤ n_points →
   n_points + 1 ≤ match axis with 0 => s0 | _ => s1 end →
   0 < match axis with 0 => s1 | _ => s0 end →
   ∃ r h',
     Descr._gibbs_removal_1d selected x axis n_points h = (Descr.Ok r, h') ∧
     Descr.dt r = Descr.dt x ∧ Descr.shape r = Descr.shape x).
Proof.
  intros Hs Hrest. split.
  - intros r Hr.
    destruct (pt_gibbs_removal_1d selected h x axis n_points h
                (extends_refl h)) as [_ Hp].
    by destruct (Hp r Hr) as (_ & ? & ?).
  - intros Hd Hn Hlen Hother.
    destruct (s_gibbs_removal_1d selected x axis n_points s0 s1 rest
                Hs Hrest Hd Hn Hlen Hother h) as (r & h' & Hr & Hdt & Hsh).
    exists r, h'. rewrite Hs. done.
Qed.

Lemma gibbs_removal_1d_keeps_dtype_and_shape_witness :
  ∃ r h',
    Descr._gibbs_removal_1d (λ _, 0)
      {| Descr.dt := Descr.Float16; Descr.shape := [8; 9; 2];
         Descr.buf := 0; Descr.contig := true |}
      0 3 (Descr.fresh_heap 1) = (Descr.Ok r, h') ∧
    Descr.dt r = Descr.Float16 ∧ Descr.shape r = [8; 9; 2].
Proof.
  pose proof (gibbs_removal_1d_keeps_dtype_and_shape (λ _, 0)
                {| Descr.dt := Descr.Float16; Descr.shape := [8; 9; 2];
                   Descr.buf := 0; Descr.contig := true |}
                0 3 8 9 [2] (Descr.fresh_heap 1)) as Hw.
  destruct Hw as [_ Hw]; [reflexivity|simpl; lia|].
  apply Hw; simpl; lia.
Defined.


(** ** The weight arrays, entry by entry *)

Section weights_table.
Import Value.

Lemma selects_at_eq len (i : Z) t :
  Z.of_nat t = (if (i <? 0)%Z then (i + Z.of_nat len)%Z else i) →
  selects len (At i) t = Some 0.
Proof. intros He. unfold selects. by rewrite (proj2 (Z.eqb_eq _ _) He). Qed.

Lemma selects_middle_in len t :
  1 ≤ t → t + 1 < len → selects len (Range 1 (-1)) t = Some (t - 1).
Proof.
  intros H1 H2.
  assert (py_bound len 1 = 1) as E1 by (rewrite py_bound_nonneg; lia).
  assert (py_bound len (-1) = len - 1) as E2 by (rewrite py_bound_neg; lia).
  rewrite selects_range_in by (rewrite ?E1, ?E2; lia). by rewrite E1.
Qed.

Lemma selects_middle_out len t :
  t = 0 ∨ len ≤ t + 1 → selects len (Range 1 (-1)) t = None.
Proof.
  intros Ht. apply selects_range_out.
  rewrite (py_bound_nonneg _ 1), (py_bound_neg _ (-1)) by lia.
  destruct (decide (len = 0)); lia.
Qed.

Lemma get2_assign2_hit ix0 ix1 src dst n0 n1 i j i' j' :
  rect n0 n1 dst → i < n0 → j < n1 →
  selects n0 ix0 i = Some i' → selects n1 ix1 j = Some j' →
  get2 (assign2 ix0 ix1 src dst) i j = Some (src i' j').
Proof.
  intros [Hl Hr] Hi Hj H0 H1. rewrite get2_assign2.
  destruct (lookup_lt_is_Some_2 dst i) as [row Hrow]; [lia|].
  rewrite Hrow. cbn [mbind option_bind].
  pose proof (proj1 (Forall_lookup _ _) Hr i row Hrow) as Hlen.
  simpl in Hlen.
  destruct (lookup_lt_is_Some_2 row j) as [v Hv]; [lia|].
  rewrite Hv. cbn [mbind option_bind]. by rewrite Hl, Hlen, H0, H1.
Qed.

Lemma get2_zeros n0 n1 i j :
  i < n0 → j < n1 → get2 (replicate n0 (replicate n1 0%R)) i j = Some 0%R.
Proof.
  intros Hi Hj. unfold get2.
  rewrite lookup_replicate_2 by done. simpl.
  by rewrite lookup_replicate_2.
Qed.

(** Decides, for one assignment of [_weights], whether it reaches the
    entry at hand. *)
Ltac sel_none :=
  first [ apply selects_at_ne; simpl; lia | apply selects_middle_out; lia ].
Ltac sel_some :=
  first [ apply selects_at_eq; simpl; lia | apply selects_middle_in; lia ].
Ltac assign_step n0 n1 :=
  first
    [ rewrite (get2_assign2_other _ _ _ _ n0 n1)
        by (repeat apply rect_assign2; (apply rect_zeros || idtac);
            first [left; sel_none | right; sel_none])
    | erewrite (get2_assign2_hit _ _ _ _ n0 n1)
        by first [ repeat apply rect_assign2; apply rect_zeros
                 | lia | sel_some ] ].

(** The boundary of the two weight arrays: 1/2 in the four corners; on
    the first and last row G0 = 1 and G1 = 0; on the first and last column
    G1 = 1 and G0 = 0. *)
Lemma weights_boundary_values n0 n1 i j :
  2 ≤ n0 → 2 ≤ n1 → i < n0 → j < n1 →
  let row_edge := i = 0 ∨ i = n0 - 1 in
  let col_edge := j = 0 ∨ j = n1 - 1 in
  (row_edge → col_edge →
   get2 (_weights (n0, n1)).1 i j = Some (1 / 2)%R ∧
   get2 (_weights (n0, n1)).2 i j = Some (1 / 2)%R) ∧
  (row_edge → ¬ col_edge →
   get2 (_weights (n0, n1)).1 i j = Some 1%R ∧
   get2 (_weights (n0, n1)).2 i j = Some 0%R) ∧
  (¬ row_edge → col_edge →
   get2 (_weights (n0, n1)).1 i j = Some 0%R ∧
   get2 (_weights (n0, n1)).2 i j = Some 1%R).
Proof.
  intros Hn0 Hn1 Hi Hj row_edge col_edge. unfold row_edge, col_edge.
  unfold _weights. cbn [fst snd].
  split_and!; intros Hr Hc; split;
    destruct_or?; repeat assign_step n0 n1;
    first [ reflexivity | by apply get2_zeros ].
Qed.


(** At an interior grid point the cosine term is positive. *)
Lemma cos_term_pos n i :
  1 ≤ i → i + 1 < n →
  (0 < 1 + cos (- PI + INR i * ((PI - - PI) / INR (n - 1))))%R.
Proof.
  intros Hi Hn. set (k := (- PI + INR i * ((PI - - PI) / INR (n - 1)))%R).
  pose proof PI_RGT_0 as Hpi.
  assert (0 < INR i)%R as Hi0 by (apply lt_0_INR; lia).
  assert (INR i < INR (n - 1))%R as Hin by (apply lt_INR; lia).
  assert (0 < INR (n - 1))%R as Hn0 by lra.
  set (t := (INR i / INR (n - 1))%R).
  assert (0 < t < 1)%R as Ht.
  { unfold t. split.
    - by apply Rdiv_lt_0_compat.
    - apply (Rmult_lt_reg_r (INR (n - 1))); [done|].
      unfold Rdiv. rewrite Rmult_assoc, Rinv_l by lra. lra. }
  assert (k = (- PI + 2 * PI * t)%R) as Hk by (unfold k, t; field; lra).
  assert (- (PI / 2) < k / 2 < PI / 2)%R as Hhalf by (rewrite Hk; nra).
  replace k with (2 * (k / 2))%R by field.
  rewrite cos_2a_cos.
  pose proof (cos_gt_0 (k / 2) (proj1 Hhalf) (proj2 Hhalf)) as Hc.
  nra.
Qed.

End weights_table.

(** The boundary of the two weight arrays, for every shape with at least
    two rows and two columns: 1/2 in the four corners; G0 = 1 and G1 = 0
    on the rest of the first and last row; G1 = 1 and G0 = 0 on the rest
    of the first and last column. *)
Theorem weights_edges_and_corners (n0 n1 i j : nat) :
  2 ≤ n0 → 2 ≤ n1 → i < n0 → j < n1 →
  let row_edge := i = 0 ∨ i = n0 - 1 in
  let col_edge := j = 0 ∨ j = n1 - 1 in
  (row_edge → col_edge →
   get2 (Value._weights (n0, n1)).1 i j = Some (1 / 2)%R ∧
   get2 (Value._weights (n0, n1)).2 i j = Some (1 / 2)%R) ∧
  (row_edge → ¬ col_edge →
   get2 (Value._weights (n0, n1)).1 i j = Some 1%R ∧
   get2 (Value._weights (n0, n1)).2 i j = Some 0%R) ∧
  (¬ row_edge → col_edge →
   get2 (Value._weights (n0, n1)).1 i j = Some 0%R ∧
   get2 (Value._weights (n0, n1)).2 i j = Some 1%R).
Proof. exact (weights_boundary_values n0 n1 i j). Qed.

Lemma weights_edges_and_corners_witness :
  get2 (Value._weights (4, 6)).1 0 3 = Some 1%R ∧
  get2 (Value._weights (4, 6)).2 0 3 = Some 0%R.
Proof.
  pose proof (weights_edges_and_corners 4 6 0 3) as Hw.
  cbv zeta in Hw.
  destruct Hw as (_ & Hrow & _); [lia..|].
  apply Hrow; [by left|lia].
Defined.

(** The two weight arrays are a partition of unity: at every entry
    G0 + G1 = 1, with both weights between 0 and 1, so the blend of the two
    corrected spectra is a convex combination at every frequency. *)
Theorem weights_partition_of_unity (n0 n1 i j : nat) :
  2 ≤ n0 → 2 ≤ n1 → i < n0 → j < n1 →
  ∃ g0 g1 : R,
    get2 (Value._weights (n0, n1)).1 i j = Some g0 ∧
    get2 (Value._weights (n0, n1)).2 i j = Some g1 ∧
    (g0 + g1 = 1)%R ∧ (0 <= g0 <= 1)%R ∧ (0 <= g1 <= 1)%R.
Proof.
  intros Hn0 Hn1 Hi Hj.
  destruct (weights_boundary_values n0 n1 i j Hn0 Hn1 Hi Hj)
    as (Hcorner & Hrow & Hcol).
  destruct (decide (i = 0 ∨ i = n0 - 1)) as [Hr|Hr],
    (decide (j = 0 ∨ j = n1 - 1)) as [Hc|Hc].
  - destruct (Hcorner Hr Hc) as [-> ->]. eexists _, _.
    split_and!; [done|done|lra..].
  - destruct (Hrow Hr Hc) as [-> ->]. eexists _, _.
    split_and!; [done|done|lra..].
  - destruct (Hcol Hr Hc) as [-> ->]. eexists _, _.
    split_and!; [done|done|lra..].
  - pose proof (weights_interior n0 n1 i j ltac:(lia) ltac:(lia)
                  ltac:(lia) ltac:(lia)) as Hw.
    cbv zeta in Hw. destruct Hw as [-> ->].
    pose proof (cos_term_pos n0 i ltac:(lia) ltac:(lia)) as H0.
    pose proof (cos_term_pos n1 j ltac:(lia) ltac:(lia)) as H1.
    set (c0 := (1 + cos (- PI + INR i * ((PI - - PI) / INR (n0 - 1))))%R)
      in *.
    set (c1 := (1 + cos (- PI + INR j * ((PI - - PI) / INR (n1 - 1))))%R)
      in *.
    assert (0 < c0 + c1)%R as Hs by lra.
    assert (0 < c1 / (c0 + c1) < 1)%R.
    { split; [by apply Rdiv_lt_0_compat|].
      apply (Rmult_lt_reg_r (c0 + c1)); [done|].
      unfold Rdiv. rewrite Rmult_assoc, Rinv_l by lra. lra. }
    assert (c1 / (c0 + c1) + c0 / (c0 + c1) = 1)%R by (field; lra).
    eexists _, _. split_and!; [done|done|lra..].
Qed.

Lemma weights_partition_of_unity_witness :
  ∃ g0 g1 : R,
    get2 (Value._weights (4, 6)).1 2 3 = Some g0 ∧
    get2 (Value._weights (4, 6)).2 2 3 = Some g1 ∧
    (g0 + g1 = 1)%R ∧ (0 <= g0 <= 1)%R ∧ (0 <= g1 <= 1)%R.
Proof.
  apply (weights_partition_of_unity 4 6 2 3); lia.
Defined.

(** Exchanging the two axes exchanges the two arrays: G0 for the shape
    (n0, n1) is the transpose of G1 for the shape (n1, n0). *)
Theorem weights_axis_swap (n0 n1 i j : nat) :
  2 ≤ n0 → 2 ≤ n1 → i < n0 → j < n1 →
  get2 (Value._weights (n0, n1)).1 i j = get2 (Value._weights (n1, n0)).2 j i.
Proof.
  intros Hn0 Hn1 Hi Hj.
  destruct (weights_boundary_values n0 n1 i j Hn0 Hn1 Hi Hj)
    as (Hcorner & Hrow & Hcol).
  destruct (weights_boundary_values n1 n0 j i Hn1 Hn0 Hj Hi)
    as (Hcorner' & Hrow' & Hcol').
  destruct (decide (i = 0 ∨ i = n0 - 1)) as [Hr|Hr],
    (decide (j = 0 ∨ j = n1 - 1)) as [Hc|Hc].
  - destruct (Hcorner Hr Hc) as [-> _].
    by destruct (Hcorner' Hc Hr) as [_ ->].
  - destruct (Hrow Hr Hc) as [-> _]. by destruct (Hcol' Hc Hr) as [_ ->].
  - destruct (Hcol Hr Hc) as [-> _]. by destruct (Hrow' Hc Hr) as [_ ->].
  - pose proof (weights_interior n0 n1 i j ltac:(lia) ltac:(lia)
                  ltac:(lia) ltac:(lia)) as Hw.
    pose proof (weights_interior n1 n0 j i ltac:(lia) ltac:(lia)
                  ltac:(lia) ltac:(lia)) as Hw'.
    cbv zeta in Hw, Hw'. destruct Hw as [-> _]. destruct Hw' as [_ ->].
    do 2 f_equal. apply Rplus_comm.
Qed.

Lemma weights_axis_swap_witness :
  get2 (Value._weights (4, 6)).1 2 3 = get2 (Value._weights (6, 4)).2 3 2.
Proof.
  apply (weights_axis_swap 4 6 2 3); lia.
Defined.


(** ** More on the total variation fields *)

Lemma sum_upto_nonneg f n : (∀ k, k < n → (0 <= f k)%R) → (0 <= sum_upto f n)%R.
Proof.
  induction n as [|n IH]; intros Hf; simpl; [lra|].
  pose proof (Hf n ltac:(lia)). pose proof (IH ltac:(intros; apply Hf; lia)).
  lra.
Qed.

Lemma sum_upto_zero f n : (∀ k, k < n → f k = 0%R) → sum_upto f n = 0%R.
Proof.
  induction n as [|n IH]; intros Hf; simpl; [done|].
  rewrite IH, Hf by (intros; apply Hf || idtac; lia). lra.
Qed.

Lemma sum_upto_S_l f n :
  sum_upto f (S n) = (f 0%nat + sum_upto (λ k, f (S k)) n)%R.
Proof.
  induction n as [|n IH]; [simpl; lra|].
  rewrite sum_upto_S, IH. simpl. lra.
Qed.

(** Real addition is commutative: a sum can be read backwards. *)
Lemma sum_upto_rev f n : sum_upto f n = sum_upto (λ k, f (n - 1 - k)) n.
Proof.
  induction n as [|n IH]; [done|].
  rewrite (sum_upto_S f n), (sum_upto_S_l (λ k, f (S n - 1 - k)) n).
  replace (S n - 1 - 0) with n by lia.
  rewrite IH, Rplus_comm. f_equal.
  apply sum_upto_ext. intros k Hk. f_equal. lia.
Qed.

Lemma tv_forward_nonneg f len pos n : (0 <= tv_forward f len pos n)%R.
Proof. apply sum_upto_nonneg. intros. apply Rabs_pos. Qed.

Lemma tv_backward_nonneg f len pos n : (0 <= tv_backward f len pos n)%R.
Proof. apply sum_upto_nonneg. intros. apply Rabs_pos. Qed.

Lemma wrap_add_l len (z k : Z) :
  0 < len → wrap len (Z.of_nat (wrap len z) + k) = wrap len (z + k).
Proof.
  intros Hl. unfold wrap. f_equal.
  pose proof (Z.mod_pos_bound z (Z.of_nat len)).
  rewrite Z2Nat.id by lia. apply Z.add_mod_idemp_l. lia.
Qed.

(** The backward sum at [pos] has the terms of the forward sum at
    [pos - n], in the opposite order. *)
Lemma tv_backward_forward f len pos n :
  0 < len →
  tv_backward f len pos n
  = tv_forward f len (wrap len (Z.of_nat pos - Z.of_nat n)) n.
Proof.
  intros Hl. unfold tv_backward, tv_forward.
  rewrite sum_upto_rev. apply sum_upto_ext. intros k Hk. cbv beta.
  rewrite <-!Z.add_assoc, !wrap_add_l, !Z.add_assoc by done.
  replace (Z.of_nat pos - Z.of_nat (n - 1 - k))%Z
    with (Z.of_nat pos - Z.of_nat n + Z.of_nat k + 1)%Z by lia.
  replace (Z.of_nat pos - Z.of_nat n + Z.of_nat k + 1 - 1)%Z
    with (Z.of_nat pos - Z.of_nat n + Z.of_nat k)%Z by lia.
  apply Rabs_minus_sym.
Qed.

Lemma tv_forward_flat f len pos n :
  (∀ k, k ≤ n → f (wrap len (Z.of_nat pos + Z.of_nat k)) = f pos) →
  tv_forward f len pos n = 0%R.
Proof.
  intros Hf. apply sum_upto_zero. intros k Hk.
  rewrite (Hf k) by lia.
  replace (Z.of_nat pos + Z.of_nat k + 1)%Z
    with (Z.of_nat pos + Z.of_nat (S k))%Z by lia.
  rewrite (Hf (S k)) by lia. by rewrite Rminus_diag, Rabs_R0.
Qed.

Lemma tv_backward_flat f len pos n :
  (∀ k, k ≤ n → f (wrap len (Z.of_nat pos - Z.of_nat k)) = f pos) →
  tv_backward f len pos n = 0%R.
Proof.
  intros Hf. apply sum_upto_zero. intros k Hk.
  rewrite (Hf k) by lia.
  replace (Z.of_nat pos - Z.of_nat k - 1)%Z
    with (Z.of_nat pos - Z.of_nat (S k))%Z by lia.
  rewrite (Hf (S k)) by lia. by rewrite Rminus_diag, Rabs_R0.
Qed.

Section tv_values.
Context {F : Type → Type} `{BatchLaws F}.

(** The two fields of [_image_tv] along axis 1, voxel by voxel. *)
Lemma image_tv_axis1_values n n0 n1 nb (xs : list (list (F R))) i j b :
  has_shape n0 n1 nb xs → 1 ≤ n → n + 1 ≤ n1 →
  i < n0 → j < n1 → b < nb →
  aget (Value._image_tv xs 1 n).1 i j b
    = Some (tv_forward (λ t, sample xs i t b) n1 j n) ∧
  aget (Value._image_tv xs 1 n).2 i j b
    = Some (tv_backward (λ t, sample xs i t b) n1 j n).
Proof.
  intros Hx Hn Hlen Hi Hj Hb.
  destruct (tv_fold_axis1 n n0 n1 nb xs (n - 1) Hx) as (_ & _ & Hv);
    [lia..|].
  unfold Value._image_tv.
  replace (py_range 1 n) with (seq 1 (n - 1)) by done.
  fold (padded n xs).
  destruct (Hv i j b Hi Hj Hb) as [-> ->].
  by replace (S (n - 1)) with n by lia.
Qed.

(** The same for both axes: along axis 0 the line through a voxel is its
    column. *)
Lemma image_tv_values (x : list (list (F R))) axis n n0 n1 nb i j b :
  has_shape n0 n1 nb x → 0 < n0 → 0 < n1 → axis ≤ 1 → 1 ≤ n →
  n + 1 ≤ match axis with 0 => n0 | _ => n1 end →
  i < n0 → j < n1 → b < nb →
  let line := λ t, match axis with
                   | 0 => sample x t j b
                   | _ => sample x i t b
                   end in
  let len := match axis with 0 => n0 | _ => n1 end in
  let pos := match axis with 0 => i | _ => j end in
  aget (Value._image_tv x axis n).1 i j b
    = Some (tv_forward line len pos n) ∧
  aget (Value._image_tv x axis n).2 i j b
    = Some (tv_backward line len pos n).
Proof.
  intros Hx Hn0 Hn1 Hax Hn Hlen Hi Hj Hb.
  destruct axis as [|[|axis]]; [| |lia]; cbv zeta.
  - pose proof (has_shape_transpose _ _ _ _ Hx Hn0) as Hxt.
    destruct (image_tv_axis1_values n n1 n0 nb (transpose x) j i b)
      as [Hp Hm]; try done.
    destruct (image_tv_axis1 n n1 n0 nb (transpose x)) as [Hs1 Hs2];
      try done.
    unfold Value._image_tv in *. cbv zeta in *. cbn [fst snd] in *.
    rewrite !(aget_transpose n1 n0 nb) by done.
    rewrite Hp, Hm.
    split; f_equal.
    + apply tv_forward_ext; [|done]. intros t Ht. unfold sample.
      by rewrite (aget_transpose n0 n1 nb).
    + apply tv_backward_ext; [|done]. intros t Ht. unfold sample.
      by rewrite (aget_transpose n0 n1 nb).
  - by apply (image_tv_axis1_values n n0 n1 nb).
Qed.

End tv_values.

(** The two fields of [_image_tv] hold the same numbers: the negative
    field at a position is the positive field [n_points] positions
    earlier along the axis (periodically); and no entry is negative. *)
Theorem image_tv_negative_is_shifted_positive {F : Type → Type}
    `{BatchLaws F} (x : list (list (F R))) (axis n n0 n1 nb i j b : nat) :
  has_shape n0 n1 nb x → 0 < n0 → 0 < n1 → axis ≤ 1 → 1 ≤ n →
  n + 1 ≤ match axis with 0 => n0 | _ => n1 end →
  i < n0 → j < n1 → b < nb →
  let i' := match axis with
            | 0 => wrap n0 (Z.of_nat i - Z.of_nat n) | _ => i end in
  let j' := match axis with
            | 0 => j | _ => wrap n1 (Z.of_nat j - Z.of_nat n) end in
  ∃ v, aget (Value._image_tv x axis n).2 i j b = Some v ∧
       aget (Value._image_tv x axis n).1 i' j' b = Some v ∧ (0 <= v)%R.
Proof.
  intros Hx Hn0 Hn1 Hax Hn Hlen Hi Hj Hb i' j'.
  destruct (image_tv_values x axis n n0 n1 nb i j b) as [_ Hm]; try done.
  assert (i' < n0 ∧ j' < n1) as [Hi' Hj'].
  { unfold i', j'. destruct axis; split; try done; apply wrap_lt; lia. }
  destruct (image_tv_values x axis n n0 n1 nb i' j' b) as [Hp _]; try done.
  cbv zeta in Hm, Hp. rewrite Hm, Hp. eexists. split; [done|].
  split; [|apply tv_backward_nonneg].
  f_equal. rewrite tv_backward_forward by (destruct axis; lia).
  unfold i', j'. destruct axis as [|axis]; [done|].
  done.
Qed.

Lemma image_tv_negative_is_shifted_positive_witness :
  let x : list (list (list R)) :=
    [[[1; 5]; [2; 7]; [4; 4]]; [[0; 1]; [3; 1]; [9; 2]]]%R in
  has_shape 2 3 2 x ∧
  ∃ v, aget (Value._image_tv x 1 2).2 1 2 0 = Some v ∧
       aget (Value._image_tv x 1 2).1 1 0 0 = Some v ∧ (0 <= v)%R.
Proof.
  intros x.
  assert (has_shape 2 3 2 x) as Hx.
  { split; [done|]. repeat constructor. }
  split; [exact Hx|].
  pose proof (image_tv_negative_is_shifted_positive x 1 2 2 3 2 1 2 0 Hx)
    as Hw.
  cbv zeta in Hw. apply Hw; lia.
Defined.

Lemma sum_upto_scale a f n :
  sum_upto (λ k, a * f k)%R n = (a * sum_upto f n)%R.
Proof. induction n as [|n IH]; simpl; [lra|]. rewrite IH. lra. Qed.

Lemma tv_forward_affine (a c : R) f g len pos n :
  (∀ t, t < len → g t = (a * f t + c)%R) → 0 < len →
  tv_forward g len pos n = (Rabs a * tv_forward f len pos n)%R.
Proof.
  intros Hg Hl. unfold tv_forward. rewrite <-sum_upto_scale.
  apply sum_upto_ext. intros k _. cbv beta.
  rewrite !Hg by (apply wrap_lt; lia). rewrite <-Rabs_mult. f_equal. lra.
Qed.

Lemma tv_backward_affine (a c : R) f g len pos n :
  (∀ t, t < len → g t = (a * f t + c)%R) → 0 < len →
  tv_backward g len pos n = (Rabs a * tv_backward f len pos n)%R.
Proof.
  intros Hg Hl. unfold tv_backward. rewrite <-sum_upto_scale.
  apply sum_upto_ext. intros k _. cbv beta.
  rewrite !Hg by (apply wrap_lt; lia). rewrite <-Rabs_mult. f_equal. lra.
Qed.

(** [_image_tv] sees differences only: for the image a * x + c both
    fields are those of x times |a|; in particular an offset c changes
    neither. *)
Theorem image_tv_affine {F : Type → Type} `{BatchLaws F}
    (x : list (list (F R))) (a c : R) (axis n n0 n1 nb i j b : nat) :
  has_shape n0 n1 nb x → 0 < n0 → 0 < n1 → axis ≤ 1 → 1 ≤ n →
  n + 1 ≤ match axis with 0 => n0 | _ => n1 end →
  i < n0 → j < n1 → b < nb →
  let y := amap (λ v, a * v + c)%R x in
  ∃ p q,
    aget (Value._image_tv x axis n).1 i j b = Some p ∧
    aget (Value._image_tv x axis n).2 i j b = Some q ∧
    aget (Value._image_tv y axis n).1 i j b = Some (Rabs a * p)%R ∧
    aget (Value._image_tv y axis n).2 i j b = Some (Rabs a * q)%R.
Proof.
  intros Hx Hn0 Hn1 Hax Hn Hlen Hi Hj Hb y.
  assert (has_shape n0 n1 nb y) as Hy by (by apply has_shape_amap).
  assert (∀ i' j', i' < n0 → j' < n1 →
            sample y i' j' b = (a * sample x i' j' b + c)%R) as Hs.
  { intros i' j' Hi' Hj'. unfold sample, y. rewrite aget_amap.
    by rewrite (aget_sample n0 n1 nb x) by done. }
  destruct (image_tv_values x axis n n0 n1 nb i j b) as [Hp Hm]; try done.
  destruct (image_tv_values y axis n n0 n1 nb i j b) as [Hp' Hm']; try done.
  cbv zeta in Hp, Hm, Hp', Hm'.
  eexists _, _. split; [exact Hp|]. split; [exact Hm|].
  rewrite Hp', Hm'. destruct axis as [|axis].
  - split; f_equal;
      [apply (tv_forward_affine a c)|apply (tv_backward_affine a c)];
      try lia; intros t Ht; by apply Hs.
  - split; f_equal;
      [apply (tv_forward_affine a c)|apply (tv_backward_affine a c)];
      try lia; intros t Ht; by apply Hs.
Qed.

Lemma image_tv_affine_witness :
  let x : list (list (list R)) :=
    [[[1; 5]; [2; 7]; [4; 4]]; [[0; 1]; [3; 1]; [9; 2]]]%R in
  has_shape 2 3 2 x ∧
  ∃ p, aget (Value._image_tv x 1 2).1 1 2 0 = Some p ∧
       aget (Value._image_tv (amap (λ v, -2 * v + 7)%R x) 1 2).1 1 2 0
       = Some (Rabs (-2) * p)%R.
Proof.
  intros x.
  assert (has_shape 2 3 2 x) as Hx.
  { split; [done|]. repeat constructor. }
  split; [exact Hx|].
  pose proof (image_tv_affine x (-2) 7 1 2 2 3 2 1 2 0 Hx) as Hw.
  cbv zeta in Hw.
  destruct Hw as (p & q & Hp & _ & Hp' & _); [lia..|].
  exists p. by split.
Defined.

(** ** More on the shift search *)

Lemma Cabs_nonneg z : (0 <= Value.Cabs z)%R.
Proof. apply sqrt_pos. Qed.

Lemma Rgtb_false a b : (a <= b)%R → Value.Rgtb a b = false.
Proof. intros Hab. unfold Value.Rgtb. destruct (Rgt_dec a b); [lra|done]. Qed.

Section search_values.
Context {F : Type → Type} `{BatchLaws F}.
Import Value.

Lemma sample_amap_Cabs (c : list (list (F C))) i j b :
  (0 <= sample (amap Cabs c) i j b)%R.
Proof.
  unfold sample. rewrite aget_amap.
  destruct (aget c i j b); simpl; [apply Cabs_nonneg|lra].
Qed.

Lemma sample_tv_score_nonneg n n0 n1 nb (img : list (list (F R))) i j b :
  has_shape n0 n1 nb img → 1 ≤ n → n + 1 ≤ n1 →
  i < n0 → j < n1 → b < nb →
  (0 <= sample (azip Rmin (_image_tv img 1 n).1 (_image_tv img 1 n).2)
         i j b)%R.
Proof.
  intros Hx Hn Hlen Hi Hj Hb.
  destruct (image_tv_axis1 n n0 n1 nb img) as [H1 H2]; try done.
  rewrite (sample_azip n0 n1 nb) by done.
  destruct (image_tv_axis1_values n n0 n1 nb img i j b) as [Hp Hm];
    try done.
  unfold sample. rewrite Hp, Hm. simpl.
  apply Rmin_glb; [apply tv_forward_nonneg|apply tv_backward_nonneg].
Qed.

(** [search_step_voxel] with what is known of the candidate: its scores
    are sums of magnitudes and its values are magnitudes. *)
Lemma search_step_voxel_nonneg n n0 n1 nb (c : list (list (F C))) k st s
    i j b :
  has_shape n0 n1 nb c → length k = n1 → 1 ≤ n → n + 1 ≤ n1 →
  search_wf n0 n1 nb st → i < n0 → j < n1 → b < nb →
  let st' := search_step n c k st s in
  ∃ cp vp cn vn : R,
    (0 <= cp)%R ∧ (0 <= vp)%R ∧ (0 <= cn)%R ∧ (0 <= vn)%R ∧
    sample (tvp st') i j b
      = (if Rgtb (sample (tvp st) i j b) cp
         then cp else sample (tvp st) i j b) ∧
    sample (sp st') i j b
      = (if Rgtb (sample (tvp st) i j b) cp
         then s else sample (sp st) i j b) ∧
    sample (isp st') i j b
      = (if Rgtb (sample (tvp st) i j b) cp
         then vp else sample (isp st) i j b) ∧
    sample (tvn st') i j b
      = (if Rgtb (sample (tvn st) i j b) cn
         then cn else sample (tvn st) i j b) ∧
    sample (sn st') i j b
      = (if Rgtb (sample (tvn st) i j b) cn
         then s else sample (sn st) i j b) ∧
    sample (isn st') i j b
      = (if Rgtb (sample (tvn st) i j b) cn
         then vn else sample (isn st) i j b).
Proof.
  intros Hc Hk Hn Hlen (H1 & H2 & H3 & H4 & H5 & H6) Hi Hj Hb st'.
  set (eks := Cexp <$> ((λ z : C, Cscale z s) <$> k)).
  assert (length eks = n1) as Heks
    by (unfold eks; by rewrite !length_fmap).
  assert (length (Cconj <$> eks) = n1) as Heks'
    by (by rewrite length_fmap).
  pose proof (has_shape_shifted_image _ _ _ c eks Hc Heks) as Hip.
  pose proof (has_shape_shifted_image _ _ _ c _ Hc Heks') as Hin.
  pose proof (has_shape_tv_score n _ _ _ _ Hip Hn Hlen) as Htp.
  pose proof (has_shape_tv_score n _ _ _ _ Hin Hn Hlen) as Htn.
  exists (sample (azip Rmin (_image_tv (shifted_image c eks) 1 n).1
                            (_image_tv (shifted_image c eks) 1 n).2) i j b),
    (sample (shifted_image c eks) i j b),
    (sample (azip Rmin (_image_tv (shifted_image c (Cconj <$> eks)) 1 n).1
                       (_image_tv (shifted_image c (Cconj <$> eks)) 1 n).2)
            i j b),
    (sample (shifted_image c (Cconj <$> eks)) i j b).
  split; [by apply (sample_tv_score_nonneg n n0 n1 nb)|].
  split; [apply sample_amap_Cabs|].
  split; [by apply (sample_tv_score_nonneg n n0 n1 nb)|].
  split; [apply sample_amap_Cabs|].
  unfold st', search_step.
  cbn [isp sp tvp isn sn tvn]. fold eks.
  rewrite !(sample_mask_set n0 n1 nb), !(sample_mask_fill n0 n1 nb)
    by done.
  split_and!; reflexivity.
Qed.

(** What the search keeps for one direction at one voxel: nothing (shift
    0, the unshifted sample), or one of the candidates with a magnitude as
    its estimate. *)
Definition shift_state (cands : list R) (orig shift est : R) : Prop :=
  (shift = 0%R ∧ est = orig) ∨ (shift ∈ cands ∧ (0 <= est)%R).

Lemma shift_state_mono cands s orig shift est :
  shift_state cands orig shift est → shift_state (cands ++ [s]) orig shift est.
Proof.
  intros [?|[Hin ?]]; [by left|right]. split; [|done].
  apply elem_of_app. by left.
Qed.

Lemma shift_search_state n n0 n1 nb (xs : list (list (F R))) cands i j b :
  has_shape n0 n1 nb xs → 0 < n0 → 1 ≤ n → n + 1 ≤ n1 →
  i < n0 → j < n1 → b < nb →
  let st := shift_search n xs cands in
  shift_state cands (sample xs i j b) (sample (sp st) i j b)
              (sample (isp st) i j b) ∧
  shift_state cands (sample xs i j b) (sample (sn st) i j b)
              (sample (isn st) i j b).
Proof.
  intros Hx Hn0 Hn Hlen Hi Hj Hb. cbv zeta.
  induction cands as [|s cands IH] using rev_ind.
  - unfold shift_search, search_init. cbn [foldl isp sp isn sn].
    assert (sample (amap (λ _ : R, 0%R) xs) i j b = 0%R) as ->.
    { unfold sample. rewrite aget_amap.
      by rewrite (aget_sample n0 n1 nb xs) by done. }
    split; by left.
  - destruct IH as [IHp IHn].
    rewrite shift_search_snoc.
    destruct (search_step_voxel_nonneg n n0 n1 nb
                (fftshift (fft2b (amap of_real xs)))
                (phase_ramp (ncols xs))
                (shift_search n xs cands) s i j b)
      as (cp & vp & cn & vn & _ & Hvp & _ & Hvn & _ & Hsp & Hip & _
          & Hsn & Hin); try done.
    + by apply has_shape_spectrum.
    + unfold phase_ramp. rewrite length_fmap, length_linspace.
      by eapply has_shape_ncols.
    + by apply shift_search_wf.
    + rewrite Hsp, Hip, Hsn, Hin. split.
      * destruct (Rgtb _ cp); [|by apply shift_state_mono].
        right. split; [|done]. apply elem_of_app. right. by left.
      * destruct (Rgtb _ cn); [|by apply shift_state_mono].
        right. split; [|done]. apply elem_of_app. right. by left.
Qed.

(** A voxel whose baseline score is zero is never updated. *)
Lemma shift_search_flat n n0 n1 nb (xs : list (list (F R))) cands i j b :
  has_shape n0 n1 nb xs → 0 < n0 → 1 ≤ n → n + 1 ≤ n1 →
  i < n0 → j < n1 → b < nb →
  sample (tvp (search_init n xs)) i j b = 0%R →
  let st := shift_search n xs cands in
  sample (tvp st) i j b = 0%R ∧ sample (sp st) i j b = 0%R ∧
  sample (tvn st) i j b = 0%R ∧ sample (sn st) i j b = 0%R.
Proof.
  intros Hx Hn0 Hn Hlen Hi Hj Hb Hz. cbv zeta.
  induction cands as [|s cands IH] using rev_ind.
  - unfold shift_search. cbn [foldl].
    assert (sample (sp (search_init n xs)) i j b = 0%R) as Hs.
    { unfold search_init. cbn [sp]. unfold sample. rewrite aget_amap.
      by rewrite (aget_sample n0 n1 nb xs) by done. }
    split_and!; try done.
  - destruct IH as (IHtp & IHsp & IHtn & IHsn).
    rewrite shift_search_snoc.
    destruct (search_step_voxel_nonneg n n0 n1 nb
                (fftshift (fft2b (amap of_real xs)))
                (phase_ramp (ncols xs))
                (shift_search n xs cands) s i j b)
      as (cp & vp & cn & vn & Hcp & _ & Hcn & _ & Htp & Hsp & _ & Htn
          & Hsn & _); try done.
    + by apply has_shape_spectrum.
    + unfold phase_ramp. rewrite length_fmap, length_linspace.
      by eapply has_shape_ncols.
    + by apply shift_search_wf.
    + rewrite Htp, Hsp, Htn, Hsn, IHtp, IHtn.
      rewrite !Rgtb_false by done. done.
Qed.
End search_values.

Lemma ssamp_range s :
  s ∈ Value.ssamp → (2 / 100 <= s <= 9 / 10)%R.
Proof.
  unfold Value.ssamp, Value.linspace.
  intros (k & -> & Hk)%list_elem_of_fmap.
  apply elem_of_seq in Hk.
  pose proof (pos_INR k) as H0.
  assert (INR k <= 44)%R as H1.
  { replace 44%R with (INR 44) by (simpl; lra). apply le_INR. lia. }
  change (INR (45 - 1)) with (INR 44).
  assert (INR 44 = 44%R) as -> by (simpl; lra).
  split; nra.
Qed.

(** The arithmetic of the reconstruction at one voxel: a convex
    combination of the two estimates. *)
Lemma interpolate_between (orig sp sn ep en : R) :
  shift_state Value.ssamp orig sp ep → shift_state Value.ssamp orig sn en →
  let out := if Value.Rnonzero (sp + sn)
             then ((ep - en) / (sp + sn) * sn + en)%R else orig in
  (Rmin ep en <= out <= Rmax ep en)%R ∧ ((0 <= orig)%R → (0 <= out)%R).
Proof.
  intros Hp Hm out.
  assert (0 <= sp)%R as Hsp.
  { destruct Hp as [[-> _]|[Hin _]]; [lra|].
    apply ssamp_range in Hin. lra. }
  assert (0 <= sn)%R as Hsn.
  { destruct Hm as [[-> _]|[Hin _]]; [lra|].
    apply ssamp_range in Hin. lra. }
  assert ((0 <= orig)%R → (0 <= ep)%R ∧ (0 <= en)%R) as Hest.
  { intros Ho. split.
    - by destruct Hp as [[_ ->]|[_ ?]].
    - by destruct Hm as [[_ ->]|[_ ?]]. }
  assert (Rmin ep en <= out <= Rmax ep en)%R as Hb.
  { unfold out, Value.Rnonzero.
    destruct (Req_dec_T (sp + sn) 0) as [Hz|Hnz].
    - assert (sp = 0%R) as E1 by lra. assert (sn = 0%R) as E2 by lra.
      assert (ep = orig) as ->.
      { destruct Hp as [[_ ->]|[Hin _]]; [done|].
        apply ssamp_range in Hin. lra. }
      assert (en = orig) as ->.
      { destruct Hm as [[_ ->]|[Hin _]]; [done|].
        apply ssamp_range in Hin. lra. }
      rewrite Rmin_left, Rmax_left by lra. lra.
    - set (t := (sn / (sp + sn))%R).
      assert (0 <= t <= 1)%R as Ht.
      { unfold t. split.
        - apply Rmult_le_pos; [done|].
          apply Rlt_le, Rinv_0_lt_compat. lra.
        - apply (Rmult_le_reg_r (sp + sn)); [lra|].
          unfold Rdiv. rewrite Rmult_assoc, Rinv_l by lra. lra. }
      replace ((ep - en) / (sp + sn) * sn + en)%R
        with (en + (ep - en) * t)%R by (unfold t; field; lra).
      destruct (Rle_dec ep en).
      + rewrite Rmin_left, Rmax_right by lra. nra.
      + rewrite Rmin_right, Rmax_left by lra. nra. }
  split; [exact Hb|]. intros Ho. destruct (Hest Ho) as [H1 H2].
  assert (0 <= Rmin ep en)%R by (by apply Rmin_glb). lra.
Qed.

Section corrector_values.
Context {F : Type → Type} `{BatchLaws F}.
Import Value.

(** Along axis 1, on the working copy. *)
Lemma interpolate_flat n n0 n1 nb (xs : list (list (F R))) i j b :
  has_shape n0 n1 nb xs → 0 < n0 → 1 ≤ n → n + 1 ≤ n1 →
  i < n0 → j < n1 → b < nb →
  tv_forward (λ t, sample xs i t b) n1 j n = 0%R ∨
  tv_backward (λ t, sample xs i t b) n1 j n = 0%R →
  aget (interpolate (shift_search n xs ssamp) xs) i j b
  = Some (sample xs i j b).
Proof.
  intros Hx Hn0 Hn Hlen Hi Hj Hb Hflat.
  assert (sample (tvp (search_init n xs)) i j b = 0%R) as Hz.
  { unfold search_init. cbn [tvp].
    destruct (image_tv_axis1 n n0 n1 nb xs) as [H1 H2]; try done.
    rewrite (sample_azip n0 n1 nb) by done.
    destruct (image_tv_axis1_values n n0 n1 nb xs i j b) as [Hp Hm];
      try done.
    unfold sample. rewrite Hp, Hm. simpl.
    pose proof (tv_forward_nonneg (λ t, sample xs i t b) n1 j n).
    pose proof (tv_backward_nonneg (λ t, sample xs i t b) n1 j n).
    destruct Hflat as [E|E]; rewrite E in *.
    - by rewrite Rmin_left.
    - by rewrite Rmin_right. }
  destruct (shift_search_flat n n0 n1 nb xs ssamp i j b)
    as (_ & Hsp & _ & Hsn); try done.
  cbv zeta in Hsp, Hsn.
  pose proof (shift_search_wf n n0 n1 nb xs ssamp Hx Hn0 Hn Hlen) as Hwf.
  rewrite (sample_interpolate n0 n1 nb _ xs i j b Hwf Hx Hi Hj Hb).
  rewrite Hsp, Hsn. unfold Rnonzero.
  destruct (Req_dec_T (0 + 0) 0) as [_|Hne]; [done|]. lra.
Qed.

Lemma interpolate_range n n0 n1 nb (xs : list (list (F R))) i j b :
  has_shape n0 n1 nb xs → 0 < n0 → 1 ≤ n → n + 1 ≤ n1 →
  i < n0 → j < n1 → b < nb →
  let st := shift_search n xs ssamp in
  ∃ out, aget (interpolate st xs) i j b = Some out ∧
    (Rmin (sample (isp st) i j b) (sample (isn st) i j b) <= out
     <= Rmax (sample (isp st) i j b) (sample (isn st) i j b))%R ∧
    ((0 <= sample xs i j b)%R → (0 <= out)%R) ∧
    (sample (sp st) i j b = 0%R ∨
     (2 / 100 <= sample (sp st) i j b <= 9 / 10)%R) ∧
    (sample (sn st) i j b = 0%R ∨
     (2 / 100 <= sample (sn st) i j b <= 9 / 10)%R).
Proof.
  intros Hx Hn0 Hn Hlen Hi Hj Hb st.
  destruct (shift_search_state n n0 n1 nb xs ssamp i j b) as [Hp Hm];
    try done.
  fold st in Hp, Hm.
  pose proof (shift_search_wf n n0 n1 nb xs ssamp Hx Hn0 Hn Hlen) as Hwf.
  fold st in Hwf.
  rewrite (sample_interpolate n0 n1 nb _ xs i j b Hwf Hx Hi Hj Hb).
  eexists. split; [reflexivity|].
  destruct (interpolate_between _ _ _ _ _ Hp Hm) as [Hb1 Hb2].
  split; [exact Hb1|]. split; [exact Hb2|].
  split.
  - destruct Hp as [[-> _]|[Hin _]]; [by left|right].
    by apply ssamp_range.
  - destruct Hm as [[-> _]|[Hin _]]; [by left|right].
    by apply ssamp_range.
Qed.
End corrector_values.

(** A voxel at which the image is flat over [n_points] neighbours to one
    side along the corrected axis (periodically) is returned unchanged by
    [_gibbs_removal_1d]; in particular an image that is constant along the
    axis is returned as it is. *)
Theorem flat_voxel_unchanged {F : Type → Type} `{BatchLaws F}
    (x : list (list (F R))) (axis n n0 n1 nb i j b : nat) :
  has_shape n0 n1 nb x → 0 < n0 → 0 < n1 → axis ≤ 1 → 1 ≤ n →
  n + 1 ≤ match axis with 0 => n0 | _ => n1 end →
  i < n0 → j < n1 → b < nb →
  let line := λ t, match axis with
                   | 0 => sample x t j b
                   | _ => sample x i t b
                   end in
  let len := match axis with 0 => n0 | _ => n1 end in
  let pos := match axis with 0 => i | _ => j end in
  (∀ k, k ≤ n → line (wrap len (Z.of_nat pos + Z.of_nat k)) = line pos) ∨
  (∀ k, k ≤ n → line (wrap len (Z.of_nat pos - Z.of_nat k)) = line pos) →
  aget (Value._gibbs_removal_1d x axis n) i j b = Some (sample x i j b).
Proof.
  intros Hx Hn0 Hn1 Hax Hn Hlen Hi Hj Hb line len pos Hflat.
  assert (tv_forward line len pos n = 0%R ∨
          tv_backward line len pos n = 0%R) as Hz.
  { destruct Hflat as [Hf|Hf];
      [left; by apply tv_forward_flat|right; by apply tv_backward_flat]. }
  unfold line, len, pos in Hz. clear Hflat.
  destruct axis as [|[|axis]]; [| |lia]; unfold Value._gibbs_removal_1d.
  - pose proof (has_shape_transpose _ _ _ _ Hx Hn0) as Hxt.
    pose proof (shift_search_wf n n1 n0 nb (transpose x) Value.ssamp
                  Hxt Hn1 Hn Hlen) as Hwf.
    rewrite (aget_transpose n1 n0 nb)
      by (done || by apply has_shape_interpolate).
    assert (∀ t, t < n0 →
              sample (transpose x) j t b = sample x t j b) as Hline.
    { intros t Ht. unfold sample. by rewrite (aget_transpose n0 n1 nb). }
    assert (tv_forward (λ t, sample (transpose x) j t b) n0 i n = 0%R ∨
            tv_backward (λ t, sample (transpose x) j t b) n0 i n = 0%R)
      as Hz'.
    { destruct Hz as [Hz|Hz]; [left|right]; rewrite <-Hz.
      - by apply tv_forward_ext.
      - by apply tv_backward_ext. }
    rewrite (interpolate_flat n n1 n0 nb) by done.
    f_equal. by apply Hline.
  - by apply (interpolate_flat n n0 n1 nb).
Qed.

Lemma flat_voxel_unchanged_witness :
  let x : list (list R) := [[1; 5; 5; 5; 7]; [4; 4; 0; 1; 2]]%R in
  has_shape (F:=scalar) 2 5 1 x ∧
  aget (F:=scalar) (Value._gibbs_removal_1d (F:=scalar) x 1 2) 0 1 0
  = Some 5%R.
Proof.
  intros x.
  assert (has_shape (F:=scalar) 2 5 1 x) as Hx.
  { split; [done|]. repeat constructor. }
  split; [exact Hx|].
  pose proof (flat_voxel_unchanged (F:=scalar) x 1 2 2 5 1 0 1 0 Hx) as Hw.
  cbv zeta in Hw.
  apply Hw; try lia.
  left. intros [|[|[|k]]] Hk; try lia; reflexivity.
Defined.

(** The value [_gibbs_removal_1d] returns at a voxel lies between the two
    directional estimates of the search; a stored shift is 0 or one of the
    candidates, between 0.02 and 0.9; and where the input sample is not
    negative, the output is not negative. *)
Theorem corrected_sample_between_estimates {F : Type → Type} `{BatchLaws F}
    (x : list (list (F R))) (axis n n0 n1 nb i j b : nat) :
  has_shape n0 n1 nb x → 0 < n0 → 0 < n1 → axis ≤ 1 → 1 ≤ n →
  n + 1 ≤ match axis with 0 => n0 | _ => n1 end →
  i < n0 → j < n1 → b < nb →
  let xs := match axis with 0 => transpose x | _ => x end in
  let st := Value.shift_search n xs Value.ssamp in
  let i' := match axis with 0 => j | _ => i end in
  let j' := match axis with 0 => i | _ => j end in
  let s_pos := sample (Value.sp st) i' j' b in
  let s_neg := sample (Value.sn st) i' j' b in
  let e_pos := sample (Value.isp st) i' j' b in
  let e_neg := sample (Value.isn st) i' j' b in
  ∃ out, aget (Value._gibbs_removal_1d x axis n) i j b = Some out ∧
    (Rmin e_pos e_neg <= out <= Rmax e_pos e_neg)%R ∧
    ((0 <= sample x i j b)%R → (0 <= out)%R) ∧
    (s_pos = 0%R ∨ (2 / 100 <= s_pos <= 9 / 10)%R) ∧
    (s_neg = 0%R ∨ (2 / 100 <= s_neg <= 9 / 10)%R).
Proof.
  intros Hx Hn0 Hn1 Hax Hn Hlen Hi Hj Hb.
  destruct axis as [|[|axis]]; [| |lia]; cbv zeta;
    unfold Value._gibbs_removal_1d.
  - pose proof (has_shape_transpose _ _ _ _ Hx Hn0) as Hxt.
    pose proof (shift_search_wf n n1 n0 nb (transpose x) Value.ssamp
                  Hxt Hn1 Hn Hlen) as Hwf.
    rewrite (aget_transpose n1 n0 nb)
      by (done || by apply has_shape_interpolate).
    replace (sample x i j b) with (sample (transpose x) j i b)
      by (unfold sample; by rewrite (aget_transpose n0 n1 nb)).
    by apply (interpolate_range n n1 n0 nb).
  - by apply (interpolate_range n n0 n1 nb).
Qed.

Lemma corrected_sample_between_estimates_witness :
  let x : list (list R) := [[1; 5; 2; 7]; [4; 4; 0; 1]; [3; 1; 9; 2]]%R in
  has_shape (F:=scalar) 3 4 1 x ∧
  ∃ out, aget (F:=scalar) (Value._gibbs_removal_1d (F:=scalar) x 0 2) 2 3 0
         = Some out ∧ (0 <= out)%R.
Proof.
  intros x.
  assert (has_shape (F:=scalar) 3 4 1 x) as Hx.
  { split; [done|]. repeat constructor. }
  split; [exact Hx|].
  pose proof (corrected_sample_between_estimates (F:=scalar)
                x 0 2 3 4 1 2 3 0 Hx) as Hw.
  cbv zeta in Hw.
  destruct Hw as (out & Hout & _ & Hpos & _); [lia..|].
  exists out. split; [exact Hout|]. apply Hpos.
  unfold sample. simpl. lra.
Defined.

(** A rank-3 volume is corrected slice by slice: with the slices along
    axis 2 (the default), slice z of the result is [gibbs_removal] of the
    2D image [vol[:, :, z]]. *)
Theorem volume_slices_independent (a : list (list (list R)))
    (n0 n1 n2 z n_points : nat) :
  rect3 n0 n1 n2 a → z < n2 →
  ∃ r3 r2,
    Value.gibbs_removal (Value.Vol3 a) 2 n_points = Some (Value.Vol3 r3) ∧
    Value.gibbs_removal (Value.Vol2 (slice3 0%R z a)) 2 n_points
      = Some (Value.Vol2 r2) ∧
    slice3 0%R z r3 = r2.
Proof.
  intros [_ Ha] Hz.
  assert (uniform n2 a) as Hu.
  { eapply Forall_impl; [exact Ha|]. by intros row [_ ?]. }
  unfold Value.gibbs_removal. cbn [Nat.ltb Nat.leb]. cbv zeta.
  eexists _, _. split; [reflexivity|]. split; [reflexivity|].
  rewrite ncols_slice3.
  replace (length (slice3 0%R z a)) with (length a)
    by (unfold slice3; by rewrite length_fmap).
  destruct (gibbs_removal_2d_slice n2 z a n_points
              (Value._weights (length a, ncols a)).1
              (Value._weights (length a, ncols a)).2 Hu Hz) as [_ Hs].
  exact Hs.
Qed.

Lemma volume_slices_independent_witness :
  let a : list (list (list R)) :=
    [[[1; 5]; [2; 7]; [4; 4]]; [[0; 1]; [3; 1]; [9; 2]]]%R in
  rect3 2 3 2 a ∧
  ∃ r3 r2,
    Value.gibbs_removal (Value.Vol3 a) 2 1 = Some (Value.Vol3 r3) ∧
    Value.gibbs_removal (Value.Vol2 (slice3 0%R 1 a)) 2 1
      = Some (Value.Vol2 r2) ∧
    slice3 0%R 1 r3 = r2.
Proof.
  intros a.
  assert (rect3 2 3 2 a) as Ha.
  { split; [done|]. repeat constructor. }
  split; [exact Ha|].
  exact (volume_slices_independent a 2 3 2 1 1 Ha ltac:(lia)).
Defined.

(** ** Shape and sign of the corrected image *)

Lemma rect_weights n0 n1 :
  rect n0 n1 (Value._weights (n0, n1)).1 ∧
  rect n0 n1 (Value._weights (n0, n1)).2.
Proof.
  unfold Value._weights. cbn [fst snd].
  split; repeat apply rect_assign2; apply rect_zeros.
Qed.

Section corrector_shapes.
Context {F : Type → Type} `{BatchLaws F}.
Import Value.

Lemma has_shape_mul_weights n0 n1 nb (c : list (list (F C))) G :
  has_shape n0 n1 nb c → rect n0 n1 G →
  has_shape n0 n1 nb (mul_weights c G).
Proof.
  rewrite !has_shape_lookup. intros [Hl Hs] [HGl HGr]. unfold mul_weights.
  split; [rewrite length_zip_with; lia|].
  intros i row. rewrite lookup_zip_with.
  destruct (c !! i) as [r|] eqn:Hi; simpl; [|done].
  destruct (G !! i) as [g|] eqn:Hg; simpl; [|done].
  intros [= <-]. destruct (Hs i r Hi) as [Hlen Hp].
  pose proof (proj1 (Forall_lookup _ _) HGr i g Hg) as Hglen.
  simpl in Hglen.
  split; [rewrite length_zip_with; lia|].
  intros j p. rewrite lookup_zip_with.
  destruct (r !! j) as [q|] eqn:Hj; simpl; [|done].
  destruct (g !! j); simpl; [|done].
  intros [= <-]. rewrite blen_bmap. eauto.
Qed.

Lemma has_shape_gibbs_removal_1d n0 n1 nb (x : list (list (F R))) axis n :
  has_shape n0 n1 nb x → 0 < n0 → 0 < n1 → 1 ≤ n →
  n + 1 ≤ match axis with 0 => n0 | _ => n1 end →
  has_shape n0 n1 nb (_gibbs_removal_1d x axis n).
Proof.
  intros Hx Hn0 Hn1 Hn Hlen. unfold _gibbs_removal_1d.
  destruct axis as [|axis].
  - pose proof (has_shape_transpose _ _ _ _ Hx Hn0) as Hxt.
    apply has_shape_transpose; [|done].
    apply has_shape_interpolate; [|done]. by apply shift_search_wf.
  - apply has_shape_interpolate; [|done]. by apply shift_search_wf.
Qed.

Lemma has_shape_gibbs_removal_2d n0 n1 nb (image : list (list (F R))) n
    G0 G1 :
  has_shape n0 n1 nb image → 1 ≤ n → n + 1 ≤ n0 → n + 1 ≤ n1 →
  rect n0 n1 G0 → rect n0 n1 G1 →
  has_shape n0 n1 nb (_gibbs_removal_2d image n (Some G0) (Some G1)).
Proof.
  intros Hx Hn Hl0 Hl1 HG0 HG1. unfold _gibbs_removal_2d. cbv zeta.
  cbn [fst snd].
  assert (∀ axis, n + 1 ≤ match axis with 0 => n0 | _ => n1 end) as Hax
    by (by intros [|?]).
  assert (∀ axis, has_shape n0 n1 nb
            (fftshift (fft2b (amap of_real (_gibbs_removal_1d image axis n)))))
    as Hspec.
  { intros axis. apply has_shape_spectrum.
    apply has_shape_gibbs_removal_1d; (done || lia). }
  apply has_shape_amap. unfold ifft2b.
  apply bslices_shape; [apply ifft2_keeps_shape|].
  apply has_shape_azip; by apply has_shape_mul_weights.
Qed.
End corrector_shapes.

(** The image [_gibbs_removal_2d] returns has the shape of its input and
    holds magnitudes: no sample of the result is negative, whatever the
    sign of the input samples. *)
Theorem gibbs_removal_2d_shape_and_sign {F : Type → Type} `{BatchLaws F}
    (image : list (list (F R))) (n n0 n1 nb i j b : nat) :
  has_shape n0 n1 nb image → 1 ≤ n → n + 1 ≤ n0 → n + 1 ≤ n1 →
  i < n0 → j < n1 → b < nb →
  let out := Value._gibbs_removal_2d image n None None in
  has_shape n0 n1 nb out ∧
  ∃ v, aget out i j b = Some v ∧ (0 <= v)%R.
Proof.
  intros Hx Hn Hl0 Hl1 Hi Hj Hb out.
  assert (has_shape n0 n1 nb out) as Hout.
  { unfold out.
    assert (Value._gibbs_removal_2d image n None None
            = Value._gibbs_removal_2d image n
                (Some (Value._weights (length image, ncols image)).1)
                (Some (Value._weights (length image, ncols image)).2))
      as -> by done.
    destruct Hx as [Hlen Hrows].
    assert (ncols image = n1) as ->.
    { eapply has_shape_ncols; [by split|lia]. }
    rewrite Hlen.
    destruct (rect_weights n0 n1) as [HG0 HG1].
    apply has_shape_gibbs_removal_2d; (done || by split). }
  split; [exact Hout|].
  destruct (aget_Some n0 n1 nb out i j b Hout Hi Hj Hb) as [v Hv].
  exists v. split; [exact Hv|].
  unfold out, Value._gibbs_removal_2d in Hv. cbv zeta in Hv.
  rewrite aget_amap in Hv.
  destruct (aget _ i j b) as [z|]; simpl in Hv; [|done].
  injection Hv as <-. apply Cabs_nonneg.
Qed.

Lemma gibbs_removal_2d_shape_and_sign_witness :
  let x : list (list R) := [[1; -5; 2; 7]; [4; 4; 0; -1]; [3; 1; 9; 2]]%R in
  has_shape (F:=scalar) 3 4 1 x ∧
  ∃ v, aget (F:=scalar) (Value._gibbs_removal_2d (F:=scalar) x 2 None None)
         0 1 0 = Some v ∧ (0 <= v)%R.
Proof.
  intros x.
  assert (has_shape (F:=scalar) 3 4 1 x) as Hx.
  { split; [done|]. repeat constructor. }
  split; [exact Hx|].
  pose proof (gibbs_removal_2d_shape_and_sign (F:=scalar)
                x 2 3 4 1 0 1 0 Hx) as Hw.
  cbv zeta in Hw.
  destruct Hw as [_ Hv]; [lia..|]. exact Hv.
Defined.
